(** * LOOS: rigid-body superposition, inertia decomposition and the DCD writer

    A shallow embedding of [AG_linalg.cpp] (momentsOfInertia, principalAxes,
    superposition, alignOnto) and of [dcdwriter.cpp] (writeFrame and its
    helpers).

    Conventions of the embedding:
    - a C++ [double] is the real number it holds ([R]) and its arithmetic is
      the arithmetic of the reals, with one exception: the determinant of
      superposition, whose sign decides a branch, is evaluated as the machine
      evaluates it, in IEEE 754 binary64 with every product, sum and
      difference rounded to nearest (ties to even);
    - a C array [double a[k]] is a [list R] read with [a.[i]]; BLAS/LAPACK
      matrices are column-major, element (r,c) of a matrix with leading
      dimension [ld] is [a.[r + c*ld]];
    - the LAPACK solvers [dsyev_] and [dgesvd_] are external: they are
      Section variables, and what a theorem needs of them is a hypothesis
      stating the documented LAPACK contract;
    - atoms live in a store (a [pAtom] is a shared pointer, so two groups may
      share atoms); methods of AtomicGroup take the store and return the
      store they leave behind;
    - a C++ exception is the [Throw] result. *)

From Stdlib Require Import String Ascii ZArith Bool Arith Lia Reals Lra Psatz List.
From Stdlib Require Import SpecFloat.
Import ListNotations.
Open Scope R_scope.

(* ================================================================= *)
(** ** Results and exceptions *)

Inductive exn : Type :=
| NumericalError (msg : string) (info : Z)
| RuntimeError (msg : string).

Inductive result (A : Type) : Type :=
| Ok (a : A)
| Throw (e : exn).
Arguments Ok {A} a.
Arguments Throw {A} e.

(* ================================================================= *)
(** ** Arrays of doubles *)

Definition arr := list R.

Definition get (a : arr) (i : nat) : R := nth i a 0.
Notation "a .[ i ]" := (get a i) (at level 1, left associativity, format "a .[ i ]").

(** [a[i] = v] on a C array or a std::vector; the index is in range at every
    use in the sources. *)
Fixpoint set {A : Type} (a : list A) (i : nat) (v : A) : list A :=
  match a, i with
  | [], _ => []
  | _ :: t, O => v :: t
  | h :: t, S i' => h :: set t i' v
  end.

(** [sum_upto k f] is [f 0 + ... + f (k-1)], accumulated from 0. *)
Fixpoint sum_upto (k : nat) (f : nat -> R) : R :=
  match k with
  | O => 0
  | S k' => sum_upto k' f + f k'
  end.

(* ================================================================= *)
(** ** GCoord *)

Record GCoord : Type := mkCoord { cx : R; cy : R; cz : R }.

Definition czero : GCoord := mkCoord 0 0 0.
Definition cadd (a b : GCoord) := mkCoord (cx a + cx b) (cy a + cy b) (cz a + cz b).
Definition csub (a b : GCoord) := mkCoord (cx a - cx b) (cy a - cy b) (cz a - cz b).
Definition cneg (a : GCoord) := mkCoord (- cx a) (- cy a) (- cz a).
Definition cdiv (a : GCoord) (d : R) := mkCoord (cx a / d) (cy a / d) (cz a / d).

(** [c[i]] for i = 0, 1, 2 *)
Definition cget (c : GCoord) (i : nat) : R :=
  match i with O => cx c | 1%nat => cy c | _ => cz c end.

(* ================================================================= *)
(** ** Doubles as the machine has them *)

(** An IEEE 754 binary64 number: 53 bits of precision, infinities at
    exponent 1024.  The operations are those of the specification of
    floating-point arithmetic in the Standard Library. *)
Definition double : Type := spec_float.

Definition dzero : double := S754_zero false.
Definition dmul (a b : double) : double := SFmul 53 1024 a b.
Definition dadd (a b : double) : double := SFadd 53 1024 a b.
Definition dsub (a b : double) : double := SFsub 53 1024 a b.
(** [a < b] on doubles: false when one of them is not a number. *)
Definition dlt (a b : double) : bool := SFltb a b.

(** The double nearest to a real (ties to even; beyond the largest double,
    an infinity): the integer part of |x| * 2^1076 and whether anything is
    left after it are rounded to 53 bits, which drops two bits or more. *)
Definition R2D (x : R) : double :=
  let y := Rabs x * IZR (2 ^ 1076) in
  binary_round_aux 53 1024 (if Rlt_dec x 0 then true else false) (Int_part y) (-1076)
    (if Req_EM_T (frac_part y) 0 then loc_Exact else loc_Inexact Lt).

(** The double nearest to an integer. *)
Definition Z2D (z : Z) : double :=
  binary_round_aux 53 1024 (z <? 0)%Z (Z.abs z * 2 ^ 1076) (-1076) loc_Exact.

(* ================================================================= *)
(** ** BLAS dgemm *)

Inductive transFlag : Type := FlagN | FlagT.

(** Element (r,c) of op(A) for a column-major array with leading dimension
    [ld]. *)
Definition opElem (t : transFlag) (A : arr) (ld r c : nat) : R :=
  match t with
  | FlagN => A.[r + c * ld]
  | FlagT => A.[c + r * ld]
  end.

(** [dgemm_(ta, tb, m, n, k, alpha, A, lda, B, ldb, beta = 0, C, ldc = m)]:
    C := alpha * op(A) * op(B).  With beta = 0 the previous contents of C
    are not read; the result is the m-by-n column-major array. *)
Definition dgemm_ (ta tb : transFlag) (m n k : nat) (alpha : R)
           (A : arr) (lda : nat) (B : arr) (ldb : nat) : arr :=
  flat_map (fun j =>
    map (fun i =>
      alpha * sum_upto k (fun l => opElem ta A lda i l * opElem tb B ldb l j))
      (seq 0 m))
    (seq 0 n).

(* ================================================================= *)
(** ** GMatrix and XForm *)

(** Modelled from the spec: GMatrix (Matrix44.hpp is not among the sources),
    "a 4x4 homogeneous transform (3x3 rotation + 3x1 translation, represented
    so that composition is matrix multiplication and application is
    matrix-vector multiply in homogeneous coordinates)".  Stored row by row;
    [M(i,j)] is row i, column j, so that [M(i,3)] is the translation, as the
    commented-out [W(0,3) = yc.x()] of superposition has it. *)
Definition GMatrix := list R.

Definition mget (M : GMatrix) (i j : nat) : R := M.[i * 4 + j].
Definition mset (M : GMatrix) (i j : nat) (v : R) : GMatrix := set M (i * 4 + j) v.

Definition gidentity : GMatrix :=
  [1; 0; 0; 0;
   0; 1; 0; 0;
   0; 0; 1; 0;
   0; 0; 0; 1].

Definition gmul (A B : GMatrix) : GMatrix :=
  flat_map (fun i =>
    map (fun j => sum_upto 4 (fun k => mget A i k * mget B k j)) (seq 0 4))
    (seq 0 4).

(** Modelled from the spec: applying a transform (section 4.4), "the
    homogeneous-coordinate product of the 4x4 transform and the coordinate
    (treated as a homogeneous 4-vector with w=1, then re-normalized by
    dividing by w if not already 1)". *)
Definition gapply (M : GMatrix) (c : GCoord) : GCoord :=
  let row i := mget M i 0 * cx c + mget M i 1 * cy c + mget M i 2 * cz c + mget M i 3 * 1 in
  let w := row 3%nat in
  if Req_EM_T w 1 then mkCoord (row 0%nat) (row 1%nat) (row 2%nat)
  else mkCoord (row 0%nat / w) (row 1%nat / w) (row 2%nat / w).

(** Modelled from the spec: XForm (XForm.hpp is not among the sources), the
    transform under construction, "built by composing primitive operations
    (identity, translate-by-vector, concatenate-with-matrix) in a specific
    left-to-right order": each operation multiplies the current matrix on the
    right. *)
Record XForm : Type := mkXForm { current : GMatrix }.

Definition xform_new : XForm := mkXForm gidentity.
Definition xidentity (W : XForm) : XForm := mkXForm gidentity.
Definition xload (W : XForm) (M : GMatrix) : XForm := mkXForm M.
Definition xconcat (W : XForm) (M : GMatrix) : XForm := mkXForm (gmul (current W) M).

Definition gtranslation (v : GCoord) : GMatrix :=
  [1; 0; 0; cx v;
   0; 1; 0; cy v;
   0; 0; 1; cz v;
   0; 0; 0; 1].

Definition xtranslate (W : XForm) (v : GCoord) : XForm := xconcat W (gtranslation v).
Definition xtransform (W : XForm) (c : GCoord) : GCoord := gapply (current W) c.

(* ================================================================= *)
(** ** Atoms, the store and AtomicGroup *)

(** A [pAtom] is a shared pointer to an Atom: an address of the store. *)
Definition pAtom := nat.

Record Atom : Type := mkAtom { coords : GCoord; mass : R }.

Definition Store := pAtom -> Atom.

Definition set_coords (st : Store) (p : pAtom) (c : GCoord) : Store :=
  fun q => if Nat.eqb q p then mkAtom c (mass (st q)) else st q.

(** An AtomicGroup: its atoms (pointers, in order) and its periodic box when
    it has one. *)
Record AtomicGroup : Type := mkGroup { atoms : list pAtom; box : option GCoord }.

Definition size (g : AtomicGroup) : nat := List.length (atoms g).
Definition isPeriodic (g : AtomicGroup) : bool :=
  match box g with Some _ => true | None => false end.
Definition periodicBox (g : AtomicGroup) : GCoord :=
  match box g with Some b => b | None => czero end.

(** The coordinates of the members, in order. *)
Definition coordsOf (st : Store) (g : AtomicGroup) : list GCoord :=
  map (fun p => coords (st p)) (atoms g).

(** *** Computations over the store *)

Definition Op (A : Type) : Type := Store -> result A * Store.

Definition ret {A} (a : A) : Op A := fun st => (Ok a, st).
Definition throw {A} (e : exn) : Op A := fun st => (Throw e, st).
Definition bind {A B} (m : Op A) (k : A -> Op B) : Op B :=
  fun st => match m st with
            | (Ok a, st') => k a st'
            | (Throw e, st') => (Throw e, st')
            end.
(** a const method: reads the store *)
Definition reads {A} (f : Store -> A) : Op A := fun st => (Ok (f st), st).
Definition modify (f : Store -> Store) : Op unit := fun st => (Ok tt, f st).

Notation "x <- m ;; k" := (bind m (fun x => k))
  (at level 61, m at next level, right associativity).
Notation "m ;;; k" := (bind m (fun _ => k))
  (at level 61, right associativity).

(** *** Helpers of AtomicGroup that are not in AG_linalg.cpp *)

(** Modelled from the spec: AtomicGroup::centroid (AtomicGroup.cpp is not
    among the sources), "unweighted mean of all member coordinates". *)
Definition centroid (g : AtomicGroup) (st : Store) : GCoord :=
  cdiv (fold_left cadd (coordsOf st g) czero) (INR (size g)).

(** Modelled from the spec: AtomicGroup::centerOfMass, "mass-weighted mean". *)
Definition centerOfMass (g : AtomicGroup) (st : Store) : GCoord :=
  let wsum := fold_left (fun acc p =>
                 let m := mass (st p) in
                 let c := coords (st p) in
                 cadd acc (mkCoord (m * cx c) (m * cy c) (m * cz c)))
               (atoms g) czero in
  let mtot := fold_left (fun acc p => acc + mass (st p)) (atoms g) 0 in
  cdiv wsum mtot.

(** Modelled from the spec: AtomicGroup::coordsAsArray, a fresh array (the
    caller deletes it) holding x, y, z of each member in turn: the 3-by-N
    column-major coordinate array. *)
Definition coordsAsArray (g : AtomicGroup) (st : Store) : arr :=
  flat_map (fun c => [cx c; cy c; cz c]) (coordsOf st g).

(** Modelled from the spec: AtomicGroup::transformedCoordsAsArray, the same
    for the coordinates transformed by [W]; the stored coordinates are not
    touched. *)
Definition transformedCoordsAsArray (g : AtomicGroup) (W : XForm) (st : Store) : arr :=
  flat_map (fun c => let c' := xtransform W c in [cx c'; cy c'; cz c']) (coordsOf st g).

(** Modelled from the spec: AtomicGroup::applyTransform (section 4.4), "for
    every member coordinate, replace it with" its image, in place. *)
Definition applyTransform (g : AtomicGroup) (W : XForm) (st : Store) : Store :=
  fold_left (fun s p => set_coords s p (xtransform W (coords (s p)))) (atoms g) st.

(* ================================================================= *)
(** ** AG_linalg.cpp *)

(** What the LAPACK routines hand back. *)
Record dsyev_out : Type :=
  mkSyev { syev_A : arr; syev_W : arr; syev_info : Z }.
Record dgesvd_out : Type :=
  mkSvd { svd_S : arr; svd_U : arr; svd_Vt : arr; svd_info : Z }.

(** [Math::Matrix<double, Math::ColMajor> I(3,3)]: element (r,c). *)
Definition cm3 (r c : nat) : nat := (c * 3 + r)%nat.

(** A buffer [double b[n]] after an external routine has filled it from
    [a]: exactly n cells. *)
Definition buffer (n : nat) (a : arr) : arr := map (fun i => a.[i]) (seq 0 n).

(** [I(r,c) += v] *)
Definition accum (I : arr) (r c : nat) (v : R) : arr :=
  set I (cm3 r c) (I.[cm3 r c] + v).

Section Linalg.

(** [dsyev_(jobz, uplo, n, A, lda, W, work, lwork, info)] *)
Variable dsyev_ : Ascii.ascii -> Ascii.ascii -> nat -> arr -> nat -> dsyev_out.
(** [dgesvd_(jobu, jobvt, m, n, A, lda, S, U, ldu, Vt, ldvt, work, lwork, info)] *)
Variable dgesvd_ : Ascii.ascii -> Ascii.ascii -> nat -> nat -> arr -> nat ->
                   nat -> nat -> dgesvd_out.

(** Lines 48-65 of momentsOfInertia: the matrix handed to the eigensolver. *)
Definition inertiaMatrix (self : AtomicGroup) (st : Store) : arr :=
  let I := repeat 0 9 in
  let c := centerOfMass self st in
  let I := fold_left (fun I p =>
             let u := csub (coords (st p)) c in
             let m := mass (st p) in
             let I := accum I 0 0 (m * (cy u * cy u + cz u * cz u)) in
             let I := accum I 1 0 (m * cx u * cy u) in
             let I := accum I 2 0 (m * cx u * cz u) in
             let I := accum I 1 1 (m * (cx u * cx u + cz u * cz u)) in
             let I := accum I 2 1 (m * cy u * cz u) in
             let I := accum I 2 2 (m * (cx u * cx u + cy u * cy u)) in
             I) (atoms self) I in
  let I := set I (cm3 0 1) (- I.[cm3 1 0]) in
  let I := set I (cm3 1 0) I.[cm3 0 1] in
  let I := set I (cm3 0 2) (- I.[cm3 2 0]) in
  let I := set I (cm3 2 0) I.[cm3 0 2] in
  let I := set I (cm3 1 2) (- I.[cm3 2 1]) in
  let I := set I (cm3 2 1) I.[cm3 1 2] in
  I.

(** momentsOfInertia: the eigensolver on that matrix, the status tests,
    the three columns stored last one first, and the eigenvalues packed
    last one first as a GCoord divided by size(). *)
Definition momentsOfInertia (self : AtomicGroup) : Op (list GCoord) :=
  I <- reads (inertiaMatrix self) ;;
  let out := dsyev_ "V" "U" 3 I 3 in
  let info := syev_info out in
  if (info <? 0)%Z then
    throw (NumericalError "dsyev_ reported an argument error." info)
  else if (info >? 0)%Z then
    throw (NumericalError "dsyev_ failed to converge." info)
  else
    let I := buffer 9 (syev_A out) in
    let W := buffer 3 (syev_W out) in
    let results := repeat czero 4 in
    let results := fold_left (fun results i =>
                     set results (2 - i)
                         (mkCoord I.[cm3 0 i] I.[cm3 1 i] I.[cm3 2 i]))
                   (seq 0 3) results in
    let c := mkCoord W.[2] W.[1] W.[0] in
    n <- reads (fun _ => size self) ;;
    let c := cdiv c (INR n) in
    let results := set results 3 c in
    ret results.

(** The array principalAxes hands to the eigensolver: the coordinates minus
    their mean, multiplied A * A'. *)
Definition scatterMatrix (self : AtomicGroup) (st : Store) : arr :=
  let n := size self in
  let A := coordsAsArray self st in
  let '(M, _) := fold_left (fun '(M, k) _ =>
                   let M := set M 0 (M.[0] + A.[k]) in
                   let M := set M 1 (M.[1] + A.[k + 1]) in
                   let M := set M 2 (M.[2] + A.[k + 2]) in
                   (M, (k + 3)%nat)) (seq 0 n) ([0; 0; 0], 0%nat) in
  let M := set M 0 (M.[0] / INR n) in
  let M := set M 1 (M.[1] / INR n) in
  let M := set M 2 (M.[2] / INR n) in
  let '(A, _) := fold_left (fun '(A, k) _ =>
                   let A := set A k (A.[k] - M.[0]) in
                   let A := set A (k + 1) (A.[k + 1] - M.[1]) in
                   let A := set A (k + 2) (A.[k + 2] - M.[2]) in
                   (A, (k + 3)%nat)) (seq 0 n) (A, 0%nat) in
  dgemm_ FlagN FlagT 3 3 n 1 A 3 A 3.

Definition principalAxes (self : AtomicGroup) : Op (list GCoord) :=
  C <- reads (scatterMatrix self) ;;
  let out := dsyev_ "V" "U" 3 C 3 in
  let info := syev_info out in
  if (info <? 0)%Z then
    throw (NumericalError "dsyev_ reported an argument error." info)
  else if (info >? 0)%Z then
    throw (NumericalError "dsyev_ failed to converge." info)
  else
    let C := buffer 9 (syev_A out) in
    let W := buffer 3 (syev_W out) in
    let results := repeat czero 4 in
    let '(results, _) := fold_left (fun '(results, k) i =>
                           let c := mkCoord C.[k] C.[k + 1] C.[k + 2] in
                           (set results (2 - i) c, (k + 3)%nat))
                         (seq 0 3) (results, 0%nat) in
    let c := mkCoord W.[2] W.[1] W.[0] in
    n <- reads (fun _ => size self) ;;
    let c := cdiv c (INR n) in
    let results := set results 3 c in
    ret results.

(** [double det = R[0]*R[4]*R[8] + R[3]*R[7]*R[2] + R[6]*R[1]*R[5] -
    R[0]*R[7]*R[5] - R[3]*R[1]*R[8] - R[6]*R[4]*R[2]]: the cofactor
    expansion as the machine evaluates it, on the entries as doubles, each
    product, sum and difference rounded, from left to right. *)
Definition det (Rm : arr) : double :=
  let r i := R2D Rm.[i] in
  dsub (dsub (dsub (dadd (dadd (dmul (dmul (r 0%nat) (r 4%nat)) (r 8%nat))
                               (dmul (dmul (r 3%nat) (r 7%nat)) (r 2%nat)))
                         (dmul (dmul (r 6%nat) (r 1%nat)) (r 5%nat)))
                   (dmul (dmul (r 0%nat) (r 7%nat)) (r 5%nat)))
             (dmul (dmul (r 3%nat) (r 1%nat)) (r 8%nat)))
       (dmul (dmul (r 6%nat) (r 4%nat)) (r 2%nat)).

(** "Adjust U (if necessary)": [if (det < 0.0)]. *)
Definition adjustU (det : double) (U : arr) : arr :=
  if dlt det dzero then
    let U := set U 6 (- U.[6]) in
    let U := set U 7 (- U.[7]) in
    let U := set U 8 (- U.[8]) in
    U
  else U.

(** [GMatrix Z; for i, j: Z(i,j) = M[i*3+j]]; a default-constructed GMatrix
    is the identity (only the 3x3 block is assigned, the rest of Z is used
    as it is). *)
Definition rotationOf (M : arr) : GMatrix :=
  fold_left (fun Z i =>
    fold_left (fun Z j => mset Z i j M.[i * 3 + j]) (seq 0 3) Z)
    (seq 0 3) gidentity.

Definition superposition (self grp : AtomicGroup) : Op GMatrix :=
  let W := xform_new in
  let n := size self in
  xc <- reads (centroid self) ;;
  let W := xtranslate W (cneg xc) in
  X <- reads (transformedCoordsAsArray self W) ;;
  yc <- reads (centroid grp) ;;
  let W := xidentity W in
  let W := xtranslate W (cneg yc) in
  Y <- reads (transformedCoordsAsArray grp W) ;;
  let Rm := dgemm_ FlagN FlagT 3 3 n 1 X 3 Y 3 in
  let det := det Rm in
  let out := dgesvd_ "A" "A" 3 3 Rm 3 3 3 in
  let info := svd_info out in
  if negb (info =? 0)%Z then
    throw (NumericalError "SVD in AtomicGroup::superposition returned an error" info)
  else
    let U := buffer 9 (svd_U out) in
    let Vt := buffer 9 (svd_Vt out) in
    let U := adjustU det U in
    let M := dgemm_ FlagN FlagN 3 3 3 1 U 3 Vt 3 in
    let Z := rotationOf M in
    let W := xidentity W in
    let W := xtranslate W yc in
    let W := xconcat W Z in
    let W := xtranslate W (cneg xc) in
    ret (current W).

Definition alignOnto (self grp : AtomicGroup) : Op GMatrix :=
  let W := xform_new in
  M <- superposition self grp ;;
  let W := xload W M in
  modify (applyTransform self W) ;;;
  ret M.

End Linalg.

(* ================================================================= *)
(** ** Vocabulary of the statements *)

(** 3x3 column-major arrays as matrices.  [det3] is the determinant of the
    matrix, over the reals; the number the code computes for it in doubles
    is [det]. *)
Definition I3 : arr := [1; 0; 0; 0; 1; 0; 0; 0; 1].
Definition det3 (Rm : arr) : R :=
  Rm.[0] * Rm.[4] * Rm.[8] + Rm.[3] * Rm.[7] * Rm.[2] + Rm.[6] * Rm.[1] * Rm.[5]
  - Rm.[0] * Rm.[7] * Rm.[5] - Rm.[3] * Rm.[1] * Rm.[8] - Rm.[6] * Rm.[4] * Rm.[2].
Definition mul3 (A B : arr) : arr := dgemm_ FlagN FlagN 3 3 3 1 A 3 B 3.
Definition tr3 (A : arr) : arr :=
  [A.[0]; A.[3]; A.[6]; A.[1]; A.[4]; A.[7]; A.[2]; A.[5]; A.[8]].
Definition diag3 (S : arr) : arr := [S.[0]; 0; 0; 0; S.[1]; 0; 0; 0; S.[2]].
Definition orthogonal3 (A : arr) : Prop :=
  mul3 (tr3 A) A = I3 /\ mul3 A (tr3 A) = I3.

(** [A * v] and [u . v] for a 3x3 column-major array and 3-vectors. *)
Definition mulv3 (A : arr) (v : GCoord) : GCoord :=
  mkCoord (A.[0] * cx v + A.[3] * cy v + A.[6] * cz v)
          (A.[1] * cx v + A.[4] * cy v + A.[7] * cz v)
          (A.[2] * cx v + A.[5] * cy v + A.[8] * cz v).
Definition cscale (k : R) (v : GCoord) : GCoord := mkCoord (k * cx v) (k * cy v) (k * cz v).
Definition column3 (A : arr) (i : nat) : GCoord :=
  mkCoord A.[cm3 0 i] A.[cm3 1 i] A.[cm3 2 i].

Definition cdot (u v : GCoord) : R := cx u * cx v + cy u * cy v + cz u * cz v.

(** The LAPACK contract of [dgesvd_] with jobu = jobvt = 'A' on a 3x3
    matrix, when it reports success: A = U * diag(S) * Vt with U and Vt
    orthogonal and the singular values non-negative, in descending order. *)
Definition svd_of (A : arr) (out : dgesvd_out) : Prop :=
  orthogonal3 (svd_U out) /\ orthogonal3 (svd_Vt out) /\
  0 <= (svd_S out).[2] <= (svd_S out).[1] /\ (svd_S out).[1] <= (svd_S out).[0] /\
  mul3 (svd_U out) (mul3 (diag3 (svd_S out)) (svd_Vt out)) = buffer 9 A.

(** The LAPACK contract of [dsyev_] with jobz = 'V' on a 3x3 matrix, when it
    reports success: the eigenvalues in W in ascending order, and the columns
    of A orthonormal, column i an eigenvector of the input for W[i]. *)
Definition eigen_of (A : arr) (out : dsyev_out) : Prop :=
  (syev_W out).[0] <= (syev_W out).[1] <= (syev_W out).[2] /\
  orthogonal3 (syev_A out) /\
  forall i, (i < 3)%nat ->
    mulv3 A (column3 (syev_A out) i) = cscale (syev_W out).[i] (column3 (syev_A out) i).

(** The upper-left 3x3 block of a transform, as a column-major array, and its
    translation column. *)
Definition rotationPart (W : GMatrix) : arr :=
  [mget W 0 0; mget W 1 0; mget W 2 0;
   mget W 0 1; mget W 1 1; mget W 2 1;
   mget W 0 2; mget W 1 2; mget W 2 2].
Definition translationPart (W : GMatrix) : GCoord :=
  mkCoord (mget W 0 3) (mget W 1 3) (mget W 2 3).

(** A 3x3 column-major array as the rotation block of a 4x4 transform. *)
Definition embed3 (A : arr) : GMatrix :=
  [A.[0]; A.[3]; A.[6]; 0;
   A.[1]; A.[4]; A.[7]; 0;
   A.[2]; A.[5]; A.[8]; 0;
   0; 0; 0; 1].

(** The centred coordinate array of a group, and the cross-covariance matrix
    superposition hands to the SVD. *)
Definition centredCoords (g : AtomicGroup) (st : Store) : arr :=
  transformedCoordsAsArray g (xtranslate xform_new (cneg (centroid g st))) st.
Definition correlationMatrix (self grp : AtomicGroup) (st : Store) : arr :=
  dgemm_ FlagN FlagT 3 3 (size self) 1 (centredCoords self st) 3 (centredCoords grp st) 3.

(** Section 4.3, steps 5 to 7, in the spec's words: the third column of U
    negated when det(R) < 0, M = U * Vt, and the transform "identity, translate
    by reference's centroid, concatenate rotation M, translate by negative
    moving centroid". *)
Definition rotation_spec (det : double) (out : dgesvd_out) : arr :=
  mul3 (adjustU det (buffer 9 (svd_U out))) (svd_Vt out).
Definition compose_spec (yc : GCoord) (M : arr) (xc : GCoord) : GMatrix :=
  current (xtranslate (xconcat (xtranslate (xidentity xform_new) yc) (embed3 M)) (cneg xc)).

(** The inertia tensor in the spec's words (section 4.1): the contribution
    of one member at position u relative to the centre of mass, with mass m,
    and the sum over the members. *)
Definition inertiaTerm (m : R) (u : GCoord) : arr :=
  [m * (cy u * cy u + cz u * cz u); - m * cx u * cy u; - m * cx u * cz u;
   - m * cx u * cy u; m * (cx u * cx u + cz u * cz u); - m * cy u * cz u;
   - m * cx u * cz u; - m * cy u * cz u; m * (cx u * cx u + cy u * cy u)].
Fixpoint inertiaSum (c : GCoord) (ms : list (R * GCoord)) : arr :=
  match ms with
  | [] => repeat 0 9
  | (m, x) :: rest =>
      map (fun i => (inertiaTerm m (csub x c)).[i] + (inertiaSum c rest).[i]) (seq 0 9)
  end.
Definition members (g : AtomicGroup) (st : Store) : list (R * GCoord) :=
  map (fun p => (mass (st p), coords (st p))) (atoms g).

(** Modelled from the spec: AtomicGroup::rmsd (AtomicGroup.cpp is not among
    the sources), section 4.5: "for two same-cardinality point sets with
    positional correspondence, RMSD = sqrt( (1/N) * sum |p_i - q_i|^2 )". *)
Definition dist2 (p q : GCoord) : R := cdot (csub p q) (csub p q).
Definition rmsdCoords (ps qs : list GCoord) : R :=
  sqrt (1 / INR (List.length ps)
        * fold_left Rplus (map (fun pq => dist2 (fst pq) (snd pq)) (combine ps qs)) 0).
Definition rmsd (a b : AtomicGroup) (st : Store) : R :=
  rmsdCoords (coordsOf st a) (coordsOf st b).

(** Modelled from the spec: the average structure of an ensemble (section
    4.5, step 2b; averageStructure is only called in avgconv.cpp), "for each
    index across all aligned members, average the coordinates at that
    index". *)
Definition averageCoords (ensemble : list AtomicGroup) (st : Store) : list GCoord :=
  match ensemble with
  | [] => []
  | first :: _ =>
      map (fun i =>
             cdiv (fold_left cadd (map (fun g => nth i (coordsOf st g) czero) ensemble) czero)
                  (INR (List.length ensemble)))
          (seq 0 (size first))
  end.

(** The coordinates [cs] written into the atoms of [g], in order. *)
Definition setAllCoords (g : AtomicGroup) (cs : list GCoord) (st : Store) : Store :=
  fold_left (fun s pc => set_coords s (fst pc) (snd pc)) (combine (atoms g) cs) st.

(** A group of [n] atoms at addresses no member of the ensemble uses: the
    storage of the reference structure. *)
Definition freshGroup (ensemble : list AtomicGroup) (n : nat) : AtomicGroup :=
  mkGroup (seq (S (list_max (flat_map atoms ensemble))) n) None.

Section IterativeAlignment.

Variable dgesvd_ : Ascii.ascii -> Ascii.ascii -> nat -> nat -> arr -> nat ->
                   nat -> nat -> dgesvd_out.

(** Step 2a: "for every member in the ensemble, compute
    alignOnto(member, currentReference), mutating that member's coordinates
    and recording the transform used". *)
Fixpoint alignAll (ensemble : list AtomicGroup) (reference : AtomicGroup)
  : Op (list GMatrix) :=
  match ensemble with
  | [] => ret []
  | member :: rest =>
      M <- alignOnto dgesvd_ member reference ;;
      Ms <- alignAll rest reference ;;
      ret (M :: Ms)
  end.

(** Steps 2a to 2e, "for up to a fixed maximum number of iterations":
    [remaining] iterations are left, [done] were performed. *)
Fixpoint iterateAlignment (remaining done : nat) (ensemble : list AtomicGroup)
         (reference : AtomicGroup) (threshold : R) : Op (list GMatrix * R * nat) :=
  match remaining with
  | O => ret ([], 0, done)
  | S remaining' =>
      xforms <- alignAll ensemble reference ;;
      newReference <- reads (averageCoords ensemble) ;;
      rms <- reads (fun st => rmsdCoords newReference (coordsOf st reference)) ;;
      modify (setAllCoords reference newReference) ;;;
      if Rlt_dec rms threshold then ret (xforms, rms, S done)
      else match remaining' with
           | O => ret (xforms, rms, S done)
           | S _ => iterateAlignment remaining' (S done) ensemble reference threshold
           end
  end.

(** Modelled from the spec: iterativeAlignment (section 4.5; only its call
    is in avgconv.cpp).  The first member is the initial reference, copied
    into storage of its own; the convergence threshold and the iteration
    cap, which the spec leaves open, are arguments.  Returns "the list of
    per-frame transforms from the final iteration, the final convergence
    RMSD, and the number of iterations performed". *)
Definition iterativeAlignment (ensemble : list AtomicGroup) (threshold : R)
           (maxiter : nat) : Op (list GMatrix * R * nat) :=
  match ensemble with
  | [] => ret ([], 0, 0%nat)
  | first :: _ =>
      let reference := freshGroup ensemble (size first) in
      cs <- reads (fun st => coordsOf st first) ;;
      modify (setAllCoords reference cs) ;;;
      iterateAlignment maxiter 0 ensemble reference threshold
  end.

End IterativeAlignment.

(** The centroid of a list of coordinates, and the cross-covariance matrix
    of two coordinate lists, each centred on its mean. *)
Definition centroidOf (cs : list GCoord) : GCoord :=
  cdiv (fold_left cadd cs czero) (INR (List.length cs)).
Definition centredArray (cs : list GCoord) : arr :=
  let c := cdiv (fold_left cadd cs czero) (INR (List.length cs)) in
  flat_map (fun p => [cx p - cx c; cy p - cy c; cz p - cz c]) cs.
Definition correlationOf (xs ys : list GCoord) : arr :=
  dgemm_ FlagN FlagT 3 3 (List.length xs) 1 (centredArray xs) 3 (centredArray ys) 3.

(** Section 4.2 in the spec's words, for the matrix [A] that was
    decomposed, the answer [out] of the solver and a group of [n] points:
    "eigenvalues ascending as produced by the underlying solver are
    re-ordered to descending", "eigenvectors are returned as unit column
    vectors paired with their eigenvalue", "3 ordered eigenvector/axis results
    (largest-to-smallest) plus a 4th synthetic entry holding the 3 eigenvalues
    packed as a single point (largest first)", the packed eigenvalues divided
    "by the number of points". *)
Definition eigen_pair (A : arr) (e : R) (v : GCoord) : Prop :=
  mulv3 A v = cscale e v /\ cdot v v = 1.
Definition ordered_eigen_results (A : arr) (n : nat) (out : dsyev_out)
           (results : list GCoord) : Prop :=
  let v i := column3 (syev_A out) i in
  let e i := (syev_W out).[i] in
  results = [v 2%nat; v 1%nat; v 0%nat;
             cdiv (mkCoord (e 2%nat) (e 1%nat) (e 0%nat)) (INR n)] /\
  e 2%nat >= e 1%nat /\ e 1%nat >= e 0%nat /\
  eigen_pair A (e 2%nat) (v 2%nat) /\
  eigen_pair A (e 1%nat) (v 1%nat) /\
  eigen_pair A (e 0%nat) (v 0%nat).

(** What momentsOfInertia and principalAxes do with the answer of the
    eigensolver, for a group of [n] atoms. *)
Definition eigen_tail (n : nat) (out : dsyev_out) : result (list GCoord) :=
  if (syev_info out <? 0)%Z then
    Throw (NumericalError "dsyev_ reported an argument error." (syev_info out))
  else if (syev_info out >? 0)%Z then
    Throw (NumericalError "dsyev_ failed to converge." (syev_info out))
  else
    Ok [column3 (syev_A out) 2; column3 (syev_A out) 1; column3 (syev_A out) 0;
        cdiv (mkCoord (syev_W out).[2] (syev_W out).[1] (syev_W out).[0]) (INR n)].

(** A call whose solver reported [info] either returned (and then info is 0)
    or threw a NumericalError carrying info (and then info is not 0). *)
Definition raises_iff_nonzero {A : Type} (info : Z) (r : result A) : Prop :=
  match r with
  | Ok _ => info = 0%Z
  | Throw e => info <> 0%Z /\ exists msg, e = NumericalError msg info
  end.

(** The third column of a 3x3 column-major array negated. *)
Definition negate_col3 (U : arr) : arr :=
  [U.[0]; U.[1]; U.[2]; U.[3]; U.[4]; U.[5]; - U.[6]; - U.[7]; - U.[8]].

Definition svd_message : string :=
  "SVD in AtomicGroup::superposition returned an error".

(** *** Sample inputs *)

Module Examples.

(** Four points (atoms 0-3); the same four turned by 90 degrees about z
    and moved by (1,2,3) (atoms 4-7); their mirror image in the plane z = 0
    (atoms 8-11); a copy of them (atoms 12-15). *)
Definition st0 : Store := fun p =>
  match p with
  | 0%nat => mkAtom (mkCoord 3 2 1) 1
  | 1%nat => mkAtom (mkCoord 3 (-2) (-1)) 1
  | 2%nat => mkAtom (mkCoord (-3) 2 (-1)) 1
  | 3%nat => mkAtom (mkCoord (-3) (-2) 1) 1
  | 4%nat => mkAtom (mkCoord (-1) 5 4) 1
  | 5%nat => mkAtom (mkCoord 3 5 2) 1
  | 6%nat => mkAtom (mkCoord (-1) (-1) 2) 1
  | 7%nat => mkAtom (mkCoord 3 (-1) 4) 1
  | 8%nat => mkAtom (mkCoord 3 2 (-1)) 1
  | 9%nat => mkAtom (mkCoord 3 (-2) 1) 1
  | 10%nat => mkAtom (mkCoord (-3) 2 1) 1
  | 11%nat => mkAtom (mkCoord (-3) (-2) (-1)) 1
  | 12%nat => mkAtom (mkCoord 3 2 1) 1
  | 13%nat => mkAtom (mkCoord 3 (-2) (-1)) 1
  | 14%nat => mkAtom (mkCoord (-3) 2 (-1)) 1
  | _ => mkAtom (mkCoord (-3) (-2) 1) 1
  end.
Definition moving : AtomicGroup := mkGroup [0; 1; 2; 3]%nat None.
Definition rotated : AtomicGroup := mkGroup [4; 5; 6; 7]%nat None.
Definition mirrored : AtomicGroup := mkGroup [8; 9; 10; 11]%nat None.
Definition copied : AtomicGroup := mkGroup [12; 13; 14; 15]%nat None.

(** Singular value decompositions of the cross-covariance of [moving] and
    [rotated], of [moving] and [mirrored], of [moving] and [copied]. *)
Definition svd_rotated (jobu jobvt : ascii) (m n : nat) (A : arr)
           (lda ldu ldvt : nat) : dgesvd_out :=
  mkSvd [36; 16; 4] [1; 0; 0; 0; 1; 0; 0; 0; 1] [0; -1; 0; 1; 0; 0; 0; 0; 1] 0.

(** An eigensolver for the two matrices [moving] gives rise to: its
    inertia tensor diag(20,40,52) and its scatter matrix diag(36,16,4). *)
Definition dsyev_moving (jobz uplo : ascii) (n : nat) (A : arr) (lda : nat)
  : dsyev_out :=
  if Req_EM_T A.[0] 20
  then mkSyev [1; 0; 0; 0; 1; 0; 0; 0; 1] [20; 40; 52] 0
  else mkSyev [0; 0; 1; 0; 1; 0; 1; 0; 0] [4; 16; 36] 0.

(** Two atoms on a line (atoms 0-1). *)
Definition st1 : Store := fun p =>
  match p with
  | 0%nat | 2%nat => mkAtom (mkCoord 0 0 0) 1
  | _ => mkAtom (mkCoord 2 0 0) 1
  end.
Definition pair : AtomicGroup := mkGroup [0; 1]%nat None.
(** A group of no atom. *)
Definition nobody : AtomicGroup := mkGroup [] None.

(** Eight atoms: one unit step either way along each axis (atoms 0-5) and
    two atoms far out on the diagonal, at (9019, 9019, 9019) and opposite
    (atoms 6-7); a copy of the eight (atoms 8-15).  Every coordinate, every
    sum and product on the way to the cross-covariance matrix is an integer
    below 2^53: the doubles of the program hold them exactly. *)
Definition st2 : Store := fun p =>
  match p with
  | 0%nat | 8%nat => mkAtom (mkCoord 1 0 0) 1
  | 1%nat | 9%nat => mkAtom (mkCoord (-1) 0 0) 1
  | 2%nat | 10%nat => mkAtom (mkCoord 0 1 0) 1
  | 3%nat | 11%nat => mkAtom (mkCoord 0 (-1) 0) 1
  | 4%nat | 12%nat => mkAtom (mkCoord 0 0 1) 1
  | 5%nat | 13%nat => mkAtom (mkCoord 0 0 (-1)) 1
  | 6%nat | 14%nat => mkAtom (mkCoord 9019 9019 9019) 1
  | _ => mkAtom (mkCoord (-9019) (-9019) (-9019)) 1
  end.
Definition wide : AtomicGroup := mkGroup [0; 1; 2; 3; 4; 5; 6; 7]%nat None.
Definition wide_copy : AtomicGroup := mkGroup [8; 9; 10; 11; 12; 13; 14; 15]%nat None.

(** A singular value decomposition of the cross-covariance of [wide] and
    [wide_copy], the matrix with 162684724 on the diagonal and 162684722
    elsewhere: singular values 488054168, 2, 2, and U = V with the columns
    (1,1,1)/sqrt 3, (1,-1,0)/sqrt 2, (1,1,-2)/sqrt 6. *)
Definition svd_wide (jobu jobvt : ascii) (m n : nat) (A : arr)
           (lda ldu ldvt : nat) : dgesvd_out :=
  let a := sqrt 3 / 3 in
  let b := sqrt 2 / 2 in
  let c := sqrt 6 / 6 in
  mkSvd [488054168; 2; 2]
        [a; a; a; b; - b; 0; c; c; - (2 * c)]
        [a; b; c; a; - b; c; a; 0; - (2 * c)] 0.

End Examples.

(* ================================================================= *)
(** ** dcdwriter.cpp *)

Module DCD.

Local Open Scope Z_scope.

(** The output stream: its bytes, the put position, the fail bit, and the
    calls made on it, oldest first. *)
Inductive streamOp : Type :=
| OpWrite (bytes : list Byte.byte)
| OpSeekBegin (off : nat)
| OpSeekEnd
| OpFlush.

Record Stream : Type :=
  mkStream { data : list Byte.byte; pos : nat; failbit : bool; calls : list streamOp }.

Definition logged (s : Stream) (op : streamOp) : Stream :=
  mkStream (data s) (pos s) (failbit s) (calls s ++ [op]).

(** [write(p, n)]: the bytes go in at the put position, over what is there
    and beyond the end; nothing happens on a failed stream. *)
Definition stream_write (s : Stream) (bytes : list Byte.byte) : Stream :=
  let s := logged s (OpWrite bytes) in
  if failbit s then s
  else mkStream (firstn (pos s) (data s) ++ bytes
                   ++ skipn (pos s + List.length bytes) (data s))
                (pos s + List.length bytes) false (calls s).

(** [seekp(off)] *)
Definition seekp (s : Stream) (off : nat) : Stream :=
  let s := logged s (OpSeekBegin off) in
  if failbit s then s else mkStream (data s) off false (calls s).

(** [seekp(0, std::ios_base::end)] *)
Definition seekp_end (s : Stream) : Stream :=
  let s := logged s OpSeekEnd in
  if failbit s then s else mkStream (data s) (List.length (data s)) false (calls s).

Definition flush (s : Stream) : Stream := logged s OpFlush.

(** [unsigned int] arithmetic *)
Definition uint (z : Z) : Z := z mod 2 ^ 32.

Definition byte_of_Z (z : Z) : Byte.byte :=
  match Byte.of_N (Z.to_N (z mod 256)) with
  | Some b => b
  | None => Byte.x00
  end.

(** The four bytes of an [unsigned int], least significant first. *)
Definition uint_bytes (z : Z) : list Byte.byte :=
  map (fun i => byte_of_Z (uint z / 256 ^ i)) [0; 1; 2; 3].

(** [std::string(i, ' ')] *)
Fixpoint spaces (i : nat) : string :=
  match i with O => EmptyString | S i' => String " " (spaces i') end.

Definition fixStringSize (s : string) (n : nat) : string :=
  if (String.length s <? n)%nat then
    let i := (n - String.length s)%nat in
    (s ++ spaces i)%string
  else if (n <? String.length s)%nat then
    substring 0 n s
  else s.

Record DCDWriter : Type :=
  mkWriter { _natoms : Z; _nsteps : Z; _timestep : R; _current : Z;
             _has_box : bool; _ofs : Stream; _titles : list string }.

Definition with_ofs (w : DCDWriter) (s : Stream) : DCDWriter :=
  mkWriter (_natoms w) (_nsteps w) (_timestep w) (_current w) (_has_box w) s (_titles w).
Definition with_nsteps (w : DCDWriter) (n : Z) : DCDWriter :=
  mkWriter (_natoms w) n (_timestep w) (_current w) (_has_box w) (_ofs w) (_titles w).
Definition with_current (w : DCDWriter) (n : Z) : DCDWriter :=
  mkWriter (_natoms w) (_nsteps w) (_timestep w) n (_has_box w) (_ofs w) (_titles w).
Definition with_frame_shape (w : DCDWriter) (n : Z) (b : bool) : DCDWriter :=
  mkWriter n (_nsteps w) (_timestep w) (_current w) b (_ofs w) (_titles w).

Definition framesWritten (w : DCDWriter) : Z := _current w.

Definition default_unit_cell_angle : R := 90%R.

Section Encodings.

(** The object representation of a [float] holding the value (the double
    is converted on assignment) and of a [double]. *)
Variable float_bytes : R -> list Byte.byte.
Variable double_bytes : R -> list Byte.byte.

Definition writeF77Line (ofs : Stream) (bytes : list Byte.byte) (len : Z) : Stream :=
  let d := uint_bytes len in
  let ofs := stream_write ofs d in
  let ofs := stream_write ofs (firstn (Z.to_nat len) bytes) in
  let ofs := stream_write ofs d in
  ofs.

Definition writeHeader (w : DCDWriter) : DCDWriter :=
  let icntrl := repeat (uint_bytes 0) 21 in
  let icntrl := set icntrl 1 (uint_bytes (_nsteps w)) in
  let icntrl := set icntrl 2 (uint_bytes 1) in
  let icntrl := set icntrl 3 (uint_bytes 1) in
  let icntrl := set icntrl 4 (uint_bytes (_nsteps w)) in
  let icntrl := set icntrl 8 (uint_bytes (uint (_natoms w * 3 - 6))) in
  let icntrl := set icntrl 9 (uint_bytes 0) in
  let icntrl := set icntrl 10 (float_bytes (_timestep w)) in
  let icntrl := set icntrl 11 (uint_bytes (if _has_box w then 1 else 0)) in
  let icntrl := set icntrl 20 (uint_bytes 27) in
  let icntrl := set icntrl 0 (list_byte_of_string "CORD") in
  let ofs := writeF77Line (_ofs w) (concat icntrl) (21 * 4) in
  let size := uint (4 + 80 * Z.of_nat (List.length (_titles w))) in
  let ptr := uint_bytes (Z.of_nat (List.length (_titles w)))
             ++ flat_map (fun t => list_byte_of_string (fixStringSize t 80)) (_titles w) in
  let ofs := writeF77Line ofs ptr size in
  let ofs := writeF77Line ofs (uint_bytes (_natoms w)) (1 * 4) in
  with_ofs w ofs.

Definition writeBox (w : DCDWriter) (b : GCoord) : DCDWriter :=
  let xtal := [cx b; default_unit_cell_angle; cy b;
               default_unit_cell_angle; default_unit_cell_angle; cz b] in
  with_ofs w (writeF77Line (_ofs w) (flat_map double_bytes xtal) (6 * 8)).

(** One coordinate record: [data[i] = grp[i]->coords().x()] for
    i < _natoms, then the line. *)
Definition writeCoordLine (w : DCDWriter) (grp : AtomicGroup) (st : Store)
           (comp : GCoord -> R) : DCDWriter :=
  let values := map (fun i => comp (coords (st (nth i (atoms grp) 0%nat))))
                    (seq 0 (Z.to_nat (_natoms w))) in
  with_ofs w (writeF77Line (_ofs w) (flat_map float_bytes values)
                           (uint (_natoms w * 4))).

Definition writeFrame (w : DCDWriter) (grp : AtomicGroup) (st : Store)
  : result unit * DCDWriter :=
  let checked :=
    if _natoms w =? 0 then
      Ok (with_frame_shape w (Z.of_nat (size grp)) (isPeriodic grp))
    else if negb (Z.of_nat (size grp) =? _natoms w) then
      Throw (RuntimeError "Frame group atom count mismatch")
    else if _has_box w && negb (isPeriodic grp) then
      Throw (RuntimeError
        "Periodic box data was requested for the DCD but the passed frame is missing it")
    else Ok w in
  match checked with
  | Throw e => (Throw e, w)
  | Ok w =>
    let extended :=
      if _nsteps w <=? _current w then
        let w := with_ofs w (seekp (_ofs w) 0) in
        let w := with_nsteps w (uint (_nsteps w + 1)) in
        let w := writeHeader w in
        let w := with_ofs w (seekp_end (_ofs w)) in
        if failbit (_ofs w) then
          (Throw (RuntimeError "Error while re-writing DCD header"), w)
        else (Ok tt, w)
      else (Ok tt, w) in
    match extended with
    | (Throw e, w) => (Throw e, w)
    | (Ok _, w) =>
      let w := if _has_box w then writeBox w (periodicBox grp) else w in
      let w := writeCoordLine w grp st cx in
      let w := writeCoordLine w grp st cy in
      let w := writeCoordLine w grp st cz in
      let w := with_ofs w (flush (_ofs w)) in
      let w := with_current w (uint (_current w + 1)) in
      (Ok tt, w)
    end
  end.

(** The steps of writeFrame, named: the test that throws, the shape
    taken from a first frame, the header rewrite, the records of one
    frame. *)
Definition frameRejected (w : DCDWriter) (grp : AtomicGroup) : bool :=
  negb (_natoms w =? 0)
  && (negb (Z.of_nat (size grp) =? _natoms w) || (_has_box w && negb (isPeriodic grp))).

Definition established (w : DCDWriter) (grp : AtomicGroup) : DCDWriter :=
  if _natoms w =? 0
  then with_frame_shape w (Z.of_nat (size grp)) (isPeriodic grp)
  else w.

Definition rewriteHeader (w : DCDWriter) : DCDWriter :=
  let w := with_ofs w (seekp (_ofs w) 0) in
  let w := with_nsteps w (uint (_nsteps w + 1)) in
  let w := writeHeader w in
  with_ofs w (seekp_end (_ofs w)).

Definition appendRecords (w : DCDWriter) (grp : AtomicGroup) (st : Store) : DCDWriter :=
  let w := if _has_box w then writeBox w (periodicBox grp) else w in
  let w := writeCoordLine w grp st cx in
  let w := writeCoordLine w grp st cy in
  let w := writeCoordLine w grp st cz in
  let w := with_ofs w (flush (_ofs w)) in
  with_current w (uint (_current w + 1)).

End Encodings.

(** [s'] is [s] after the calls [ops]: the fail bit as it was, the calls
    appended to the log. *)
Definition extends (s s' : Stream) (ops : list streamOp) : Prop :=
  failbit s' = failbit s /\ calls s' = calls s ++ ops.

(** *** Sample writers *)

(** [DCDWriter(std::iostream& fs)] on an empty stream. *)
Definition fresh_writer : DCDWriter :=
  mkWriter 0 0 (1 / 1000)%R 0 false (mkStream [] 0 false [])
           ["AUTO GENERATED BY LOOS"%string].

(** A writer that has its frame shape: 4 atoms, no box. *)
Definition shaped_writer : DCDWriter := with_frame_shape fresh_writer 4 false.

(** A stand-in for the encodings of float and double in the samples. *)
Definition zero_bytes (n : nat) (x : R) : list Byte.byte := repeat Byte.x00 n.

End DCD.

(* ================================================================= *)
(** ** More of dcdwriter.cpp: the bytes on the stream *)

Module DCDLayout.

Import DCD.
Local Open Scope Z_scope.

(** [d] with [b] put in at offset [p]. *)
Definition overwrite (d : list Byte.byte) (p : nat) (b : list Byte.byte) : list Byte.byte :=
  firstn p d ++ b ++ skipn (p + List.length b) d.

(** The bytes of one record: [writeF77Line] frames [len] bytes of data
    with their length, before and after. *)
Definition f77Line (bytes : list Byte.byte) (len : Z) : list Byte.byte :=
  uint_bytes len ++ firstn (Z.to_nat len) bytes ++ uint_bytes len.

(** The stream [s'] is the good stream [s] after putting the bytes [b] at
    its put position. *)
Definition puts (s s' : Stream) (b : list Byte.byte) : Prop :=
  failbit s = false -> (pos s <= List.length (data s))%nat ->
  failbit s' = false /\
  pos s' = (pos s + List.length b)%nat /\
  data s' = overwrite (data s) (pos s) b.

(** An empty stream in good state. *)
Definition empty_stream : Stream := mkStream [] 0 false [].

Section Encodings.

Variable float_bytes : R -> list Byte.byte.
Variable double_bytes : R -> list Byte.byte.

(** The bytes writeHeader puts out, and the bytes one frame takes: what
    the writer leaves on an empty stream. *)
Definition headerBytes (w : DCDWriter) : list Byte.byte :=
  data (_ofs (writeHeader float_bytes (with_ofs w empty_stream))).

Definition frameBytes (w : DCDWriter) (grp : AtomicGroup) (st : Store) : list Byte.byte :=
  data (_ofs (appendRecords float_bytes double_bytes (with_ofs w empty_stream) grp st)).

(** [writeFrame(const std::vector<AtomicGroup>& grps)]: the frames in
    order; an exception leaves the loop. *)
Fixpoint writeFrames (w : DCDWriter) (grps : list AtomicGroup) (st : Store)
  : result unit * DCDWriter :=
  match grps with
  | [] => (Ok tt, w)
  | g :: rest =>
      match writeFrame float_bytes double_bytes w g st with
      | (Ok _, w') => writeFrames w' rest st
      | (Throw e, w') => (Throw e, w')
      end
  end.

(** The stream constructor followed by the calls of the vector
    constructors: [_natoms(grps[0].size()), _nsteps(grps.size()),
    _timestep(1e-3), _current(0), _has_box(grps[0].isPeriodic())], then
    [writeHeader(); writeFrame(grps)], on the stream [s] with the titles
    [titles]. *)
Definition writeAll (s : Stream) (titles : list string) (grps : list AtomicGroup)
           (st : Store) : result unit * DCDWriter :=
  let first := nth 0 grps (mkGroup [] None) in
  let w := mkWriter (Z.of_nat (size first)) (Z.of_nat (List.length grps)) (1 / 1000)%R 0
                    (isPeriodic first) s titles in
  let w := writeHeader float_bytes w in
  writeFrames w grps st.

(** The records of one frame: the unit cell, "three box lengths
    interleaved with three fixed 90 degree angle placeholders", and one
    coordinate component of the first [_natoms] atoms. *)
Definition boxRecord (b : GCoord) : list Byte.byte :=
  f77Line (flat_map double_bytes
             [cx b; default_unit_cell_angle; cy b;
              default_unit_cell_angle; default_unit_cell_angle; cz b]) 48.
Definition coordRecord (w : DCDWriter) (grp : AtomicGroup) (st : Store)
           (comp : GCoord -> R) : list Byte.byte :=
  f77Line (flat_map float_bytes
             (map (fun i => comp (coords (st (nth i (atoms grp) 0%nat))))
                  (seq 0 (Z.to_nat (_natoms w)))))
          (uint (_natoms w * 4)).

(** The writer is in step with its stream: the stream is good and at its
    end, it holds a header and then the frames, one for each frame
    counted, and the frame count of the writer covers them. *)
Definition inStep (w : DCDWriter) (frames : list (list Byte.byte)) : Prop :=
  failbit (_ofs w) = false /\
  pos (_ofs w) = List.length (data (_ofs w)) /\
  data (_ofs w) = headerBytes w ++ concat frames /\
  _current w = Z.of_nat (List.length frames) /\
  _current w <= _nsteps w < 2 ^ 32.

End Encodings.

(** *** More sample writers *)

(** A writer for 4 atoms whose stream holds its header and one byte more,
    with the put position at the start. *)
Definition headed_writer : DCDWriter :=
  with_ofs shaped_writer
           (mkStream (headerBytes (zero_bytes 4) shaped_writer ++ [Byte.x01]) 0 false []).

(** A writer for 4 atoms on a stream that has failed, with one frame
    declared and none written, and one with no frame declared. *)
Definition failed_writer : DCDWriter :=
  with_nsteps (with_ofs shaped_writer (mkStream [] 0 true [])) 1.
Definition failed_full_writer : DCDWriter :=
  with_ofs shaped_writer (mkStream [] 0 true []).

End DCDLayout.

(* ================================================================= *)
(** * Properties *)

(* ================================================================= *)
(** ** 3x3 matrices *)

(** Unfolds the matrix vocabulary down to sums of products of array cells. *)
Ltac refold_nth :=
  let f := eval cbv beta delta [nth] in (@nth R) in
  repeat match goal with
         | |- context [f ?i ?A ?d] => change (f i A d) with (@nth R i A d)
         end.
Ltac refold_nth_in H :=
  let f := eval cbv beta delta [nth] in (@nth R) in
  repeat match type of H with
         | context [f ?i ?A ?d] => change (f i A d) with (@nth R i A d) in H
         end.
Ltac mnorm :=
  cbv [mul3 dgemm_ opElem tr3 diag3 I3 buffer get nth flat_map map seq app
       sum_upto Nat.add Nat.mul det3 mulv3 column3 cm3 cscale rotationPart embed3
       mget mset set gmul gidentity gtranslation rotationOf fold_left cneg
       negate_col3 cx cy cz Datatypes.length];
  refold_nth.
Ltac mnorm_in H :=
  cbv [mul3 dgemm_ opElem tr3 diag3 I3 buffer get nth flat_map map seq app
       sum_upto Nat.add Nat.mul det3 mulv3 column3 cm3 cscale rotationPart embed3
       mget mset set gmul gidentity gtranslation rotationOf fold_left cneg
       negate_col3 cx cy cz Datatypes.length] in H;
  refold_nth_in H.
Ltac mat_eq := mnorm; repeat (f_equal; try ring).

Lemma mul3_assoc A B C : mul3 (mul3 A B) C = mul3 A (mul3 B C).
Proof. mat_eq. Qed.

Lemma tr3_mul3 A B : tr3 (mul3 A B) = mul3 (tr3 B) (tr3 A).
Proof. mat_eq. Qed.

Lemma tr3_tr3 A : tr3 (tr3 A) = buffer 9 A.
Proof. reflexivity. Qed.

Lemma mul3_I3_l A : mul3 I3 A = buffer 9 A.
Proof. mat_eq. Qed.

Lemma mul3_I3_r A : mul3 A I3 = buffer 9 A.
Proof. mat_eq. Qed.

Lemma mul3_buffer_l A B : mul3 (buffer 9 A) B = mul3 A B.
Proof. reflexivity. Qed.

Lemma mul3_buffer_r A B : mul3 A (buffer 9 B) = mul3 A B.
Proof. reflexivity. Qed.

Lemma det3_mul3 A B : det3 (mul3 A B) = det3 A * det3 B.
Proof. mnorm; ring. Qed.

Lemma det3_tr3 A : det3 (tr3 A) = det3 A.
Proof. mnorm; ring. Qed.

Lemma det3_buffer A : det3 (buffer 9 A) = det3 A.
Proof. reflexivity. Qed.

Lemma det3_diag3 S : det3 (diag3 S) = S.[0] * S.[1] * S.[2].
Proof. mnorm; ring. Qed.

Lemma det3_I3 : det3 I3 = 1.
Proof. mnorm; ring. Qed.

Lemma det3_negate_col3 U : det3 (negate_col3 U) = - det3 U.
Proof. mnorm. ring. Qed.

Lemma orthogonal3_det A : orthogonal3 A -> det3 A * det3 A = 1.
Proof.
  intros [H _].
  rewrite <- (det3_tr3 A) at 1. rewrite <- det3_mul3, H. apply det3_I3.
Qed.

Lemma orthogonal3_negate_col3 U : orthogonal3 U -> orthogonal3 (negate_col3 U).
Proof.
  intros [H1 H2]. split.
  - mnorm_in H1. injection H1 as E0 E1 E2 E3 E4 E5 E6 E7 E8.
    mnorm. repeat (f_equal; try lra).
  - mnorm_in H2. injection H2 as E0 E1 E2 E3 E4 E5 E6 E7 E8.
    mnorm. repeat (f_equal; try lra).
Qed.

Lemma orthogonal3_tr3 A : orthogonal3 A -> orthogonal3 (tr3 A).
Proof.
  intros [H1 H2]. split.
  - rewrite tr3_tr3, mul3_buffer_l. exact H2.
  - rewrite tr3_tr3, mul3_buffer_r. exact H1.
Qed.

Lemma orthogonal3_mul3 A B : orthogonal3 A -> orthogonal3 B -> orthogonal3 (mul3 A B).
Proof.
  intros [A1 A2] [B1 B2]. split.
  - rewrite tr3_mul3, mul3_assoc, <- (mul3_assoc (tr3 A)), A1, mul3_I3_l, mul3_buffer_r.
    exact B1.
  - rewrite tr3_mul3, mul3_assoc, <- (mul3_assoc B), B2, mul3_I3_l, mul3_buffer_r.
    exact A2.
Qed.

Lemma orthogonal3_buffer A : orthogonal3 (buffer 9 A) <-> orthogonal3 A.
Proof. unfold orthogonal3. reflexivity. Qed.

(* ================================================================= *)
(** ** Transforms *)

Lemma rotationPart_compose y A x : rotationPart (compose_spec y A x) = buffer 9 A.
Proof. unfold compose_spec, xtranslate, xconcat, xidentity, current. mat_eq. Qed.

Lemma translationPart_compose y A x :
  translationPart (compose_spec y A x) = cadd y (mulv3 A (cneg x)).
Proof.
  unfold compose_spec, xtranslate, xconcat, xidentity, current, translationPart, cadd.
  mnorm. f_equal; ring.
Qed.

(** Integers as doubles. *)
Lemma Int_part_IZR k : Int_part (IZR k) = k.
Proof.
  unfold Int_part. rewrite <- (tech_up (IZR k) (k + 1)).
  - lia.
  - rewrite plus_IZR. lra.
  - rewrite plus_IZR. lra.
Qed.

Lemma frac_part_IZR k : frac_part (IZR k) = 0.
Proof. unfold frac_part. rewrite Int_part_IZR. lra. Qed.

Lemma R2D_IZR z : R2D (IZR z) = Z2D z.
Proof.
  unfold R2D, Z2D. cbv zeta.
  rewrite <- abs_IZR, <- mult_IZR, Int_part_IZR, frac_part_IZR.
  destruct (Req_EM_T 0 0) as [_|N]; [|contradiction].
  destruct (Rlt_dec (IZR z) 0) as [H|H]; destruct (Z.ltb_spec z 0) as [L|L];
    try reflexivity.
  - apply lt_IZR in H. lia.
  - exfalso. apply H. now apply IZR_lt.
Qed.

(** The determinant of superposition on a matrix of integers: the entries
    are turned into doubles and the expansion is computed. *)
Ltac ev_det :=
  unfold det; cbv zeta; unfold get; cbn [nth]; rewrite !R2D_IZR; vm_compute; reflexivity.

Lemma adjustU_neg d U : dlt d dzero = true -> adjustU d (buffer 9 U) = negate_col3 U.
Proof. intros H. unfold adjustU. now rewrite H. Qed.

Lemma adjustU_nonneg d U : dlt d dzero = false -> adjustU d (buffer 9 U) = buffer 9 U.
Proof. intros H. unfold adjustU. now rewrite H. Qed.

Lemma xtransform_translate v c : xtransform (xtranslate xform_new v) c = cadd c v.
Proof.
  unfold xtransform, xtranslate, xconcat, xform_new, current, gapply.
  cbv zeta.
  destruct (Req_EM_T _ 1) as [_|N].
  - unfold cadd. mnorm. f_equal; ring.
  - exfalso. apply N. mnorm. ring.
Qed.

Lemma centredCoords_eq g st :
  centredCoords g st =
  flat_map (fun c => [cx c - cx (centroid g st); cy c - cy (centroid g st);
                      cz c - cz (centroid g st)]) (coordsOf st g).
Proof.
  unfold centredCoords, transformedCoordsAsArray.
  apply flat_map_ext. intros c. rewrite xtransform_translate.
  unfold cadd, cneg. cbn [cx cy cz]. repeat f_equal; ring.
Qed.

(* ================================================================= *)
(** ** Singular value decompositions and the sign of the determinant *)

(** det U * det Vt is 1 or -1, and it has the sign of det R when R is not
    singular. *)
Lemma svd_det Rm out :
  svd_of Rm out ->
  let s := (svd_S out).[0] * (svd_S out).[1] * (svd_S out).[2] in
  let k := det3 (svd_U out) * det3 (svd_Vt out) in
  det3 Rm = k * s /\ 0 <= s /\ (k = 1 \/ k = -1).
Proof.
  intros (HU & HV & HS2 & HS1 & HR). cbv zeta.
  assert (Ha := orthogonal3_det _ HU). assert (Hb := orthogonal3_det _ HV).
  split; [|split].
  - rewrite <- (det3_buffer Rm), <- HR, !det3_mul3, det3_diag3. ring.
  - apply Rmult_le_pos; [apply Rmult_le_pos|]; lra.
  - set (a := det3 (svd_U out)) in *. set (b := det3 (svd_Vt out)) in *.
    assert (Hab : (a * b) * (a * b) = 1) by nra.
    clear - Hab. nra.
Qed.

Lemma svd_det_pos Rm out :
  svd_of Rm out -> 0 < det3 Rm -> det3 (svd_U out) * det3 (svd_Vt out) = 1.
Proof.
  intros H Hpos. destruct (svd_det Rm out H) as (Hd & Hs & [E|E]); [exact E|].
  exfalso. rewrite Hd, E in Hpos. lra.
Qed.


(** The rotation part superposition builds from a decomposition: orthogonal,
    with determinant det U * det Vt, negated when the third column of U was
    negated. *)
Lemma rotation_spec_orthogonal d Rm out :
  svd_of Rm out -> orthogonal3 (tr3 (rotation_spec d out)).
Proof.
  intros (HU & HV & _). unfold rotation_spec.
  destruct (dlt d dzero) eqn:E.
  - rewrite (adjustU_neg _ _ E).
    apply orthogonal3_tr3, orthogonal3_mul3; [|assumption].
    now apply orthogonal3_negate_col3.
  - rewrite (adjustU_nonneg _ _ E).
    apply orthogonal3_tr3, orthogonal3_mul3; [|assumption].
    now apply orthogonal3_buffer.
Qed.

Lemma rotation_spec_det d out :
  det3 (tr3 (rotation_spec d out))
  = (if dlt d dzero then -1 else 1) * (det3 (svd_U out) * det3 (svd_Vt out)).
Proof.
  unfold rotation_spec. destruct (dlt d dzero) eqn:E.
  - rewrite (adjustU_neg _ _ E), det3_tr3, det3_mul3, det3_negate_col3. ring.
  - rewrite (adjustU_nonneg _ _ E), det3_tr3, det3_mul3, det3_buffer. ring.
Qed.

(* ================================================================= *)
(** ** The sample inputs, evaluated *)

Import Examples.

Ltac ev_centroid :=
  cbv [centroid coordsOf size atoms moving rotated mirrored copied wide wide_copy st0 st2
       map fold_left cadd cdiv czero coords cx cy cz Datatypes.length INR];
  f_equal; lra.

Lemma centroid_moving : centroid moving st0 = mkCoord 0 0 0.
Proof. ev_centroid. Qed.

Lemma centroid_rotated : centroid rotated st0 = mkCoord 1 2 3.
Proof. ev_centroid. Qed.

Lemma centroid_mirrored : centroid mirrored st0 = mkCoord 0 0 0.
Proof. ev_centroid. Qed.

Lemma centroid_copied : centroid copied st0 = mkCoord 0 0 0.
Proof. ev_centroid. Qed.

Lemma centroid_wide : centroid wide st2 = mkCoord 0 0 0.
Proof. ev_centroid. Qed.

Lemma centroid_wide_copy : centroid wide_copy st2 = mkCoord 0 0 0.
Proof. ev_centroid. Qed.

Ltac ev_corr :=
  unfold correlationMatrix; rewrite !centredCoords_eq;
  rewrite ?centroid_moving, ?centroid_rotated, ?centroid_mirrored, ?centroid_copied,
          ?centroid_wide, ?centroid_wide_copy;
  cbv [coordsOf size atoms moving rotated mirrored copied wide wide_copy st0 st2
       map flat_map app coords cx cy cz
       Datatypes.length dgemm_ opElem get nth seq sum_upto Nat.add Nat.mul];
  repeat (f_equal; try lra).

Lemma correlation_rotated :
  correlationMatrix moving rotated st0 = [0; -16; 0; 36; 0; 0; 0; 0; 4].
Proof. ev_corr. Qed.



Lemma correlation_wide :
  correlationMatrix wide wide_copy st2
  = [162684724; 162684722; 162684722;
     162684722; 162684724; 162684722;
     162684722; 162684722; 162684724].
Proof. ev_corr. Qed.

(** The determinant as the machine evaluates it, on the samples.  On [wide]
    and its copy the rounded expansion is -2^30, while the determinant of
    the matrix is 1952216672. *)
Lemma det_rotated : det (correlationMatrix moving rotated st0) = Z2D 2304.
Proof. rewrite correlation_rotated. ev_det. Qed.



Lemma det_wide : det (correlationMatrix wide wide_copy st2) = Z2D (- 2 ^ 30).
Proof. rewrite correlation_wide. ev_det. Qed.

Lemma det3_wide : det3 (correlationMatrix wide wide_copy st2) = 1952216672.
Proof. rewrite correlation_wide. mnorm. lra. Qed.

Ltac ev_svd :=
  unfold svd_of, orthogonal3; cbv [svd_U svd_Vt svd_S];
  repeat split; try (mnorm; lra); mnorm; repeat (f_equal; try lra).

Lemma svd_rotated_ok :
  svd_of (correlationMatrix moving rotated st0)
         (svd_rotated "A" "A" 3 3 (correlationMatrix moving rotated st0) 3 3 3).
Proof. rewrite correlation_rotated. unfold svd_rotated. ev_svd. Qed.



Lemma svd_wide_ok :
  svd_of (correlationMatrix wide wide_copy st2)
         (svd_wide "A" "A" 3 3 (correlationMatrix wide wide_copy st2) 3 3 3).
Proof.
  rewrite correlation_wide. unfold svd_wide. cbv zeta.
  assert (H3 : sqrt 3 * sqrt 3 = 3) by (apply sqrt_sqrt; lra).
  assert (H2 : sqrt 2 * sqrt 2 = 2) by (apply sqrt_sqrt; lra).
  assert (H6 : sqrt 6 * sqrt 6 = 6) by (apply sqrt_sqrt; lra).
  set (a := sqrt 3 / 3). set (b := sqrt 2 / 2). set (c := sqrt 6 / 6).
  assert (Ha : a * a = 1 / 3) by (unfold a; field_simplify; rewrite ?H3; try lra;
                                  replace (sqrt 3 ^ 2) with (sqrt 3 * sqrt 3) by ring;
                                  rewrite H3; lra).
  assert (Hb : b * b = 1 / 2) by (unfold b; field_simplify; try lra;
                                  replace (sqrt 2 ^ 2) with (sqrt 2 * sqrt 2) by ring;
                                  rewrite H2; lra).
  assert (Hc : c * c = 1 / 6) by (unfold c; field_simplify; try lra;
                                  replace (sqrt 6 ^ 2) with (sqrt 6 * sqrt 6) by ring;
                                  rewrite H6; lra).
  clearbody a b c. clear H2 H3 H6.
  unfold svd_of, orthogonal3. cbv [svd_U svd_Vt svd_S].
  repeat split; try (mnorm; lra); mnorm; repeat (f_equal; try nra).
Qed.

(* ================================================================= *)
(** ** superposition *)

Section Superposition.

Variable dgesvd_ : ascii -> ascii -> nat -> nat -> arr -> nat -> nat -> nat -> dgesvd_out.

(** C1 (as amended): superposition never touches the store, and with R the
    cross-covariance matrix and (S, U, Vt, info) what the SVD returns for
    it, the call throws when info is not 0 and otherwise returns the
    transform composed as identity, translate by the reference's centroid,
    concatenate, translate by the negated centroid of the moving group,
    where the concatenated rotation is the TRANSPOSE of M = U * Vt (U with
    its third column negated when the determinant the code computes for R
    is negative): the loop [Z(i,j) = M[i*3+j]] reads the column-major M
    row by row. *)
Theorem superposition_composition self grp st :
  let Rm := correlationMatrix self grp st in
  let out := dgesvd_ "A"%char "A"%char 3 3 Rm 3 3 3 in
  superposition dgesvd_ self grp st =
  (if (svd_info out =? 0)%Z
   then Ok (compose_spec (centroid grp st) (tr3 (rotation_spec (det Rm) out))
                         (centroid self st))
   else Throw (NumericalError svd_message (svd_info out)), st).
Proof.
  cbv zeta.
  unfold superposition, bind, reads, correlationMatrix, centredCoords.
  cbv zeta.
  destruct (svd_info _ =? 0)%Z; reflexivity.
Qed.

(** The same, for the proofs below. *)
Lemma superposition_run self grp st :
  let Rm := correlationMatrix self grp st in
  let out := dgesvd_ "A"%char "A"%char 3 3 Rm 3 3 3 in
  superposition dgesvd_ self grp st =
  (if (svd_info out =? 0)%Z
   then Ok (compose_spec (centroid grp st) (tr3 (rotation_spec (det Rm) out))
                         (centroid self st))
   else Throw (NumericalError svd_message (svd_info out)), st).
Proof.
  cbv zeta.
  unfold superposition, bind, reads, correlationMatrix, centredCoords.
  cbv zeta.
  destruct (svd_info _ =? 0)%Z; reflexivity.
Qed.

(** What superposition returns when the SVD succeeds with a decomposition:
    a transform whose rotation part is orthogonal, with the determinant
    given by the sign the code computed and the decomposition. *)
Lemma superposition_rotation self grp st :
  let Rm := correlationMatrix self grp st in
  let out := dgesvd_ "A"%char "A"%char 3 3 Rm 3 3 3 in
  svd_info out = 0%Z -> svd_of Rm out ->
  exists W,
    superposition dgesvd_ self grp st = (Ok W, st) /\
    W = compose_spec (centroid grp st) (rotationPart W) (centroid self st) /\
    rotationPart W = tr3 (rotation_spec (det Rm) out) /\
    orthogonal3 (rotationPart W) /\
    det3 (rotationPart W)
    = (if dlt (det Rm) dzero then -1 else 1) * (det3 (svd_U out) * det3 (svd_Vt out)).
Proof.
  intros Rm out Hinfo Hsvd.
  eexists. split.
  { rewrite superposition_run. fold Rm out. rewrite Hinfo. reflexivity. }
  rewrite rotationPart_compose.
  assert (Hb : buffer 9 (tr3 (rotation_spec (det Rm) out)) = tr3 (rotation_spec (det Rm) out))
    by reflexivity.
  rewrite Hb. split; [reflexivity|]. split; [reflexivity|]. split.
  - exact (rotation_spec_orthogonal _ _ _ Hsvd).
  - apply rotation_spec_det.
Qed.

(** C2 (the code misses it): on [wide] and its copy the determinant of the
    cross-covariance matrix is 1952216672, but the expansion as the machine
    evaluates it is -2^30; so, whatever decomposition of the matrix the SVD
    returns, the code negates the third column of U, and the rotation part
    of the transform returned is orthogonal with determinant -1: a
    reflection, no proper rotation. *)
Theorem superposition_reflects_wide :
  let Rm := correlationMatrix wide wide_copy st2 in
  let out := dgesvd_ "A"%char "A"%char 3 3 Rm 3 3 3 in
  svd_info out = 0%Z -> svd_of Rm out ->
  dlt (det Rm) dzero = true /\ det3 Rm = 1952216672 /\
  exists W,
    superposition dgesvd_ wide wide_copy st2 = (Ok W, st2) /\
    rotationPart W = tr3 (mul3 (negate_col3 (svd_U out)) (svd_Vt out)) /\
    orthogonal3 (rotationPart W) /\
    det3 (rotationPart W) = -1.
Proof.
  intros Rm out Hinfo Hsvd.
  assert (Hneg : dlt (det Rm) dzero = true) by (unfold Rm; rewrite det_wide; reflexivity).
  split; [exact Hneg|]. split; [apply det3_wide|].
  destruct (superposition_rotation wide wide_copy st2 Hinfo Hsvd)
    as (W & HW & _ & HR & HO & HD).
  exists W. split; [exact HW|]. split; [|split; [exact HO|]].
  - change (rotationPart W = tr3 (rotation_spec (det Rm) out)) in HR.
    rewrite HR. unfold rotation_spec. now rewrite (adjustU_neg _ _ Hneg).
  - assert (E : det3 (svd_U out) * det3 (svd_Vt out) = 1).
    { apply (svd_det_pos Rm out Hsvd). unfold Rm. rewrite det3_wide. lra. }
    change (det3 (rotationPart W)
            = (if dlt (det Rm) dzero then -1 else 1)
              * (det3 (svd_U out) * det3 (svd_Vt out))) in HD.
    rewrite HD, Hneg, E. ring.
Qed.

End Superposition.

(** C2 with the decomposition [svd_wide]: the transform returned for [wide]
    and its copy has the rotation part of determinant -1. *)
Lemma superposition_reflects_wide_witness :
  let Rm := correlationMatrix wide wide_copy st2 in
  let out := svd_wide "A"%char "A"%char 3 3 Rm 3 3 3 in
  dlt (det Rm) dzero = true /\ det3 Rm = 1952216672 /\
  exists W,
    superposition svd_wide wide wide_copy st2 = (Ok W, st2) /\
    rotationPart W = tr3 (mul3 (negate_col3 (svd_U out)) (svd_Vt out)) /\
    orthogonal3 (rotationPart W) /\
    det3 (rotationPart W) = -1.
Proof.
  apply (superposition_reflects_wide svd_wide).
  - reflexivity.
  - apply svd_wide_ok.
Defined.

(** C1 as the spec words it, with the rotation M = U * Vt itself
    concatenated, fails on [moving] and [rotated]: the decomposition is a
    singular value decomposition of their cross-covariance, and the
    transform returned differs from the one composed with M. *)
Lemma superposition_rotation_is_not_UVt :
  let Rm := correlationMatrix moving rotated st0 in
  let out := svd_rotated "A"%char "A"%char 3 3 Rm 3 3 3 in
  svd_of Rm out /\
  superposition svd_rotated moving rotated st0 <>
  (Ok (compose_spec (centroid rotated st0) (rotation_spec (det Rm) out)
                    (centroid moving st0)), st0).
Proof.
  cbv zeta. split; [apply svd_rotated_ok|].
  rewrite superposition_run. cbv zeta.
  change (svd_info _ =? 0)%Z with true. cbv iota.
  intros H.
  apply (f_equal (fun r => match fst r with Ok W => rotationPart W | Throw _ => [] end)) in H.
  cbv beta iota delta [fst] in H.
  rewrite !rotationPart_compose in H.
  unfold rotation_spec in H. rewrite det_rotated in H.
  rewrite adjustU_nonneg in H by reflexivity.
  unfold svd_rotated in H. cbv [svd_U svd_Vt] in H. mnorm_in H.
  apply (f_equal (fun l => nth 1 l 0)) in H. cbv [nth] in H. lra.
Qed.

(** What the code returns there: the rotation by 90 degrees about z and the
    translation (1,2,3) that were applied to [moving]. *)
Lemma superposition_recovers_rotation :
  exists W,
    superposition svd_rotated moving rotated st0 = (Ok W, st0) /\
    rotationPart W = [0; 1; 0; -1; 0; 0; 0; 0; 1] /\
    translationPart W = mkCoord 1 2 3.
Proof.
  eexists. split.
  { rewrite superposition_run. cbv zeta.
    change (svd_info _ =? 0)%Z with true. reflexivity. }
  rewrite rotationPart_compose, translationPart_compose.
  unfold rotation_spec. rewrite det_rotated, centroid_rotated, centroid_moving.
  rewrite adjustU_nonneg by reflexivity.
  unfold svd_rotated. cbv [svd_U svd_Vt]. split.
  - mnorm. repeat (f_equal; try lra).
  - unfold cadd. mnorm. f_equal; lra.
Qed.

(* ================================================================= *)
(** ** A group superposed on a copy of itself *)

Lemma sum_upto_ext n f g : (forall l, f l = g l) -> sum_upto n f = sum_upto n g.
Proof. intros H. induction n as [|n IH]; cbn; [reflexivity | now rewrite IH, H]. Qed.

Lemma sum_upto_nonneg n f : (forall l, 0 <= f l) -> 0 <= sum_upto n f.
Proof.
  intros H. induction n as [|n IH]; cbn; [lra | specialize (H n); lra].
Qed.

(** A Gram matrix (a matrix times its transpose) is symmetric and positive
    semi-definite. *)
Lemma gram_symmetric X n :
  let G := dgemm_ FlagN FlagT 3 3 n 1 X 3 X 3 in buffer 9 G = tr3 G.
Proof.
  cbv zeta. mnorm.
  repeat (f_equal; try (f_equal; apply sum_upto_ext; intros; ring)).
Qed.

Lemma gram_quadratic X n w :
  cdot w (mulv3 (dgemm_ FlagN FlagT 3 3 n 1 X 3 X 3) w) =
  sum_upto n (fun l =>
    (cx w * X.[0 + l * 3] + cy w * X.[1 + l * 3] + cz w * X.[2 + l * 3])
    * (cx w * X.[0 + l * 3] + cy w * X.[1 + l * 3] + cz w * X.[2 + l * 3])).
Proof.
  unfold cdot, mulv3, dgemm_, opElem.
  cbv [flat_map map seq app get nth cx cy cz].
  fold (get X). induction n as [|n IH].
  - cbn. ring.
  - cbn [sum_upto]. rewrite <- IH. ring.
Qed.

Lemma gram_psd X n w : 0 <= cdot w (mulv3 (dgemm_ FlagN FlagT 3 3 n 1 X 3 X 3) w).
Proof.
  rewrite gram_quadratic. apply sum_upto_nonneg. intros l. apply Rle_0_sqr.
Qed.

Lemma tr3_diag3 S : tr3 (diag3 S) = diag3 S.
Proof. reflexivity. Qed.

Lemma sum_squares_zero a b c : a * a + b * b + c * c <= 0 -> a = 0 /\ b = 0 /\ c = 0.
Proof. intros H. repeat split; nra. Qed.

(** From [0 <= d . (R d)] and [R d = - s d] (read off the hypotheses in
    context) to [s * |d|^2 <= 0], then to [|d|^2 <= 0] as s is positive. *)
Ltac column_step C s Hs :=
  match type of C with
  | 0 <= ?a * ?p + ?b * ?q + ?c * ?r =>
      let Hp := fresh in let Hq := fresh in let Hr := fresh in
      let Ht := fresh in let Hpos := fresh in
      assert (Hp : p = - s * a) by lra;
      assert (Hq : q = - s * b) by lra;
      assert (Hr : r = - s * c) by lra;
      rewrite Hp, Hq, Hr in C;
      assert (Ht : s * (a * a + b * b + c * c) <= 0) by lra;
      destruct (Rle_or_lt (a * a + b * b + c * c) 0) as [|Hpos]; [assumption|];
      exfalso; pose proof (Rmult_lt_0_compat _ _ Hs Hpos); lra
  end.

(** A singular value decomposition U * S * Vt of a symmetric, positive
    semi-definite, non-singular matrix has U * Vt = 1: for each j the
    difference d of column j of U and row j of Vt satisfies R d = - s_j d,
    which positive semi-definiteness allows for d = 0 only. *)
Lemma svd_of_definite Rm out :
  svd_of Rm out ->
  buffer 9 Rm = tr3 Rm ->
  (forall w, 0 <= cdot w (mulv3 Rm w)) ->
  det3 Rm <> 0 ->
  buffer 9 (svd_U out) = tr3 (svd_Vt out) /\ 0 < det3 Rm.
Proof.
  intros (HU & HV & HS2 & HS1 & HR) Hsym Hpsd Hdet.
  set (U := svd_U out) in *. set (Vt := svd_Vt out) in *. set (S := svd_S out) in *.
  assert (Hd : det3 Rm = det3 U * ((S.[0] * S.[1] * S.[2]) * det3 Vt)).
  { rewrite <- (det3_buffer Rm), <- HR, !det3_mul3, det3_diag3. reflexivity. }
  assert (Hs2 : 0 < S.[2]).
  { destruct HS2 as [[H|H] _]; [exact H|]. exfalso. apply Hdet. rewrite Hd, <- H. ring. }
  assert (Hs1 : 0 < S.[1]) by lra. assert (Hs0 : 0 < S.[0]) by lra.
  (* R * V = U * S *)
  assert (E1 : mul3 Rm (tr3 Vt) = mul3 U (diag3 S)).
  { rewrite <- mul3_buffer_l, <- HR, !mul3_assoc. destruct HV as [_ HV2].
    rewrite HV2, mul3_I3_r, mul3_buffer_r. reflexivity. }
  (* R * U = V * S *)
  assert (E2 : mul3 Rm U = mul3 (tr3 Vt) (diag3 S)).
  { rewrite <- mul3_buffer_l, Hsym. 
    assert (Ht : tr3 Rm = mul3 (tr3 Vt) (mul3 (diag3 S) (tr3 U))).
    { change (tr3 Rm) with (tr3 (buffer 9 Rm)). rewrite <- HR.
      rewrite !tr3_mul3, tr3_diag3, mul3_assoc. reflexivity. }
    rewrite Ht, !mul3_assoc. destruct HU as [HU1 _].
    rewrite HU1, mul3_I3_r, mul3_buffer_r. reflexivity. }
  mnorm_in E1. mnorm_in E2.
  injection E1 as A0 A1 A2 A3 A4 A5 A6 A7 A8.
  injection E2 as B0 B1 B2 B3 B4 B5 B6 B7 B8.
  assert (C0 := Hpsd (mkCoord (U.[0] - Vt.[0]) (U.[1] - Vt.[3]) (U.[2] - Vt.[6]))).
  assert (C1 := Hpsd (mkCoord (U.[3] - Vt.[1]) (U.[4] - Vt.[4]) (U.[5] - Vt.[7]))).
  assert (C2 := Hpsd (mkCoord (U.[6] - Vt.[2]) (U.[7] - Vt.[5]) (U.[8] - Vt.[8]))).
  unfold cdot, mulv3 in C0, C1, C2. cbv [cx cy cz get] in C0, C1, C2.
  cbv [get] in Hs0, Hs1, Hs2.
  assert (Z0 : (nth 0 U 0 - nth 0 Vt 0) * (nth 0 U 0 - nth 0 Vt 0)
             + (nth 1 U 0 - nth 3 Vt 0) * (nth 1 U 0 - nth 3 Vt 0)
             + (nth 2 U 0 - nth 6 Vt 0) * (nth 2 U 0 - nth 6 Vt 0) <= 0).
  { clear - A0 A1 A2 B0 B1 B2 C0 Hs0. column_step C0 (nth 0 S 0) Hs0. }
  assert (Z1 : (nth 3 U 0 - nth 1 Vt 0) * (nth 3 U 0 - nth 1 Vt 0)
             + (nth 4 U 0 - nth 4 Vt 0) * (nth 4 U 0 - nth 4 Vt 0)
             + (nth 5 U 0 - nth 7 Vt 0) * (nth 5 U 0 - nth 7 Vt 0) <= 0).
  { clear - A3 A4 A5 B3 B4 B5 C1 Hs1. column_step C1 (nth 1 S 0) Hs1. }
  assert (Z2 : (nth 6 U 0 - nth 2 Vt 0) * (nth 6 U 0 - nth 2 Vt 0)
             + (nth 7 U 0 - nth 5 Vt 0) * (nth 7 U 0 - nth 5 Vt 0)
             + (nth 8 U 0 - nth 8 Vt 0) * (nth 8 U 0 - nth 8 Vt 0) <= 0).
  { clear - A6 A7 A8 B6 B7 B8 C2 Hs2. column_step C2 (nth 2 S 0) Hs2. }
  apply sum_squares_zero in Z0, Z1, Z2.
  destruct Z0 as (? & ? & ?), Z1 as (? & ? & ?), Z2 as (? & ? & ?).
  assert (HUV : buffer 9 U = tr3 Vt).
  { mnorm. repeat (f_equal; try lra). }
  split; [exact HUV|].
  assert (Hq : det3 U * det3 Vt = 1).
  { rewrite <- (det3_buffer U), HUV, det3_tr3. apply orthogonal3_det, HV. }
  rewrite Hd.
  replace (det3 U * (S.[0] * S.[1] * S.[2] * det3 Vt))
    with ((det3 U * det3 Vt) * (S.[0] * S.[1] * S.[2])) by ring.
  rewrite Hq, Rmult_1_l. cbv [get].
  apply Rmult_lt_0_compat; [apply Rmult_lt_0_compat|]; assumption.
Qed.

Lemma coordsOf_size st g : size g = List.length (coordsOf st g).
Proof. unfold size, coordsOf. now rewrite length_map. Qed.










Lemma transform_fold_outside W l : forall st p,
  ~ In p l ->
  fold_left (fun s q => set_coords s q (xtransform W (coords (s q)))) l st p = st p.
Proof.
  induction l as [|a l IH]; intros st p Hp; cbn [fold_left]; [reflexivity|].
  rewrite IH by (intros H; apply Hp; now right).
  unfold set_coords. destruct (Nat.eqb_spec p a) as [->|_]; [|reflexivity].
  exfalso. apply Hp. now left.
Qed.

Lemma transform_fold_inside W l : forall st p,
  NoDup l -> In p l ->
  fold_left (fun s q => set_coords s q (xtransform W (coords (s q)))) l st p
  = mkAtom (xtransform W (coords (st p))) (mass (st p)).
Proof.
  induction l as [|a l IH]; intros st p Hnd Hp; [destruct Hp|].
  cbn [fold_left]. inversion Hnd as [|a' l' Ha Hl]; subst.
  destruct Hp as [->|Hp].
  - rewrite transform_fold_outside by exact Ha.
    unfold set_coords. now rewrite Nat.eqb_refl.
  - rewrite IH by assumption. unfold set_coords.
    destruct (Nat.eqb_spec p a) as [->|_]; [contradiction | reflexivity].
Qed.

Lemma applyTransform_outside g W st p :
  ~ In p (atoms g) -> applyTransform g W st p = st p.
Proof. apply transform_fold_outside. Qed.

Lemma applyTransform_inside g W st p :
  NoDup (atoms g) -> In p (atoms g) ->
  applyTransform g W st p = mkAtom (xtransform W (coords (st p))) (mass (st p)).
Proof. apply transform_fold_inside. Qed.

(** The transform composed by superposition acts as c |-> yc + A (c - xc). *)
Lemma gapply_compose y A x c :
  gapply (compose_spec y A x) c = cadd y (mulv3 A (csub c x)).
Proof.
  unfold compose_spec, xtranslate, xconcat, xidentity, current, gapply. cbv zeta.
  destruct (Req_EM_T _ 1) as [_|N].
  - unfold cadd, csub. mnorm. f_equal; ring.
  - exfalso. apply N. mnorm. ring.
Qed.

Import Examples.

(** A reflection in a plane through the diagonal (its unit normal (a,b,c)
    has a + b + c = 0) keeps the two atoms of [wide] on the diagonal and
    moves the six others: the RMSD to the set itself is 1. *)
Lemma rmsd_wide_householder A a b c :
  buffer 9 A = [1 - 2 * (a * a); - (2 * (a * b)); - (2 * (a * c));
                - (2 * (a * b)); 1 - 2 * (b * b); - (2 * (b * c));
                - (2 * (a * c)); - (2 * (b * c)); 1 - 2 * (c * c)] ->
  a * a + b * b + c * c = 1 -> a + b + c = 0 ->
  rmsdCoords (map (mulv3 A) (coordsOf st2 wide)) (coordsOf st2 wide) = 1.
Proof.
  intros HA Hq Hs.
  injection HA as A0 A1 A2 A3 A4 A5 A6 A7 A8.
  unfold rmsdCoords. rewrite length_map.
  unfold coordsOf, wide, atoms.
  cbn [map combine fst snd coords st2 fold_left List.length].
  unfold mulv3, dist2, cdot, csub. cbn [cx cy cz].
  rewrite A0, A1, A2, A3, A4, A5, A6, A7, A8.
  assert (Hc : c = - a - b) by lra. subst c.
  match goal with
  | |- sqrt (_ * ?s) = 1 =>
      replace s with (8 * ((a * a + b * b + (- a - b) * (- a - b))
                           * (a * a + b * b + (- a - b) * (- a - b)))) by ring
  end.
  rewrite Hq.
  replace (1 / INR 8 * (8 * (1 * 1))) with 1 by (cbn [INR]; field).
  apply sqrt_1.
Qed.

(** With any decomposition of the cross-covariance matrix of [wide] and its
    copy (eigenvalue 488054168 along the diagonal, 2 across it), U with its
    third column negated times Vt is such a reflection: U = V as the matrix
    is positive definite, and the third column belongs to the eigenvalue 2. *)
Lemma rmsd_wide_mirrored out :
  svd_of (correlationMatrix wide wide_copy st2) out ->
  rmsdCoords
    (map (mulv3 (tr3 (mul3 (negate_col3 (svd_U out)) (svd_Vt out))))
         (coordsOf st2 wide))
    (coordsOf st2 wide) = 1.
Proof.
  intros Hsvd.
  set (Rm := correlationMatrix wide wide_copy st2) in *.
  assert (HG : Rm = dgemm_ FlagN FlagT 3 3 (size wide) 1
                      (centredCoords wide st2) 3 (centredCoords wide st2) 3)
    by reflexivity.
  destruct (svd_of_definite Rm out Hsvd) as [HUV _].
  { rewrite HG. apply gram_symmetric. }
  { intros w. rewrite HG. apply gram_psd. }
  { unfold Rm. rewrite det3_wide. lra. }
  destruct Hsvd as ((HU1 & HU2) & (HV1 & HV2) & HS2 & HS1 & HR).
  set (U := svd_U out) in *. set (Vt := svd_Vt out) in *. set (S := svd_S out) in *.
  assert (E1 : mul3 Rm (tr3 Vt) = mul3 U (diag3 S)).
  { rewrite <- mul3_buffer_l, <- HR, !mul3_assoc.
    rewrite HV2, mul3_I3_r, mul3_buffer_r. reflexivity. }
  unfold Rm in E1, HR. rewrite correlation_wide in E1, HR.
  apply rmsd_wide_householder with (a := U.[6]) (b := U.[7]) (c := U.[8]).
  - mnorm_in HUV. injection HUV as V0 V1 V2 V3 V4 V5 V6 V7 V8.
    mnorm_in HU2. injection HU2 as R0 R1 R2 R3 R4 R5 R6 R7 R8.
    mnorm. unfold get. rewrite <- V0, <- V1, <- V2, <- V3, <- V4, <- V5, <- V6, <- V7, <- V8.
    repeat (f_equal; try lra).
  - mnorm_in HU1. injection HU1 as C0 C1 C2 C3 C4 C5 C6 C7 C8. unfold get. lra.
  - mnorm_in HUV. injection HUV as V0 V1 V2 V3 V4 V5 V6 V7 V8.
    mnorm_in E1. injection E1 as A0 A1 A2 A3 A4 A5 A6 A7 A8.
    mnorm_in HR. injection HR as H0 _.
    mnorm_in HU2. injection HU2 as R0 _.
    rewrite <- V0, <- V3, <- V6 in H0.
    rewrite <- V6 in A6. rewrite <- V7 in A6. rewrite <- V8 in A6.
    rewrite <- V6 in A7. rewrite <- V7 in A7. rewrite <- V8 in A7.
    rewrite <- V6 in A8. rewrite <- V7 in A8. rewrite <- V8 in A8.
    unfold get in *.
    assert (Hle : nth 2 S 0 <= 162684724).
    { assert (0 <= (nth 0 S 0 - nth 2 S 0) * (nth 0 U 0 * nth 0 U 0)).
      { apply Rmult_le_pos; [lra | apply Rle_0_sqr]. }
      assert (0 <= (nth 1 S 0 - nth 2 S 0) * (nth 3 U 0 * nth 3 U 0)).
      { apply Rmult_le_pos; [lra | apply Rle_0_sqr]. }
      nra. }
    assert (Hz : (162684724 + 2 * 162684722 - nth 2 S 0)
                 * (nth 6 U 0 + nth 7 U 0 + nth 8 U 0) = 0) by lra.
    apply Rmult_integral in Hz as [Hz|Hz]; lra.
Qed.

Section AlignOnto.

Variable dgesvd_ : ascii -> ascii -> nat -> nat -> arr -> nat -> nat -> nat -> dgesvd_out.

Lemma alignOnto_run self grp st :
  alignOnto dgesvd_ self grp st =
  match superposition dgesvd_ self grp st with
  | (Ok M, st') => (Ok M, applyTransform self (xload xform_new M) st')
  | (Throw e, st') => (Throw e, st')
  end.
Proof.
  unfold alignOnto, bind, modify, ret.
  destruct (superposition dgesvd_ self grp st) as [[M|e] st']; reflexivity.
Qed.

(** What a returning alignOnto has done: the transform is the one of
    superposition, every atom of the moving group (listed once) holds its
    image, and every other atom is as it was. *)
Lemma alignOnto_moves self grp st M st' :
  NoDup (atoms self) ->
  alignOnto dgesvd_ self grp st = (Ok M, st') ->
  fst (superposition dgesvd_ self grp st) = Ok M /\
  (forall p, In p (atoms self) ->
     st' p = mkAtom (gapply M (coords (st p))) (mass (st p))) /\
  (forall p, ~ In p (atoms self) -> st' p = st p).
Proof.
  intros Hnd. rewrite alignOnto_run.
  assert (Hst : snd (superposition dgesvd_ self grp st) = st)
    by (rewrite superposition_run; reflexivity).
  destruct (superposition dgesvd_ self grp st) as [[M0|e] st0] eqn:E;
    cbn [fst snd] in *; subst st0; [|discriminate].
  intros [= -> <-]. split; [reflexivity|]. split.
  - intros p Hp. now rewrite applyTransform_inside.
  - intros p Hp. now apply applyTransform_outside.
Qed.


(** C3 (the code misses it): [wide_copy] holds the coordinates of [wide],
    and whatever decomposition of their cross-covariance matrix the SVD
    returns, alignOnto returns a transform whose rotation part has
    determinant -1, not the identity, and the RMSD of the two groups after
    the call is 1, not 0: the computed determinant is negative (the
    determinant of the matrix is not), the third column of U is negated,
    and the group is mirrored. *)
Theorem alignOnto_mirrors_wide :
  let Rm := correlationMatrix wide wide_copy st2 in
  let out := dgesvd_ "A"%char "A"%char 3 3 Rm 3 3 3 in
  svd_info out = 0%Z -> svd_of Rm out ->
  coordsOf st2 wide_copy = coordsOf st2 wide /\
  exists W st',
    alignOnto dgesvd_ wide wide_copy st2 = (Ok W, st') /\
    det3 (rotationPart W) = -1 /\
    W <> gidentity /\
    rmsd wide wide_copy st' = 1.
Proof.
  intros Rm out Hinfo Hsvd. split; [reflexivity|].
  destruct (superposition_rotation dgesvd_ wide wide_copy st2 Hinfo Hsvd)
    as (W & HW & HWc & HR & _ & HD).
  change (rotationPart W = tr3 (rotation_spec (det Rm) out)) in HR.
  change (det3 (rotationPart W)
          = (if dlt (det Rm) dzero then -1 else 1)
            * (det3 (svd_U out) * det3 (svd_Vt out))) in HD.
  assert (Hdet : det3 (rotationPart W) = -1).
  { assert (E : det3 (svd_U out) * det3 (svd_Vt out) = 1).
    { apply (svd_det_pos Rm out Hsvd). unfold Rm. rewrite det3_wide. lra. }
    rewrite HD, E. unfold Rm. rewrite det_wide. cbn. ring. }
  destruct (alignOnto dgesvd_ wide wide_copy st2) as [r st'] eqn:Hrun.
  assert (Hr : r = Ok W).
  { rewrite alignOnto_run, HW in Hrun. now injection Hrun as <- _. }
  subst r. exists W, st'. split; [reflexivity|]. split; [exact Hdet|]. split.
  { intros E. rewrite E in Hdet. revert Hdet. mnorm. lra. }
  assert (Hnd : NoDup (atoms wide)).
  { unfold wide, atoms. repeat constructor; cbn; intuition lia. }
  destruct (alignOnto_moves wide wide_copy st2 W st' Hnd Hrun) as (_ & Hin & Hout).
  rewrite centroid_wide, centroid_wide_copy in HWc.
  set (A := rotationPart W) in *.
  assert (Hg : forall c, gapply W c = mulv3 A c).
  { intros [x y z]. rewrite HWc, gapply_compose. unfold cadd, csub.
    mnorm. f_equal; ring. }
  unfold rmsd.
  assert (Hc : coordsOf st' wide_copy = coordsOf st2 wide).
  { change (coordsOf st2 wide) with (coordsOf st2 wide_copy).
    apply map_ext_in. intros p Hp. rewrite Hout; [reflexivity|].
    revert Hp. unfold wide, wide_copy, atoms. cbn. intuition lia. }
  assert (Hm : coordsOf st' wide = map (mulv3 A) (coordsOf st2 wide)).
  { unfold coordsOf. rewrite map_map. apply map_ext_in. intros p Hp.
    rewrite (Hin p Hp). cbn [coords]. apply Hg. }
  rewrite Hc, Hm. subst A. rewrite HR. unfold rotation_spec.
  rewrite adjustU_neg by (unfold Rm; rewrite det_wide; reflexivity).
  now apply rmsd_wide_mirrored.
Qed.

End AlignOnto.

(** C3 with the decomposition [svd_wide]: alignOnto mirrors [wide]. *)
Lemma alignOnto_mirrors_wide_witness :
  coordsOf st2 wide_copy = coordsOf st2 wide /\
  exists W st',
    alignOnto svd_wide wide wide_copy st2 = (Ok W, st') /\
    det3 (rotationPart W) = -1 /\
    W <> gidentity /\
    rmsd wide wide_copy st' = 1.
Proof.
  apply (alignOnto_mirrors_wide svd_wide).
  - reflexivity.
  - apply svd_wide_ok.
Defined.

(* ================================================================= *)
(** ** momentsOfInertia and principalAxes *)

Lemma inertiaSum_buffer c ms : inertiaSum c ms = buffer 9 (inertiaSum c ms).
Proof. destruct ms as [|[m x] rest]; reflexivity. Qed.

Lemma inertiaSum_symmetric c ms :
  (inertiaSum c ms).[3] = (inertiaSum c ms).[1] /\
  (inertiaSum c ms).[6] = (inertiaSum c ms).[2] /\
  (inertiaSum c ms).[7] = (inertiaSum c ms).[5].
Proof.
  induction ms as [|[m x] rest (IH1 & IH2 & IH3)]; [repeat split|].
  cbn [inertiaSum]. unfold get in *. cbn [map seq nth].
  rewrite IH1, IH2, IH3. unfold inertiaTerm. cbn [nth]. repeat split.
Qed.

(** C6: the matrix momentsOfInertia hands to the eigensolver is the sum
    over the members (mass m, position u relative to the centre of mass) of
    the inertia tensor with diagonal m(y^2+z^2), m(x^2+z^2), m(x^2+y^2) and
    off-diagonal entries -m x y, -m x z, -m y z, placed symmetrically. *)
Theorem inertiaMatrix_is_tensor self st :
  inertiaMatrix self st = inertiaSum (centerOfMass self st) (members self st).
Proof.
  unfold inertiaMatrix, members. cbv zeta. cbn [repeat].
  set (c := centerOfMass self st).
  match goal with
  | |- context [fold_left ?f (atoms self) _] => set (step := f)
  end.
  (* the loop, started from any lower triangle *)
  assert (Hloop : forall l a0 a1 a2 a4 a5 a8,
    fold_left step l [a0; a1; a2; 0; a4; a5; 0; 0; a8] =
    let T := inertiaSum c (map (fun p => (mass (st p), coords (st p))) l) in
    [a0 + T.[0]; a1 - T.[1]; a2 - T.[2]; 0; a4 + T.[4]; a5 - T.[5]; 0; 0; a8 + T.[8]]).
  { induction l as [|p l IH]; intros a0 a1 a2 a4 a5 a8.
    - cbv zeta. cbn [map fold_left inertiaSum]. unfold get. cbn [repeat nth].
      repeat (f_equal; try ring).
    - cbn [fold_left map]. unfold step at 2.
      cbv [accum cm3 get nth set Nat.add Nat.mul]. rewrite IH.
      cbv zeta. cbn [inertiaSum]. unfold get. cbn [map seq nth].
      unfold inertiaTerm. cbn [nth].
      repeat (f_equal; try ring). }
  rewrite Hloop. cbv zeta.
  set (T := inertiaSum c (map (fun p => (mass (st p), coords (st p))) (atoms self))).
  destruct (inertiaSum_symmetric c (map (fun p => (mass (st p), coords (st p))) (atoms self)))
    as (S1 & S2 & S3).
  fold T in S1, S2, S3.
  transitivity (buffer 9 T); [|symmetry; apply inertiaSum_buffer].
  unfold cm3, buffer. cbn [Nat.add Nat.mul map seq].
  unfold get in *. cbn [set nth].
  rewrite S1, S2, S3.
  repeat (f_equal; try ring).
Qed.

Section Eigen.

Variable dsyev_ : ascii -> ascii -> nat -> arr -> nat -> dsyev_out.

Lemma momentsOfInertia_run self st :
  momentsOfInertia dsyev_ self st =
  (eigen_tail (size self) (dsyev_ "V"%char "U"%char 3 (inertiaMatrix self st) 3), st).
Proof.
  unfold momentsOfInertia, eigen_tail, bind, reads, throw, ret. cbv zeta.
  destruct (syev_info _ <? 0)%Z; [reflexivity|].
  destruct (syev_info _ >? 0)%Z; reflexivity.
Qed.

Lemma principalAxes_run self st :
  principalAxes dsyev_ self st =
  (eigen_tail (size self) (dsyev_ "V"%char "U"%char 3 (scatterMatrix self st) 3), st).
Proof.
  unfold principalAxes, eigen_tail, bind, reads, throw, ret. cbv zeta.
  destruct (syev_info _ <? 0)%Z; [reflexivity|].
  destruct (syev_info _ >? 0)%Z; reflexivity.
Qed.

(** The columns of an orthogonal matrix have length 1. *)
Lemma orthogonal3_unit A i :
  orthogonal3 A -> (i < 3)%nat -> cdot (column3 A i) (column3 A i) = 1.
Proof.
  intros [H _] Hi. mnorm_in H. injection H as E0 _ _ _ E4 _ _ _ E8.
  unfold cdot. destruct i as [|[|[|i]]]; [| | |lia]; mnorm; lra.
Qed.

Lemma eigen_tail_ordered A n out results :
  eigen_of A out -> eigen_tail n out = Ok results ->
  ordered_eigen_results A n out results.
Proof.
  intros ((H01 & H12) & HO & Hvec) H. unfold eigen_tail in H.
  destruct (syev_info out <? 0)%Z; [discriminate|].
  destruct (syev_info out >? 0)%Z; [discriminate|].
  injection H as <-. unfold ordered_eigen_results, eigen_pair. cbv zeta.
  split; [reflexivity|]. split; [lra|]. split; [lra|].
  repeat split; try (apply Hvec; lia); apply orthogonal3_unit; (assumption || lia).
Qed.

Lemma eigen_tail_raises n out : raises_iff_nonzero (syev_info out) (eigen_tail n out).
Proof.
  unfold eigen_tail, raises_iff_nonzero.
  destruct (Z.ltb_spec (syev_info out) 0).
  { split; [lia | eexists; reflexivity]. }
  destruct (Z.gtb_spec (syev_info out) 0).
  { split; [lia | eexists; reflexivity]. }
  lia.
Qed.

Lemma eigen_tail_returns n out :
  syev_info out = 0%Z ->
  eigen_tail n out
  = Ok [column3 (syev_A out) 2; column3 (syev_A out) 1; column3 (syev_A out) 0;
        cdiv (mkCoord (syev_W out).[2] (syev_W out).[1] (syev_W out).[0]) (INR n)].
Proof. intros H. unfold eigen_tail. now rewrite H. Qed.

(** C4: when the eigensolver meets its contract (on status 0: eigenvalues
    ascending in W, the columns of A orthonormal, column i an eigenvector
    for W[i]), momentsOfInertia and principalAxes return whenever the
    status is 0, and what they return is exactly the list of 4 entries made
    of columns 2, 1 and 0 of the solver's A, in that order, and of
    (W[2], W[1], W[0]) divided by the number of points: unit eigenvectors
    for the eigenvalues W[2] >= W[1] >= W[0], largest first, then the
    eigenvalues packed largest first. *)
Theorem eigen_results_descending self st :
  let I := inertiaMatrix self st in
  let C := scatterMatrix self st in
  let outI := dsyev_ "V"%char "U"%char 3 I 3 in
  let outC := dsyev_ "V"%char "U"%char 3 C 3 in
  (syev_info outI = 0%Z -> eigen_of I outI) ->
  (syev_info outC = 0%Z -> eigen_of C outC) ->
  (syev_info outI = 0%Z ->
   exists results, momentsOfInertia dsyev_ self st = (Ok results, st)) /\
  (syev_info outC = 0%Z ->
   exists results, principalAxes dsyev_ self st = (Ok results, st)) /\
  (forall results st',
     momentsOfInertia dsyev_ self st = (Ok results, st') ->
     List.length results = 4%nat /\
     ordered_eigen_results I (size self) outI results) /\
  (forall results st',
     principalAxes dsyev_ self st = (Ok results, st') ->
     List.length results = 4%nat /\
     ordered_eigen_results C (size self) outC results).
Proof.
  intros I C outI outC HI HC.
  assert (Htail : forall A out results,
            (syev_info out = 0%Z -> eigen_of A out) ->
            eigen_tail (size self) out = Ok results ->
            List.length results = 4%nat /\
            ordered_eigen_results A (size self) out results).
  { intros A out results Hc H.
    assert (Hz : syev_info out = 0%Z).
    { pose proof (eigen_tail_raises (size self) out) as Hr. now rewrite H in Hr. }
    split; [|exact (eigen_tail_ordered _ _ _ _ (Hc Hz) H)].
    rewrite (eigen_tail_returns _ _ Hz) in H. now injection H as <-. }
  split; [|split; [|split]].
  - intros Hz. eexists. rewrite momentsOfInertia_run. fold I outI.
    now rewrite (eigen_tail_returns _ _ Hz).
  - intros Hz. eexists. rewrite principalAxes_run. fold C outC.
    now rewrite (eigen_tail_returns _ _ Hz).
  - intros results st' H. rewrite momentsOfInertia_run in H. injection H as H _.
    exact (Htail _ _ _ HI H).
  - intros results st' H. rewrite principalAxes_run in H. injection H as H _.
    exact (Htail _ _ _ HC H).
Qed.

End Eigen.

Section Failure.

Variable dsyev_ : ascii -> ascii -> nat -> arr -> nat -> dsyev_out.
Variable dgesvd_ : ascii -> ascii -> nat -> nat -> arr -> nat -> nat -> nat -> dgesvd_out.

(** C5: each of momentsOfInertia, principalAxes and superposition returns
    a result exactly when the status reported by its solver is 0, and
    otherwise throws a NumericalError that carries that status; the store
    is the same in both cases. *)
Theorem numerical_error_iff_status self grp st :
  let mi := momentsOfInertia dsyev_ self st in
  let pa := principalAxes dsyev_ self st in
  let sp := superposition dgesvd_ self grp st in
  raises_iff_nonzero
    (syev_info (dsyev_ "V"%char "U"%char 3 (inertiaMatrix self st) 3)) (fst mi) /\
  raises_iff_nonzero
    (syev_info (dsyev_ "V"%char "U"%char 3 (scatterMatrix self st) 3)) (fst pa) /\
  raises_iff_nonzero
    (svd_info (dgesvd_ "A"%char "A"%char 3 3 (correlationMatrix self grp st) 3 3 3))
    (fst sp) /\
  snd mi = st /\ snd pa = st /\ snd sp = st.
Proof.
  cbv zeta.
  rewrite momentsOfInertia_run, principalAxes_run, superposition_run.
  cbv zeta. cbn [fst snd].
  split; [apply eigen_tail_raises|]. split; [apply eigen_tail_raises|].
  split; [|repeat split].
  destruct (Z.eqb_spec (svd_info (dgesvd_ "A"%char "A"%char 3%nat 3%nat
                                    (correlationMatrix self grp st) 3%nat 3%nat 3%nat)) 0)
    as [E|N]; cbn.
  - exact E.
  - split; [exact N | eexists; reflexivity].
Qed.

End Failure.

Import Examples.

Lemma centerOfMass_moving : centerOfMass moving st0 = mkCoord 0 0 0.
Proof.
  cbv [centerOfMass atoms moving st0 fold_left cadd cdiv czero coords mass cx cy cz].
  f_equal; lra.
Qed.

Lemma inertiaMatrix_moving : inertiaMatrix moving st0 = [20; 0; 0; 0; 40; 0; 0; 0; 52].
Proof.
  unfold inertiaMatrix. cbv zeta. rewrite centerOfMass_moving.
  cbv [atoms moving st0 fold_left accum cm3 csub coords mass cx cy cz repeat
       set get nth Nat.add Nat.mul].
  repeat (f_equal; try lra).
Qed.

Lemma scatterMatrix_moving : scatterMatrix moving st0 = [36; 0; 0; 0; 16; 0; 0; 0; 4].
Proof.
  cbv [scatterMatrix coordsAsArray coordsOf size atoms moving st0 map flat_map app
       coords cx cy cz Datatypes.length fold_left seq set get nth Nat.add INR
       dgemm_ opElem sum_upto Nat.mul].
  repeat (f_equal; try lra).
Qed.

Lemma dsyev_moving_inertia :
  dsyev_moving "V" "U" 3 (inertiaMatrix moving st0) 3
  = mkSyev [1; 0; 0; 0; 1; 0; 0; 0; 1] [20; 40; 52] 0.
Proof.
  rewrite inertiaMatrix_moving. unfold dsyev_moving, get. cbn [nth].
  destruct (Req_EM_T 20 20); [reflexivity | lra].
Qed.

Lemma dsyev_moving_scatter :
  dsyev_moving "V" "U" 3 (scatterMatrix moving st0) 3
  = mkSyev [0; 0; 1; 0; 1; 0; 1; 0; 0] [4; 16; 36] 0.
Proof.
  rewrite scatterMatrix_moving. unfold dsyev_moving, get. cbn [nth].
  destruct (Req_EM_T 36 20); [lra | reflexivity].
Qed.

Lemma eigen_of_moving_inertia :
  eigen_of (inertiaMatrix moving st0)
           (dsyev_moving "V" "U" 3 (inertiaMatrix moving st0) 3).
Proof.
  rewrite dsyev_moving_inertia, inertiaMatrix_moving. unfold eigen_of.
  cbv [syev_A syev_W]. split; [cbv [get nth]; lra|]. split.
  - unfold orthogonal3. split; mnorm; repeat (f_equal; try lra).
  - intros i Hi. destruct i as [|[|[|i]]]; [| | |lia];
      cbv [mulv3 column3 cscale cm3 get nth Nat.add Nat.mul cx cy cz]; f_equal; lra.
Qed.

Lemma eigen_of_moving_scatter :
  eigen_of (scatterMatrix moving st0)
           (dsyev_moving "V" "U" 3 (scatterMatrix moving st0) 3).
Proof.
  rewrite dsyev_moving_scatter, scatterMatrix_moving. unfold eigen_of.
  cbv [syev_A syev_W]. split; [cbv [get nth]; lra|]. split.
  - unfold orthogonal3. split; mnorm; repeat (f_equal; try lra).
  - intros i Hi. destruct i as [|[|[|i]]]; [| | |lia];
      cbv [mulv3 column3 cscale cm3 get nth Nat.add Nat.mul cx cy cz]; f_equal; lra.
Qed.

(** C4 on [moving]: the axes of the inertia tensor diag(20,40,52) come back
    as z, y, x with (52,40,20)/4, those of the scatter matrix diag(36,16,4)
    as x, y, z with (36,16,4)/4. *)
Lemma eigen_results_descending_witness :
  let rI := [mkCoord 0 0 1; mkCoord 0 1 0; mkCoord 1 0 0; cdiv (mkCoord 52 40 20) (INR 4)] in
  let rC := [mkCoord 1 0 0; mkCoord 0 1 0; mkCoord 0 0 1; cdiv (mkCoord 36 16 4) (INR 4)] in
  momentsOfInertia dsyev_moving moving st0 = (Ok rI, st0) /\
  principalAxes dsyev_moving moving st0 = (Ok rC, st0) /\
  ordered_eigen_results (inertiaMatrix moving st0) 4
    (dsyev_moving "V" "U" 3 (inertiaMatrix moving st0) 3) rI /\
  ordered_eigen_results (scatterMatrix moving st0) 4
    (dsyev_moving "V" "U" 3 (scatterMatrix moving st0) 3) rC.
Proof.
  cbv zeta.
  assert (HrI : momentsOfInertia dsyev_moving moving st0
                = (Ok [mkCoord 0 0 1; mkCoord 0 1 0; mkCoord 1 0 0;
                       cdiv (mkCoord 52 40 20) (INR 4)], st0)).
  { rewrite momentsOfInertia_run, dsyev_moving_inertia. reflexivity. }
  assert (HrC : principalAxes dsyev_moving moving st0
                = (Ok [mkCoord 1 0 0; mkCoord 0 1 0; mkCoord 0 0 1;
                       cdiv (mkCoord 36 16 4) (INR 4)], st0)).
  { rewrite principalAxes_run, dsyev_moving_scatter. reflexivity. }
  split; [exact HrI|]. split; [exact HrC|].
  destruct (eigen_results_descending dsyev_moving moving st0
              (fun _ => eigen_of_moving_inertia) (fun _ => eigen_of_moving_scatter))
    as (_ & _ & HI & HC).
  split.
  - exact (proj2 (HI _ _ HrI)).
  - exact (proj2 (HC _ _ HrC)).
Defined.

(* ================================================================= *)
(** ** What superposition and alignOnto do to the store *)

Section Frame.

Variable dgesvd_ : ascii -> ascii -> nat -> nat -> arr -> nat -> nat -> nat -> dgesvd_out.

(** C10: superposition hands back the store it was given, whether it
    returns or throws; alignOnto throws what superposition throws, without
    touching the store, and otherwise returns the transform M of
    superposition in a store where every atom of the moving group (listed
    once) has its coordinates replaced by their image under M, its mass
    kept, and every other atom is as before. *)
Theorem superposition_frame self grp st :
  NoDup (atoms self) ->
  snd (superposition dgesvd_ self grp st) = st /\
  (forall e, fst (superposition dgesvd_ self grp st) = Throw e ->
     alignOnto dgesvd_ self grp st = (Throw e, st)) /\
  (forall M, fst (superposition dgesvd_ self grp st) = Ok M ->
     exists st',
       alignOnto dgesvd_ self grp st = (Ok M, st') /\
       (forall p, In p (atoms self) ->
          st' p = mkAtom (gapply M (coords (st p))) (mass (st p))) /\
       (forall p, ~ In p (atoms self) -> st' p = st p)).
Proof.
  intros Hnd.
  assert (Hst : snd (superposition dgesvd_ self grp st) = st).
  { rewrite superposition_run. reflexivity. }
  split; [exact Hst|].
  rewrite alignOnto_run.
  destruct (superposition dgesvd_ self grp st) as [[M|e] st'] eqn:E;
    cbn [fst snd] in *; subst st'.
  - split; [intros e H; discriminate|].
    intros M' [= <-]. eexists. split; [reflexivity|]. split.
    + intros p Hp. now rewrite applyTransform_inside.
    + intros p Hp. now apply applyTransform_outside.
  - split; [now intros e' [= <-]|]. intros M H. discriminate.
Qed.

End Frame.

Import Examples.

(** C10 on [moving] and [rotated]: the atoms of [rotated] keep their
    coordinates through alignOnto, and atom 0 of [moving] lands on atom 4. *)
Lemma superposition_frame_witness :
  snd (superposition svd_rotated moving rotated st0) = st0 /\
  exists M st',
    alignOnto svd_rotated moving rotated st0 = (Ok M, st') /\
    st' 0%nat = mkAtom (gapply M (mkCoord 3 2 1)) 1 /\
    st' 4%nat = st0 4%nat.
Proof.
  assert (Hnd : NoDup (atoms moving)).
  { unfold moving, atoms. repeat constructor; cbn; intuition lia. }
  destruct (superposition_frame svd_rotated moving rotated st0 Hnd) as (H1 & _ & H3).
  split; [exact H1|].
  destruct superposition_recovers_rotation as (W & HW & _).
  destruct (H3 W) as (st' & Ha & Hin & Hout).
  { now rewrite HW. }
  exists W, st'. split; [exact Ha|]. split.
  - apply (Hin 0%nat). cbn. tauto.
  - apply Hout. cbn. intuition lia.
Defined.

(* ================================================================= *)
(** ** DCDWriter::writeFrame *)

Module DCDFacts.

Import DCD.
Local Open Scope Z_scope.

Lemma extends_refl s : extends s s [].
Proof. split; [reflexivity | now rewrite app_nil_r]. Qed.

Lemma extends_trans s1 s2 s3 o1 o2 :
  extends s1 s2 o1 -> extends s2 s3 o2 -> extends s1 s3 (o1 ++ o2).
Proof.
  intros [F1 C1] [F2 C2]. split; [congruence|].
  now rewrite C2, C1, app_assoc.
Qed.

Lemma extends_write s b : extends s (stream_write s b) [OpWrite b].
Proof.
  unfold stream_write, logged. cbn [failbit calls pos data].
  destruct (failbit s) eqn:E; split; cbn; auto.
Qed.

Lemma extends_seekp s off : extends s (seekp s off) [OpSeekBegin off].
Proof.
  unfold seekp, logged. cbn [failbit calls pos data].
  destruct (failbit s) eqn:E; split; cbn; auto.
Qed.

Lemma extends_seekp_end s : extends s (seekp_end s) [OpSeekEnd].
Proof.
  unfold seekp_end, logged. cbn [failbit calls pos data].
  destruct (failbit s) eqn:E; split; cbn; auto.
Qed.

Lemma extends_flush s : extends s (flush s) [OpFlush].
Proof. unfold flush, logged. split; reflexivity. Qed.

Section Encodings.

Variable float_bytes : R -> list Byte.byte.
Variable double_bytes : R -> list Byte.byte.

Lemma extends_writeF77Line s b len :
  extends s (writeF77Line s b len)
          (map OpWrite [uint_bytes len; firstn (Z.to_nat len) b; uint_bytes len]).
Proof.
  unfold writeFrame, writeF77Line. cbv zeta.
  change (map OpWrite [uint_bytes len; firstn (Z.to_nat len) b; uint_bytes len])
    with ([OpWrite (uint_bytes len)] ++ [OpWrite (firstn (Z.to_nat len) b)]
          ++ [OpWrite (uint_bytes len)]).
  eapply extends_trans; [apply extends_write|].
  eapply extends_trans; apply extends_write.
Qed.

(** writeHeader only writes, and only the stream changes. *)
Lemma writeHeader_extends w :
  exists header,
    extends (_ofs w) (_ofs (writeHeader float_bytes w)) (map OpWrite header) /\
    writeHeader float_bytes w = with_ofs w (_ofs (writeHeader float_bytes w)).
Proof.
  unfold writeHeader. cbv zeta. cbn [_ofs with_ofs].
  match goal with
  | |- exists _,
        extends _ (writeF77Line (writeF77Line (writeF77Line ?s ?b1 ?l1) ?b2 ?l2) ?b3 ?l3) _
        /\ _ =>
      pose proof (extends_writeF77Line s b1 l1) as X1;
      pose proof (extends_writeF77Line (writeF77Line s b1 l1) b2 l2) as X2;
      pose proof (extends_writeF77Line
                    (writeF77Line (writeF77Line s b1 l1) b2 l2) b3 l3) as X3
  end.
  pose proof (extends_trans _ _ _ _ _ (extends_trans _ _ _ _ _ X1 X2) X3) as X.
  rewrite <- !map_app in X. eexists. split; [exact X | reflexivity].
Qed.

Lemma writeBox_extends w b :
  exists recs,
    extends (_ofs w) (_ofs (writeBox double_bytes w b)) (map OpWrite recs) /\
    writeBox double_bytes w b = with_ofs w (_ofs (writeBox double_bytes w b)).
Proof.
  unfold writeBox. cbn [_ofs with_ofs]. eexists. split; [|reflexivity].
  apply extends_writeF77Line.
Qed.

Lemma writeCoordLine_extends w grp st comp :
  exists recs,
    extends (_ofs w) (_ofs (writeCoordLine float_bytes w grp st comp)) (map OpWrite recs) /\
    writeCoordLine float_bytes w grp st comp
    = with_ofs w (_ofs (writeCoordLine float_bytes w grp st comp)).
Proof.
  unfold writeCoordLine. cbn [_ofs with_ofs]. eexists. split; [|reflexivity].
  apply extends_writeF77Line.
Qed.

Lemma rewriteHeader_extends w :
  exists header,
    extends (_ofs w) (_ofs (rewriteHeader float_bytes w))
            ([OpSeekBegin 0] ++ map OpWrite header ++ [OpSeekEnd]) /\
    _nsteps (rewriteHeader float_bytes w) = uint (_nsteps w + 1) /\
    _current (rewriteHeader float_bytes w) = _current w /\
    _natoms (rewriteHeader float_bytes w) = _natoms w /\
    _has_box (rewriteHeader float_bytes w) = _has_box w.
Proof.
  unfold rewriteHeader. cbv zeta.
  set (w1 := with_nsteps (with_ofs w (seekp (_ofs w) 0)) _).
  destruct (writeHeader_extends w1) as (header & Hx & Hw).
  exists header. rewrite Hw. cbn [_ofs with_ofs _nsteps _current _natoms _has_box].
  split; [|repeat split].
  eapply extends_trans; [apply extends_seekp|].
  eapply extends_trans; [exact Hx|]. apply extends_seekp_end.
Qed.

Lemma appendRecords_extends w grp st :
  exists recs,
    extends (_ofs w) (_ofs (appendRecords float_bytes double_bytes w grp st))
            (map OpWrite recs ++ [OpFlush]) /\
    _nsteps (appendRecords float_bytes double_bytes w grp st) = _nsteps w /\
    _current (appendRecords float_bytes double_bytes w grp st) = uint (_current w + 1).
Proof.
  unfold appendRecords. cbv zeta.
  set (w1 := if _has_box w then writeBox double_bytes w (periodicBox grp) else w).
  assert (H1 : exists r1, extends (_ofs w) (_ofs w1) (map OpWrite r1)
                          /\ w1 = with_ofs w (_ofs w1)).
  { unfold w1. destruct (_has_box w).
    - apply writeBox_extends.
    - exists []. split; [apply extends_refl | now destruct w]. }
  destruct H1 as (r1 & X1 & E1).
  destruct (writeCoordLine_extends w1 grp st cx) as (r2 & X2 & E2).
  set (w2 := writeCoordLine float_bytes w1 grp st cx) in *.
  destruct (writeCoordLine_extends w2 grp st cy) as (r3 & X3 & E3).
  set (w3 := writeCoordLine float_bytes w2 grp st cy) in *.
  destruct (writeCoordLine_extends w3 grp st cz) as (r4 & X4 & E4).
  set (w4 := writeCoordLine float_bytes w3 grp st cz) in *.
  exists (r1 ++ r2 ++ r3 ++ r4).
  cbn [_ofs with_ofs with_current _nsteps _current]. split; [|split].
  - rewrite !map_app, <- !app_assoc.
    eapply extends_trans; [exact X1|].
    eapply extends_trans; [exact X2|].
    eapply extends_trans; [exact X3|].
    eapply extends_trans; [exact X4|]. apply extends_flush.
  - rewrite E4, E3, E2, E1. reflexivity.
  - rewrite E4, E3, E2, E1. reflexivity.
Qed.

Lemma appendRecords_shape w grp st :
  _natoms (appendRecords float_bytes double_bytes w grp st) = _natoms w /\
  _has_box (appendRecords float_bytes double_bytes w grp st) = _has_box w.
Proof.
  unfold appendRecords, writeCoordLine, writeBox. cbv zeta.
  destruct (_has_box w) eqn:E; cbn; rewrite ?E; split; reflexivity.
Qed.

(** writeFrame is its four steps. *)
Lemma writeFrame_steps w grp st :
  writeFrame float_bytes double_bytes w grp st =
  if frameRejected w grp then
    (Throw (RuntimeError
              (if negb (Z.of_nat (size grp) =? _natoms w)
               then "Frame group atom count mismatch"
               else "Periodic box data was requested for the DCD but the passed frame is missing it")),
     w)
  else
    let w0 := established w grp in
    if _nsteps w0 <=? _current w0 then
      if failbit (_ofs (rewriteHeader float_bytes w0))
      then (Throw (RuntimeError "Error while re-writing DCD header"),
            rewriteHeader float_bytes w0)
      else (Ok tt, appendRecords float_bytes double_bytes (rewriteHeader float_bytes w0) grp st)
    else (Ok tt, appendRecords float_bytes double_bytes w0 grp st).
Proof.
  unfold writeFrame, frameRejected, established. cbv zeta.
  destruct (_natoms w =? 0) eqn:E0; cbn [negb andb].
  - destruct (_nsteps _ <=? _current _); [|reflexivity].
    fold (rewriteHeader float_bytes
            (with_frame_shape w (Z.of_nat (size grp)) (isPeriodic grp))).
    destruct (failbit _); reflexivity.
  - destruct (negb (Z.of_nat (size grp) =? _natoms w)); cbn [orb]; [reflexivity|].
    destruct (_has_box w && negb (isPeriodic grp)); [reflexivity|].
    destruct (_nsteps _ <=? _current _); [|reflexivity].
    fold (rewriteHeader float_bytes w).
    destruct (failbit _); reflexivity.
Qed.


(** A frame that passes the test, on a good stream: writeFrame returns,
    the stream is still good and its log has grown by calls that end in
    the flush, the frame is counted, and the atom count and the box flag
    are those of the writer, or those of the frame when the atom count was
    0. *)
Lemma writeFrame_accepted w grp st :
  frameRejected w grp = false -> failbit (_ofs w) = false ->
  exists w' ops,
    writeFrame float_bytes double_bytes w grp st = (Ok tt, w') /\
    failbit (_ofs w') = false /\
    calls (_ofs w') = calls (_ofs w) ++ ops ++ [OpFlush] /\
    _current w' = uint (_current w + 1) /\
    _natoms w' = (if _natoms w =? 0 then Z.of_nat (size grp) else _natoms w) /\
    _has_box w' = (if _natoms w =? 0 then isPeriodic grp else _has_box w).
Proof.
  intros Hacc F. rewrite writeFrame_steps, Hacc. cbv zeta.
  set (w0 := established w grp).
  assert (H0 : _ofs w0 = _ofs w /\ _current w0 = _current w /\
               _natoms w0 = (if _natoms w =? 0 then Z.of_nat (size grp) else _natoms w) /\
               _has_box w0 = (if _natoms w =? 0 then isPeriodic grp else _has_box w)).
  { unfold w0, established. destruct (_natoms w =? 0); repeat split. }
  destruct H0 as (O0 & C0 & A0 & B0).
  destruct (_nsteps w0 <=? _current w0).
  - destruct (rewriteHeader_extends w0) as (header & [F1 X1] & _ & C1 & A1 & B1).
    rewrite F1, O0, F.
    destruct (appendRecords_extends (rewriteHeader float_bytes w0) grp st)
      as (recs & [F2 X2] & _ & C2).
    destruct (appendRecords_shape (rewriteHeader float_bytes w0) grp st) as (A2 & B2).
    eexists. exists (([OpSeekBegin 0] ++ map OpWrite header ++ [OpSeekEnd])
                     ++ map OpWrite recs).
    split; [reflexivity|]. split; [congruence|]. split.
    { rewrite X2, X1, O0, <- !app_assoc. reflexivity. }
    split; [congruence|]. split; congruence.
  - destruct (appendRecords_extends w0 grp st) as (recs & [F2 X2] & _ & C2).
    destruct (appendRecords_shape w0 grp st) as (A2 & B2).
    eexists. exists (map OpWrite recs).
    split; [reflexivity|]. split; [congruence|]. split.
    { rewrite X2, O0. reflexivity. }
    split; [congruence|]. split; congruence.
Qed.

(** C9 (as amended): once an atom count is established (it is not 0), a
    frame of another size, or a frame without a periodic box when box
    records are being written, makes writeFrame throw and leaves the
    writer exactly as it was: stream contents and position, frames
    written, atom count, step count and box flag. *)
Theorem writeFrame_rejects w grp st :
  _natoms w <> 0 ->
  Z.of_nat (size grp) <> _natoms w \/ (_has_box w = true /\ isPeriodic grp = false) ->
  exists msg,
    writeFrame float_bytes double_bytes w grp st = (Throw (RuntimeError msg), w) /\
    framesWritten (snd (writeFrame float_bytes double_bytes w grp st)) = framesWritten w.
Proof.
  intros Hn Hbad. rewrite writeFrame_steps.
  assert (Hrej : frameRejected w grp = true).
  { unfold frameRejected. apply andb_true_iff. split.
    - apply negb_true_iff, Z.eqb_neq, Hn.
    - apply orb_true_iff. destruct Hbad as [Hs|[Hb Hp]].
      + left. apply negb_true_iff, Z.eqb_neq, Hs.
      + right. now rewrite Hb, Hp. }
  rewrite Hrej. eexists. split; reflexivity.
Qed.

End Encodings.

Import Examples.


(** C9 (as amended) after a first frame of four atoms: a frame of two is
    refused and the writer stays as the first frame left it. *)
Lemma writeFrame_rejects_witness :
  exists w1,
    writeFrame (zero_bytes 4) (zero_bytes 8) fresh_writer moving st0 = (Ok tt, w1) /\
    framesWritten w1 = 1 /\
    exists msg,
      writeFrame (zero_bytes 4) (zero_bytes 8) w1 pair st1
      = (Throw (RuntimeError msg), w1) /\
      framesWritten (snd (writeFrame (zero_bytes 4) (zero_bytes 8) w1 pair st1))
      = framesWritten w1.
Proof.
  destruct (writeFrame_accepted (zero_bytes 4) (zero_bytes 8) fresh_writer moving st0)
    as (w1 & ops & Hrun & _ & _ & C1 & A1 & _); [reflexivity | reflexivity |].
  exists w1. split; [exact Hrun|]. split; [exact C1|].
  apply (writeFrame_rejects (zero_bytes 4) (zero_bytes 8) w1 pair st1).
  - rewrite A1. cbn. lia.
  - left. rewrite A1. cbn. lia.
Defined.

(** C9 as the spec words it, for every call after the first frame, fails
    after a first frame of no atom: the atom count stays 0, so a second
    frame, of four atoms, is taken as a first frame again: writeFrame
    returns, the atom count becomes 4, the frame is counted and written. *)
Lemma writeFrame_after_empty_frame :
  exists w1 w2,
    writeFrame (zero_bytes 4) (zero_bytes 8) fresh_writer nobody st0 = (Ok tt, w1) /\
    framesWritten w1 = 1 /\ _natoms w1 = 0 /\
    Z.of_nat (size moving) <> _natoms w1 /\
    writeFrame (zero_bytes 4) (zero_bytes 8) w1 moving st0 = (Ok tt, w2) /\
    framesWritten w2 = 2 /\ _natoms w2 = 4 /\
    calls (_ofs w2) <> calls (_ofs w1).
Proof.
  destruct (writeFrame_accepted (zero_bytes 4) (zero_bytes 8) fresh_writer nobody st0)
    as (w1 & ops1 & Hrun1 & F1 & _ & C1 & A1 & B1); [reflexivity | reflexivity |].
  cbn in C1, A1, B1.
  destruct (writeFrame_accepted (zero_bytes 4) (zero_bytes 8) w1 moving st0)
    as (w2 & ops2 & Hrun2 & _ & X2 & C2 & A2 & _).
  { unfold frameRejected. rewrite A1. reflexivity. }
  { exact F1. }
  rewrite A1 in A2. rewrite C1 in C2. cbn in A2, C2.
  exists w1, w2. repeat split; try assumption.
  - rewrite A1. cbn. lia.
  - rewrite X2. intros E. rewrite <- (app_nil_r (calls (_ofs w1))) in E at 2.
    apply app_inv_head in E. destruct ops2; discriminate.
Qed.

End DCDFacts.

(* ================================================================= *)
(** ** iterativeAlignment on copies of one structure *)

(** superposition reads the store through the coordinates of the two groups
    only. *)
Lemma centroid_coords g st :
  centroid g st
  = cdiv (fold_left cadd (coordsOf st g) czero) (INR (List.length (coordsOf st g))).
Proof. unfold centroid. now rewrite (coordsOf_size st g). Qed.

Lemma centredCoords_coords g st : centredCoords g st = centredArray (coordsOf st g).
Proof. rewrite centredCoords_eq, centroid_coords. reflexivity. Qed.

Lemma correlationMatrix_coords g h st :
  correlationMatrix g h st = correlationOf (coordsOf st g) (coordsOf st h).
Proof.
  unfold correlationMatrix, correlationOf.
  now rewrite !centredCoords_coords, (coordsOf_size st g).
Qed.

Lemma coordsOf_apart st st' g :
  (forall p, In p (atoms g) -> st' p = st p) -> coordsOf st' g = coordsOf st g.
Proof. intros H. unfold coordsOf. apply map_ext_in. intros p Hp. now rewrite H. Qed.

Section Iterative.

Variable dgesvd_ : ascii -> ascii -> nat -> nat -> arr -> nat -> nat -> nat -> dgesvd_out.

(** superposition of two groups that hold the coordinates cs. *)
Lemma superposition_coords g h st cs :
  let Rm := correlationOf cs cs in
  let out := dgesvd_ "A"%char "A"%char 3 3 Rm 3 3 3 in
  coordsOf st g = cs -> coordsOf st h = cs -> svd_info out = 0%Z ->
  superposition dgesvd_ g h st
  = (Ok (compose_spec (centroidOf cs) (tr3 (rotation_spec (det Rm) out)) (centroidOf cs)),
     st).
Proof.
  intros Rm out Hg Hh Hinfo. rewrite superposition_run. cbv zeta.
  rewrite correlationMatrix_coords, !centroid_coords, Hg, Hh.
  fold Rm out. rewrite Hinfo. reflexivity.
Qed.

(** Aligning every member onto a reference, when all of them and the
    reference hold the coordinates cs and share no atom: each member gets
    the same transform W and ends with the image of cs under W; nothing
    else moves. *)
Lemma alignAll_moved reference cs :
  let Rm := correlationOf cs cs in
  let out := dgesvd_ "A"%char "A"%char 3 3 Rm 3 3 3 in
  let W := compose_spec (centroidOf cs) (tr3 (rotation_spec (det Rm) out)) (centroidOf cs) in
  svd_info out = 0%Z ->
  forall ensemble st,
    NoDup (flat_map atoms ensemble) ->
    (forall g, In g ensemble -> coordsOf st g = cs) ->
    coordsOf st reference = cs ->
    (forall p, In p (flat_map atoms ensemble) -> ~ In p (atoms reference)) ->
    exists st',
      alignAll dgesvd_ ensemble reference st
      = (Ok (repeat W (List.length ensemble)), st') /\
      (forall g, In g ensemble -> coordsOf st' g = map (gapply W) cs) /\
      (forall p, ~ In p (flat_map atoms ensemble) -> st' p = st p).
Proof.
  intros Rm out W Hinfo.
  induction ensemble as [|g rest IH]; intros st Hnd Hcs Href Hapart.
  - exists st. split; [reflexivity|]. split; [intros g []|reflexivity].
  - cbn [flat_map] in Hnd, Hapart.
    assert (Hndg : NoDup (atoms g)) by (eapply NoDup_app_remove_r; exact Hnd).
    assert (Hndr : NoDup (flat_map atoms rest)) by (eapply NoDup_app_remove_l; exact Hnd).
    assert (Hdis : forall p, In p (atoms g) -> ~ In p (flat_map atoms rest)).
    { intros p Hp Hq. revert Hnd Hp Hq. generalize (atoms g) (flat_map atoms rest).
      induction l as [|a l IHl]; intros l' Hnd Hp Hq; [destruct Hp|].
      cbn [app] in Hnd. inversion Hnd as [|a' l'' Ha Hl]; subst.
      destruct Hp as [->|Hp].
      - apply Ha. apply in_or_app. now right.
      - now apply (IHl l'). }
    cbn [alignAll]. unfold bind at 1. rewrite alignOnto_run.
    rewrite (superposition_coords g reference st cs (Hcs g (or_introl eq_refl)) Href Hinfo).
    fold Rm out W.
    set (st1 := applyTransform g (xload xform_new W) st).
    assert (Hin1 : forall p, In p (atoms g) ->
              st1 p = mkAtom (gapply W (coords (st p))) (mass (st p))).
    { intros p Hp. unfold st1. now rewrite applyTransform_inside. }
    assert (Hout1 : forall p, ~ In p (atoms g) -> st1 p = st p).
    { intros p Hp. unfold st1. now apply applyTransform_outside. }
    destruct (IH st1) as (st' & Hrun & Hmoved & Hkept).
    { exact Hndr. }
    { intros h Hh. rewrite <- (Hcs h (or_intror Hh)). apply coordsOf_apart.
      intros p Hp. apply Hout1. intros Hq. apply (Hdis p Hq).
      apply in_flat_map. now exists h. }
    { rewrite <- Href. apply coordsOf_apart. intros p Hp. apply Hout1.
      intros Hq. apply (Hapart p); [|exact Hp]. apply in_or_app. now left. }
    { intros p Hp. apply Hapart. apply in_or_app. now right. }
    exists st'. unfold bind. rewrite Hrun. split; [reflexivity|]. split.
    + intros h [<-|Hh]; [|now apply Hmoved].
      transitivity (coordsOf st1 g).
      * apply coordsOf_apart. intros p Hp. apply Hkept. now apply Hdis.
      * rewrite <- (Hcs g (or_introl eq_refl)). unfold coordsOf. rewrite map_map.
        apply map_ext_in. intros p Hp. now rewrite (Hin1 p Hp).
    + intros p Hp. rewrite Hkept.
      * apply Hout1. intros Hq. apply Hp. apply in_or_app. now left.
      * intros Hq. apply Hp. apply in_or_app. now right.
Qed.

End Iterative.

(** *** The average of identical members *)

Lemma fold_cadd_const {A} (l : list A) c : forall a,
  fold_left cadd (map (fun _ => c) l) a = cadd a (cscale (INR (List.length l)) c).
Proof.
  induction l as [|x l IH]; intros a.
  - cbn. unfold cadd, cscale. destruct a. cbn. f_equal; ring.
  - cbn [map fold_left List.length]. rewrite IH, S_INR.
    unfold cadd, cscale. cbn. f_equal; ring.
Qed.

Lemma map_nth_seq (l : list GCoord) :
  map (fun i => nth i l czero) (seq 0 (List.length l)) = l.
Proof.
  apply nth_ext with (d := czero) (d' := czero).
  - now rewrite length_map, length_seq.
  - intros n Hn. rewrite length_map, length_seq in Hn.
    rewrite (nth_indep _ czero (nth 0 l czero)) by now rewrite length_map, length_seq.
    rewrite (map_nth (fun i => nth i l czero)), seq_nth by exact Hn. reflexivity.
Qed.

Lemma averageCoords_identical ensemble st cs :
  ensemble <> [] ->
  (forall g, In g ensemble -> coordsOf st g = cs) ->
  averageCoords ensemble st = cs.
Proof.
  intros Hne Hcs. destruct ensemble as [|first rest]; [congruence|].
  unfold averageCoords.
  rewrite (coordsOf_size st first), (Hcs first (or_introl eq_refl)).
  rewrite <- (map_nth_seq cs) at 2. apply map_ext. intros i.
  rewrite (map_ext_in _ (fun _ => nth i cs czero))
    by (intros g Hg; now rewrite (Hcs g Hg)).
  rewrite fold_cadd_const.
  assert (Hm : INR (List.length (first :: rest)) <> 0).
  { apply not_0_INR. discriminate. }
  unfold cdiv, cadd, cscale, czero. cbn [cx cy cz].
  destruct (nth i cs (mkCoord 0 0 0)) as [x y z]. cbn [cx cy cz].
  f_equal; field; exact Hm.
Qed.

(** *** Writing coordinates into a group *)

Lemma setCoords_fold_outside pcs : forall st p,
  ~ In p (map fst pcs) ->
  fold_left (fun s pc => set_coords s (fst pc) (snd pc)) pcs st p = st p.
Proof.
  induction pcs as [|[a c] pcs IH]; intros st p Hp; cbn [fold_left]; [reflexivity|].
  rewrite IH by (intros H; apply Hp; now right).
  unfold set_coords. cbn [fst snd].
  destruct (Nat.eqb_spec p a) as [->|_]; [|reflexivity].
  exfalso. apply Hp. now left.
Qed.

Lemma in_combine_fst {A B} (l : list A) (l' : list B) x :
  In x (map fst (combine l l')) -> In x l.
Proof.
  intros H. apply in_map_iff in H as [[a b] [<- H]]. now apply in_combine_l in H.
Qed.

Lemma setAllCoords_outside g cs st p :
  ~ In p (atoms g) -> setAllCoords g cs st p = st p.
Proof.
  intros Hp. unfold setAllCoords. apply setCoords_fold_outside.
  intros H. apply Hp. now apply in_combine_fst in H.
Qed.

Lemma setCoords_fold_coords l : forall cs st,
  NoDup l -> List.length cs = List.length l ->
  map (fun p => coords (fold_left (fun s pc => set_coords s (fst pc) (snd pc))
                                  (combine l cs) st p)) l = cs.
Proof.
  induction l as [|a l IH]; intros cs st Hnd Hlen.
  - destruct cs; [reflexivity | discriminate].
  - destruct cs as [|c cs]; [discriminate|].
    inversion Hnd as [|a' l' Ha Hl]; subst.
    cbn [combine fold_left map fst snd]. f_equal.
    + rewrite setCoords_fold_outside.
      * unfold set_coords. now rewrite Nat.eqb_refl.
      * intros H. apply Ha. now apply in_combine_fst in H.
    + apply IH; [exact Hl | now injection Hlen].
Qed.

Lemma setAllCoords_coords g cs st :
  NoDup (atoms g) -> List.length cs = size g ->
  coordsOf (setAllCoords g cs st) g = cs.
Proof. intros Hnd Hlen. unfold coordsOf, setAllCoords. now apply setCoords_fold_coords. Qed.

(** The storage of the reference is apart from every member. *)
Lemma freshGroup_apart ensemble n g p :
  In g ensemble -> In p (atoms g) -> ~ In p (atoms (freshGroup ensemble n)).
Proof.
  intros Hg Hp H. unfold freshGroup in H. cbn [atoms] in H.
  apply in_seq in H as [H _].
  assert (Hin : In p (flat_map atoms ensemble)).
  { apply in_flat_map. now exists g. }
  pose proof (list_max_le (flat_map atoms ensemble) (list_max (flat_map atoms ensemble)))
    as [Hmax _].
  specialize (Hmax (Nat.le_refl _)).
  rewrite Forall_forall in Hmax. specialize (Hmax p Hin). lia.
Qed.

Import Examples.

Section Iterative.

Variable dgesvd_ : ascii -> ascii -> nat -> nat -> arr -> nat -> nat -> nat -> dgesvd_out.

(** The iterations count up: what a call that still has an iteration to
    perform returns is numbered after those done. *)
Lemma iterateAlignment_count ensemble reference threshold :
  forall remaining done st xforms rms n st',
    iterateAlignment dgesvd_ (S remaining) done ensemble reference threshold st
    = (Ok (xforms, rms, n), st') ->
    (done < n)%nat.
Proof.
  induction remaining as [|k IH]; intros done st xforms rms n st' H;
    cbn [iterateAlignment] in H; unfold bind at 1 in H;
    destruct (alignAll dgesvd_ ensemble reference st) as [[xs|e] st1];
    try discriminate;
    unfold bind, reads, modify, ret in H.
  - destruct (Rlt_dec _ threshold); injection H as _ _ <- _; lia.
  - destruct (Rlt_dec _ threshold).
    + injection H as _ _ <- _. lia.
    + apply IH in H. lia.
Qed.

(** C7 (the code misses it): on the ensemble of [wide] and its copy,
    whatever decomposition of their scatter matrix the SVD returns, whatever
    the threshold and the number of iterations allowed: when
    iterativeAlignment returns after 1 iteration, the two transforms it
    returns are one transform whose rotation part has determinant -1, not
    the identity, and the RMSD it returns is 1, not 0.  The computed
    determinant is negative (the determinant of the matrix is not), so
    alignOnto mirrors every member. *)
Theorem iterativeAlignment_mirrors_wide threshold maxiter xforms rms st' :
  let cs := coordsOf st2 wide in
  let Rm := correlationOf cs cs in
  let out := dgesvd_ "A"%char "A"%char 3 3 Rm 3 3 3 in
  svd_info out = 0%Z -> svd_of Rm out ->
  iterativeAlignment dgesvd_ [wide; wide_copy] threshold maxiter st2
  = (Ok (xforms, rms, 1%nat), st') ->
  (forall g, In g [wide; wide_copy] -> coordsOf st2 g = cs) /\
  exists W,
    xforms = [W; W] /\ det3 (rotationPart W) = -1 /\ W <> gidentity /\ rms = 1.
Proof.
  intros cs Rm out Hinfo Hsvd Hrun.
  split; [intros g [<-|[<-|[]]]; reflexivity|].
  assert (HRm : Rm = correlationMatrix wide wide_copy st2).
  { unfold Rm, cs. now rewrite correlationMatrix_coords. }
  set (W := compose_spec (centroidOf cs) (tr3 (rotation_spec (det Rm) out)) (centroidOf cs)).
  assert (Hc0 : centroidOf cs = mkCoord 0 0 0).
  { unfold cs. rewrite <- centroid_wide. symmetry. apply centroid_coords. }
  set (A := tr3 (rotation_spec (det Rm) out)) in *.
  assert (Hdet : det3 A = -1).
  { unfold A. rewrite rotation_spec_det.
    rewrite (svd_det_pos Rm out Hsvd) by (rewrite HRm, det3_wide; lra).
    rewrite HRm, det_wide. cbn. ring. }
  assert (Hg : forall c, gapply W c = mulv3 A c).
  { intros [x y z]. unfold W. rewrite Hc0, gapply_compose. unfold cadd, csub.
    mnorm. f_equal; ring. }
  exists W.
  (* the first pass *)
  unfold iterativeAlignment in Hrun.
  set (ensemble := [wide; wide_copy]) in *.
  set (reference := freshGroup ensemble (size wide)) in *.
  unfold bind at 1, reads at 1 in Hrun. unfold bind at 1, modify at 1 in Hrun.
  fold cs in Hrun.
  set (st1 := setAllCoords reference cs st2) in *.
  assert (Hapart : forall p, In p (flat_map atoms ensemble) -> ~ In p (atoms reference)).
  { intros p Hp. apply in_flat_map in Hp as (g & Hg' & Hp).
    now apply (freshGroup_apart ensemble _ g). }
  assert (Hmem1 : forall g, In g ensemble -> coordsOf st1 g = cs).
  { intros g Hg'. transitivity (coordsOf st2 g).
    - apply coordsOf_apart. intros p Hp. apply setAllCoords_outside.
      apply Hapart. apply in_flat_map. now exists g.
    - destruct Hg' as [<-|[<-|[]]]; reflexivity. }
  assert (Href1 : coordsOf st1 reference = cs).
  { apply setAllCoords_coords.
    - unfold reference, freshGroup. cbn [atoms]. apply seq_NoDup.
    - reflexivity. }
  assert (Hnd : NoDup (flat_map atoms ensemble)).
  { unfold ensemble, wide, wide_copy. cbn [flat_map atoms app].
    repeat constructor; cbn; intuition lia. }
  destruct maxiter as [|k]; [discriminate|].
  destruct (alignAll_moved dgesvd_ reference cs Hinfo ensemble st1 Hnd Hmem1 Href1 Hapart)
    as (st1' & Hall & Hmoved & Hkept).
  fold Rm out W in Hall, Hmoved.
  assert (Href2 : coordsOf st1' reference = cs).
  { rewrite <- Href1. apply coordsOf_apart. intros p Hp. apply Hkept.
    intros Hq. exact (Hapart p Hq Hp). }
  assert (Havg : averageCoords ensemble st1' = map (gapply W) cs).
  { apply averageCoords_identical; [discriminate | exact Hmoved]. }
  assert (Hrms : rmsdCoords (map (gapply W) cs) cs = 1).
  { rewrite (map_ext _ _ Hg). unfold A, rotation_spec.
    rewrite adjustU_neg by (rewrite HRm, det_wide; reflexivity).
    apply rmsd_wide_mirrored. rewrite <- HRm. exact Hsvd. }
  assert (Hfirst : forall r,
            (if Rlt_dec (rmsdCoords (map (gapply W) cs) cs) threshold
             then ret (repeat W 2, rmsdCoords (map (gapply W) cs) cs, 1%nat)
             else r) (setAllCoords reference (map (gapply W) cs) st1')
            = (Ok (xforms, rms, 1%nat), st') ->
            (forall s, r s = (Ok (xforms, rms, 1%nat), st') ->
               xforms = [W; W] /\ rms = rmsdCoords (map (gapply W) cs) cs) ->
            xforms = [W; W] /\ rms = rmsdCoords (map (gapply W) cs) cs).
  { intros r H Hr. destruct (Rlt_dec _ threshold).
    - unfold ret in H. injection H as <- <- _. now split.
    - exact (Hr _ H). }
  assert (Hend : xforms = [W; W] /\ rms = rmsdCoords (map (gapply W) cs) cs).
  { cbn [iterateAlignment] in Hrun. unfold bind at 1 in Hrun. rewrite Hall in Hrun.
    unfold bind at 1, reads at 1 in Hrun. unfold bind at 1, reads at 1 in Hrun.
    unfold bind at 1, modify at 1 in Hrun.
    rewrite Havg, Href2 in Hrun.
    apply (Hfirst _ Hrun). intros s Hs. destruct k as [|k'].
    - unfold ret in Hs. injection Hs as <- <- _. now split.
    - apply iterateAlignment_count in Hs. lia. }
  destruct Hend as (-> & ->).
  split; [reflexivity|]. split; [|split; [|exact Hrms]].
  - unfold W. rewrite rotationPart_compose, det3_buffer. exact Hdet.
  - intros E. assert (Hd : det3 (rotationPart W) = -1)
      by (unfold W; rewrite rotationPart_compose, det3_buffer; exact Hdet).
    rewrite E in Hd. revert Hd. mnorm. lra.
Qed.

End Iterative.

Lemma correlationOf_wide :
  correlationOf (coordsOf st2 wide) (coordsOf st2 wide)
  = correlationMatrix wide wide_copy st2.
Proof. now rewrite correlationMatrix_coords. Qed.

(** C7 with the decomposition [svd_wide], the threshold 1/1000 and one
    iteration allowed: the call returns after that iteration, with a
    reflection for each member and the RMSD 1. *)
Lemma iterativeAlignment_mirrors_wide_witness :
  exists xforms rms st',
    iterativeAlignment svd_wide [wide; wide_copy] (1 / 1000) 1 st2
    = (Ok (xforms, rms, 1%nat), st') /\
    exists W,
      xforms = [W; W] /\ det3 (rotationPart W) = -1 /\ W <> gidentity /\ rms = 1.
Proof.
  assert (Hrun : exists xforms rms st',
             iterativeAlignment svd_wide [wide; wide_copy] (1 / 1000) 1 st2
             = (Ok (xforms, rms, 1%nat), st')).
  { unfold iterativeAlignment. unfold bind at 1, reads at 1. unfold bind at 1, modify at 1.
    cbn [iterateAlignment alignAll]. unfold bind, reads, modify, ret.
    rewrite !alignOnto_run, !superposition_run. cbv zeta.
    change (svd_info (svd_wide _ _ _ _ _ _ _ _)) with 0%Z. cbn [Z.eqb].
    rewrite ?alignOnto_run, ?superposition_run. cbv zeta.
    change (svd_info (svd_wide _ _ _ _ _ _ _ _)) with 0%Z. cbn [Z.eqb].
    destruct (Rlt_dec _ (1 / 1000)); eexists; eexists; eexists; reflexivity. }
  destruct Hrun as (xforms & rms & st' & Hrun).
  exists xforms, rms, st'. split; [exact Hrun|].
  apply (iterativeAlignment_mirrors_wide svd_wide (1 / 1000) 1 xforms rms st').
  - reflexivity.
  - rewrite correlationOf_wide. apply svd_wide_ok.
  - exact Hrun.
Defined.

(* ================================================================= *)
(** ** The bytes DCDWriter leaves on its stream *)

Module DCDLayoutFacts.

Import DCD DCDLayout.
Local Open Scope Z_scope.

(** *** fixStringSize *)

Lemma length_spaces i : String.length (spaces i) = i.
Proof. induction i as [|i IH]; cbn; congruence. Qed.

Lemma length_string_app (a b : string) :
  String.length (a ++ b) = (String.length a + String.length b)%nat.
Proof. induction a as [|c a IH]; cbn; congruence. Qed.

Lemma length_substring_0 n : forall s,
  (n <= String.length s)%nat -> String.length (substring 0 n s) = n.
Proof.
  induction n as [|n IH]; intros s H.
  - destruct s; reflexivity.
  - destruct s as [|c s]; cbn in *; [lia|]. rewrite IH; lia.
Qed.

Lemma substring_0_app n : forall s t,
  substring 0 n (s ++ t) =
  if (n <=? String.length s)%nat then substring 0 n s
  else (s ++ substring 0 (n - String.length s) t)%string.
Proof.
  induction n as [|n IH]; intros s t.
  - cbn. destruct s; destruct t; reflexivity.
  - destruct s as [|c s].
    + cbn [append String.length Nat.leb Nat.sub]. reflexivity.
    + cbn [append substring String.length Nat.sub]. rewrite IH.
      change (S n <=? S (String.length s))%nat with (n <=? String.length s)%nat.
      destruct (n <=? String.length s)%nat; reflexivity.
Qed.

Lemma substring_0_spaces k : forall n, (k <= n)%nat -> substring 0 k (spaces n) = spaces k.
Proof.
  induction k as [|k IH]; intros n H.
  - destruct n; reflexivity.
  - destruct n as [|n]; [lia|]. cbn. rewrite IH; [reflexivity | lia].
Qed.

Lemma substring_0_all s : substring 0 (String.length s) s = s.
Proof. induction s as [|c s IH]; cbn; congruence. Qed.

Lemma length_fixStringSize s n : String.length (fixStringSize s n) = n.
Proof.
  unfold fixStringSize.
  destruct (Nat.ltb_spec (String.length s) n) as [Hlt|Hge].
  - rewrite length_string_app, length_spaces. lia.
  - destruct (Nat.ltb_spec n (String.length s)) as [Hgt|Hle].
    + apply length_substring_0. lia.
    + lia.
Qed.

(** X1: fixStringSize(s, n) has exactly n characters: they are the first n
    characters of s followed by n spaces, so a short title is padded with
    spaces and a long one is cut. *)
Theorem fixStringSize_exact s n :
  String.length (fixStringSize s n) = n /\
  fixStringSize s n = substring 0 n (s ++ spaces n).
Proof.
  unfold fixStringSize. rewrite substring_0_app.
  destruct (Nat.ltb_spec (String.length s) n) as [Hlt|Hge].
  - replace (n <=? String.length s)%nat with false by (symmetry; apply Nat.leb_gt; lia).
    rewrite substring_0_spaces by lia. split; [|reflexivity].
    rewrite length_string_app, length_spaces. lia.
  - replace (n <=? String.length s)%nat with true by (symmetry; apply Nat.leb_le; lia).
    destruct (Nat.ltb_spec n (String.length s)) as [Hgt|Hle].
    + split; [|reflexivity]. apply length_substring_0. lia.
    + assert (E : String.length s = n) by lia. split; [exact E|].
      rewrite <- E. symmetry. apply substring_0_all.
Qed.

(** *** Writes at the put position *)

Lemma overwrite_nil d p : overwrite d p [] = d.
Proof. unfold overwrite. cbn. rewrite Nat.add_0_r. apply firstn_skipn. Qed.

Lemma overwrite_end d b : overwrite d (List.length d) b = d ++ b.
Proof.
  unfold overwrite. rewrite firstn_all, skipn_all2 by lia. now rewrite app_nil_r.
Qed.

Lemma overwrite_start h r b :
  List.length b = List.length h -> overwrite (h ++ r) 0 b = b ++ r.
Proof.
  intros E. unfold overwrite. cbn [firstn app Nat.add].
  rewrite E, skipn_app, skipn_all, Nat.sub_diag. reflexivity.
Qed.

Lemma overwrite_empty b : overwrite [] 0 b = b.
Proof. unfold overwrite. cbn. rewrite skipn_nil. apply app_nil_r. Qed.

Lemma length_overwrite d p b :
  (p <= List.length d)%nat ->
  List.length (overwrite d p b) = Nat.max (List.length d) (p + List.length b).
Proof.
  intros H. unfold overwrite. rewrite !length_app, length_firstn, length_skipn. lia.
Qed.

Lemma overwrite_overwrite d p a b :
  (p <= List.length d)%nat ->
  overwrite (overwrite d p a) (p + List.length a) b = overwrite d p (a ++ b).
Proof.
  intros H. unfold overwrite.
  assert (Hf : List.length (firstn p d) = p) by (rewrite length_firstn; lia).
  rewrite (app_assoc (firstn p d) a).
  rewrite firstn_app, firstn_all2 by (rewrite length_app; lia).
  rewrite length_app, Hf.
  replace (p + List.length a - (p + List.length a))%nat with 0%nat by lia.
  cbn [firstn]. rewrite app_nil_r.
  rewrite skipn_app, skipn_all2 by (rewrite length_app; lia).
  rewrite !length_app, Hf. cbn [app].
  replace (p + List.length a + List.length b - (p + List.length a))%nat
    with (List.length b) by lia.
  rewrite skipn_skipn, <- !app_assoc.
  replace (List.length b + (p + List.length a))%nat
    with (p + (List.length a + List.length b))%nat by lia.
  reflexivity.
Qed.

Lemma puts_nil s : puts s s [].
Proof.
  intros F P. split; [exact F|]. split; [cbn; lia|]. now rewrite overwrite_nil.
Qed.

Lemma puts_write s b : puts s (stream_write s b) b.
Proof.
  intros F P. unfold stream_write, logged. cbn [failbit pos data calls]. rewrite F.
  cbn [failbit pos data]. repeat split.
Qed.

Lemma puts_trans s1 s2 s3 a b : puts s1 s2 a -> puts s2 s3 b -> puts s1 s3 (a ++ b).
Proof.
  intros H1 H2 F P. destruct (H1 F P) as (F2 & P2 & D2).
  assert (L2 : (pos s2 <= List.length (data s2))%nat).
  { rewrite D2, length_overwrite by exact P. lia. }
  destruct (H2 F2 L2) as (F3 & P3 & D3).
  split; [exact F3|]. split; [rewrite P3, P2, length_app; lia|].
  rewrite D3, D2, P2. now apply overwrite_overwrite.
Qed.

Lemma puts_writeF77Line s b len : puts s (writeF77Line s b len) (f77Line b len).
Proof.
  unfold writeF77Line, f77Line. cbv zeta.
  eapply puts_trans; [apply puts_write|].
  eapply puts_trans; apply puts_write.
Qed.

(** A good stream that is at or before its end stays so. *)
Lemma puts_within s s' b :
  puts s s' b -> failbit s = false -> (pos s <= List.length (data s))%nat ->
  (pos s' <= List.length (data s'))%nat.
Proof.
  intros H F P. destruct (H F P) as (_ & P' & D').
  rewrite D', length_overwrite by exact P. lia.
Qed.

Lemma length_uint_bytes z : List.length (uint_bytes z) = 4%nat.
Proof. reflexivity. Qed.

Lemma length_list_byte_of_string s :
  List.length (list_byte_of_string s) = String.length s.
Proof.
  unfold list_byte_of_string. rewrite length_map.
  induction s as [|c s IH]; cbn; congruence.
Qed.

Lemma length_f77Line b len :
  List.length (f77Line b len) = (8 + Nat.min (Z.to_nat len) (List.length b))%nat.
Proof.
  unfold f77Line. rewrite !length_app, !length_uint_bytes, length_firstn. lia.
Qed.

Lemma length_titles (titles : list string) :
  List.length (flat_map (fun t => list_byte_of_string (fixStringSize t 80)) titles)
  = (80 * List.length titles)%nat.
Proof.
  induction titles as [|t titles IH]; [reflexivity|].
  cbn [flat_map List.length]. rewrite length_app, IH, length_list_byte_of_string.
  rewrite length_fixStringSize. lia.
Qed.

Section Encodings.

Variable float_bytes : R -> list Byte.byte.
Variable double_bytes : R -> list Byte.byte.

(** writeHeader puts the header bytes at the put position, whatever the
    stream. *)
Lemma writeHeader_puts_at w s :
  puts s (_ofs (writeHeader float_bytes (with_ofs w s))) (headerBytes float_bytes w).
Proof.
  unfold headerBytes, writeHeader. cbv zeta.
  cbn [with_ofs _ofs _natoms _nsteps _timestep _has_box _titles _current].
  match goal with
  | |- puts _ (writeF77Line (writeF77Line (writeF77Line _ ?b1 ?l1) ?b2 ?l2) ?b3 ?l3) _ =>
      assert (H : forall s0, puts s0
                    (writeF77Line (writeF77Line (writeF77Line s0 b1 l1) b2 l2) b3 l3)
                    (f77Line b1 l1 ++ f77Line b2 l2 ++ f77Line b3 l3))
  end.
  { intros s0. eapply puts_trans; [apply puts_writeF77Line|].
    eapply puts_trans; apply puts_writeF77Line. }
  destruct (H empty_stream) as (_ & _ & D); [reflexivity | cbn; lia |].
  cbn [data pos empty_stream] in D. rewrite overwrite_empty in D.
  rewrite D. apply H.
Qed.

Lemma with_ofs_same w : with_ofs w (_ofs w) = w.
Proof. now destruct w. Qed.

Lemma writeHeader_puts w :
  puts (_ofs w) (_ofs (writeHeader float_bytes w)) (headerBytes float_bytes w).
Proof. rewrite <- (with_ofs_same w) at 2. apply writeHeader_puts_at. Qed.

Lemma writeHeader_fields w :
  writeHeader float_bytes w = with_ofs w (_ofs (writeHeader float_bytes w)).
Proof. unfold writeHeader. cbv zeta. cbn [_ofs with_ofs]. reflexivity. Qed.

(** The 21 words of the first record, in order. *)
Lemma icntrl_words (z x0 x1 x2 x3 x4 x8 x9 x10 x11 x20 : list Byte.byte) :
  concat (set (set (set (set (set (set (set (set (set (set
            (repeat z 21) 1 x1) 2 x2) 3 x3) 4 x4) 8 x8) 9 x9) 10 x10) 11 x11) 20 x20)
            0 x0)
  = x0 ++ x1 ++ x2 ++ x3 ++ x4 ++ z ++ z ++ z ++ x8 ++ x9 ++ x10 ++ x11
       ++ z ++ z ++ z ++ z ++ z ++ z ++ z ++ z ++ x20 ++ [].
Proof. reflexivity. Qed.

(** The length of the header: three records, of 84 bytes, of the titles
    and of 4 bytes. *)
Lemma length_headerBytes w :
  List.length (headerBytes float_bytes w)
  = (8 + Nat.min 84 (80 + List.length (float_bytes (_timestep w)))
     + (8 + Nat.min (Z.to_nat (uint (4 + 80 * Z.of_nat (List.length (_titles w)))))
                    (4 + 80 * List.length (_titles w)))
     + 12)%nat.
Proof.
  unfold headerBytes, writeHeader. cbv zeta.
  change (_ofs (with_ofs w empty_stream)) with empty_stream.
  change (_nsteps (with_ofs w empty_stream)) with (_nsteps w).
  change (_natoms (with_ofs w empty_stream)) with (_natoms w).
  change (_timestep (with_ofs w empty_stream)) with (_timestep w).
  change (_has_box (with_ofs w empty_stream)) with (_has_box w).
  change (_titles (with_ofs w empty_stream)) with (_titles w).
  rewrite icntrl_words.
  match goal with
  | |- List.length (data (_ofs (with_ofs _
         (writeF77Line (writeF77Line (writeF77Line _ ?b1 ?l1) ?b2 ?l2) ?b3 ?l3)))) = _ =>
      change (_ofs (with_ofs (with_ofs w empty_stream)
                (writeF77Line (writeF77Line (writeF77Line empty_stream b1 l1) b2 l2)
                              b3 l3)))
        with (writeF77Line (writeF77Line (writeF77Line empty_stream b1 l1) b2 l2) b3 l3);
      assert (H : puts empty_stream
                    (writeF77Line (writeF77Line (writeF77Line empty_stream b1 l1) b2 l2)
                                  b3 l3)
                    (f77Line b1 l1 ++ f77Line b2 l2 ++ f77Line b3 l3))
  end.
  { eapply puts_trans; [apply puts_writeF77Line|].
    eapply puts_trans; apply puts_writeF77Line. }
  destruct H as (_ & _ & D); [reflexivity | apply Nat.le_refl |].
  rewrite D. change (data empty_stream) with (@nil Byte.byte).
  change (pos empty_stream) with 0%nat. rewrite overwrite_empty.
  rewrite !length_app, !length_f77Line, !length_app, length_titles, !length_uint_bytes.
  rewrite length_list_byte_of_string.
  change (String.length "CORD") with 4%nat.
  change (Z.to_nat (21 * 4)) with 84%nat. change (Z.to_nat (1 * 4)) with 4%nat.
  change (List.length (@nil Byte.byte)) with 0%nat.
  lia.
Qed.

Lemma headerBytes_with_ofs w s :
  headerBytes float_bytes (with_ofs w s) = headerBytes float_bytes w.
Proof.
  unfold headerBytes.
  change (with_ofs (with_ofs w s) empty_stream) with (with_ofs w empty_stream).
  reflexivity.
Qed.

Lemma puts_flush s s' b : puts s s' b -> puts s (flush s') b.
Proof. intros H F P. exact (H F P). Qed.

(** The bytes of a frame: the box record when box records are written,
    then the x, y and z records. *)
Lemma appendRecords_puts_at w s grp st :
  puts s (_ofs (appendRecords float_bytes double_bytes (with_ofs w s) grp st))
       ((if _has_box w then boxRecord double_bytes (periodicBox grp) else [])
        ++ coordRecord float_bytes w grp st cx
        ++ coordRecord float_bytes w grp st cy
        ++ coordRecord float_bytes w grp st cz).
Proof.
  unfold appendRecords, writeCoordLine, writeBox, boxRecord, coordRecord. cbv zeta.
  cbn [with_ofs _ofs _natoms _nsteps _timestep _has_box _titles _current with_current].
  destruct (_has_box w);
    cbn [with_ofs _ofs _natoms _nsteps _timestep _has_box _titles _current].
  - apply puts_flush.
    eapply puts_trans; [apply puts_writeF77Line|].
    eapply puts_trans; [apply puts_writeF77Line|].
    eapply puts_trans; apply puts_writeF77Line.
  - apply puts_flush. cbn [app].
    eapply puts_trans; [apply puts_writeF77Line|].
    eapply puts_trans; apply puts_writeF77Line.
Qed.

Lemma frameBytes_eq w grp st :
  frameBytes float_bytes double_bytes w grp st
  = (if _has_box w then boxRecord double_bytes (periodicBox grp) else [])
    ++ coordRecord float_bytes w grp st cx
    ++ coordRecord float_bytes w grp st cy
    ++ coordRecord float_bytes w grp st cz.
Proof.
  unfold frameBytes.
  destruct (appendRecords_puts_at w empty_stream grp st) as (_ & _ & D);
    [reflexivity | cbn; lia |].
  rewrite D. apply overwrite_empty.
Qed.

Lemma appendRecords_puts w grp st :
  puts (_ofs w) (_ofs (appendRecords float_bytes double_bytes w grp st))
       (frameBytes float_bytes double_bytes w grp st).
Proof.
  rewrite frameBytes_eq. rewrite <- (with_ofs_same w) at 2.
  apply appendRecords_puts_at.
Qed.

Lemma appendRecords_fields w grp st :
  let w' := appendRecords float_bytes double_bytes w grp st in
  _natoms w' = _natoms w /\ _nsteps w' = _nsteps w /\ _timestep w' = _timestep w /\
  _has_box w' = _has_box w /\ _titles w' = _titles w /\
  _current w' = uint (_current w + 1).
Proof.
  unfold appendRecords, writeCoordLine, writeBox. cbv zeta.
  destruct (_has_box w) eqn:E; cbn; rewrite ?E; repeat split.
Qed.

(** The header bytes are a function of the header fields. *)
Lemma headerBytes_ext w w' :
  _natoms w' = _natoms w -> _nsteps w' = _nsteps w -> _timestep w' = _timestep w ->
  _has_box w' = _has_box w -> _titles w' = _titles w ->
  headerBytes float_bytes w' = headerBytes float_bytes w.
Proof.
  intros. destruct w, w'.
  cbn [_natoms _nsteps _timestep _has_box _titles] in *. subst.
  unfold headerBytes, writeHeader. cbv zeta.
  cbn [with_ofs _ofs _natoms _nsteps _timestep _has_box _titles]. reflexivity.
Qed.

Lemma frameBytes_ext w w' grp st :
  _natoms w' = _natoms w -> _has_box w' = _has_box w ->
  frameBytes float_bytes double_bytes w' grp st
  = frameBytes float_bytes double_bytes w grp st.
Proof.
  intros Hn Hb. rewrite !frameBytes_eq. unfold coordRecord. now rewrite Hn, Hb.
Qed.

(** X2: the header takes 116 bytes and 80 for each title, whatever the
    atom, frame and box fields hold, when a float takes 4 bytes. *)
Theorem header_size w :
  (forall x, List.length (float_bytes x) = 4%nat) ->
  4 + 80 * Z.of_nat (List.length (_titles w)) < 2 ^ 32 ->
  List.length (headerBytes float_bytes w) = (116 + 80 * List.length (_titles w))%nat.
Proof.
  intros Hf Hn. rewrite length_headerBytes, Hf.
  unfold uint. rewrite Z.mod_small by lia. lia.
Qed.

End Encodings.

End DCDLayoutFacts.

(* ================================================================= *)
(** ** The file a DCDWriter builds *)

Module DCDFile.

Import DCD DCDLayout DCDFacts DCDLayoutFacts.
Local Open Scope Z_scope.

Section Encodings.

Variable float_bytes : R -> list Byte.byte.
Variable double_bytes : R -> list Byte.byte.

Lemma length_coordRecord w grp st comp :
  (forall x, List.length (float_bytes x) = 4%nat) ->
  0 <= _natoms w -> _natoms w * 4 < 2 ^ 32 ->
  List.length (coordRecord float_bytes w grp st comp)
  = Z.to_nat (8 + 4 * _natoms w).
Proof.
  intros Hf H0 H1. unfold coordRecord. rewrite length_f77Line.
  assert (L : forall l : list R, List.length (flat_map float_bytes l)
                                 = (4 * List.length l)%nat).
  { induction l as [|x l IH]; [reflexivity|].
    cbn [flat_map List.length]. rewrite length_app, Hf, IH. lia. }
  rewrite L, length_map, length_seq. unfold uint. rewrite Z.mod_small by lia. lia.
Qed.

(** X3: a frame takes three records of 8 + 4 N bytes for N atoms, and 56
    bytes more when box records are written, when a float takes 4 bytes
    and a double 8. *)
Theorem frame_size w grp st :
  (forall x, List.length (float_bytes x) = 4%nat) ->
  (forall x, List.length (double_bytes x) = 8%nat) ->
  0 <= _natoms w -> _natoms w * 4 < 2 ^ 32 ->
  List.length (frameBytes float_bytes double_bytes w grp st)
  = Z.to_nat ((if _has_box w then 56 else 0) + 3 * (8 + 4 * _natoms w)).
Proof.
  intros Hf Hd H0 H1. rewrite frameBytes_eq, !length_app.
  rewrite !length_coordRecord by assumption.
  destruct (_has_box w).
  - unfold boxRecord. rewrite length_f77Line. cbn [flat_map].
    rewrite !length_app, !Hd. cbn [List.length]. lia.
  - cbn [List.length]. lia.
Qed.

Lemma rewriteHeader_eq w :
  let w1 := with_nsteps (with_ofs w (seekp (_ofs w) 0)) (uint (_nsteps w + 1)) in
  rewriteHeader float_bytes w
  = with_ofs w1 (seekp_end (_ofs (writeHeader float_bytes w1))).
Proof.
  cbv zeta. unfold rewriteHeader. cbv zeta.
  change (_nsteps (with_ofs w (seekp (_ofs w) 0))) with (_nsteps w).
  rewrite writeHeader_fields at 1. reflexivity.
Qed.

(** The header rewrite: the new header goes over the first bytes of the
    stream, and the stream is left at its end. *)
Lemma rewriteHeader_data w :
  failbit (_ofs w) = false ->
  let w' := rewriteHeader float_bytes w in
  failbit (_ofs w') = false /\
  data (_ofs w') = overwrite (data (_ofs w)) 0 (headerBytes float_bytes w') /\
  pos (_ofs w') = List.length (data (_ofs w')) /\
  _nsteps w' = uint (_nsteps w + 1) /\
  _natoms w' = _natoms w /\ _timestep w' = _timestep w /\ _has_box w' = _has_box w /\
  _titles w' = _titles w /\ _current w' = _current w.
Proof.
  intros F. cbv zeta. rewrite rewriteHeader_eq. cbv zeta.
  remember (with_nsteps (with_ofs w (seekp (_ofs w) 0)) (uint (_nsteps w + 1)))
    as w1 eqn:E1.
  assert (S1 : failbit (_ofs w1) = false /\ pos (_ofs w1) = 0%nat
               /\ data (_ofs w1) = data (_ofs w)).
  { rewrite E1. unfold seekp, logged.
    cbn [_ofs with_ofs with_nsteps failbit pos data calls].
    rewrite F. repeat split. }
  destruct S1 as (F1 & P1 & D1).
  destruct (writeHeader_puts float_bytes w1 F1) as (F2 & P2 & D2); [lia|].
  remember (_ofs (writeHeader float_bytes w1)) as s2 eqn:E2.
  rewrite headerBytes_with_ofs.
  change (_ofs (with_ofs w1 (seekp_end s2))) with (seekp_end s2).
  assert (S3 : failbit (seekp_end s2) = false
               /\ data (seekp_end s2) = data s2
               /\ pos (seekp_end s2) = List.length (data s2)).
  { unfold seekp_end, logged. cbn [failbit pos data calls]. rewrite F2.
    cbn [failbit pos data]. split; [reflexivity|]. split; reflexivity. }
  destruct S3 as (F3 & D3 & P3).
  split; [exact F3|].
  split; [rewrite D3, D2, P1, D1; reflexivity|].
  split; [rewrite P3, D3; reflexivity|].
  rewrite E1. cbn [_ofs with_ofs with_nsteps _nsteps _natoms _timestep _has_box
                   _titles _current].
  split; [reflexivity|]. split; [reflexivity|]. split; [reflexivity|].
  split; [reflexivity|]. split; reflexivity.
Qed.

(** X4: rewriting the header of a stream that begins with a header leaves
    every byte after the header as it was: the frames written before are
    kept, the stream is back at its end, and the frame count of the new
    header is one more. *)
Theorem rewriteHeader_keeps_frames w rest :
  failbit (_ofs w) = false ->
  data (_ofs w) = headerBytes float_bytes w ++ rest ->
  let w' := rewriteHeader float_bytes w in
  failbit (_ofs w') = false /\
  data (_ofs w') = headerBytes float_bytes w' ++ rest /\
  pos (_ofs w') = List.length (data (_ofs w')) /\
  _nsteps w' = uint (_nsteps w + 1).
Proof.
  intros F D. cbv zeta.
  destruct (rewriteHeader_data w F) as (F' & D' & P' & N' & A' & T' & B' & Ti' & _).
  split; [exact F'|]. split; [|split; assumption].
  rewrite D', D. apply overwrite_start.
  rewrite !length_headerBytes, T', Ti'. reflexivity.
Qed.

Lemma established_shaped w grp : _natoms w <> 0 -> established w grp = w.
Proof.
  intros H. unfold established. destruct (Z.eqb_spec (_natoms w) 0); [contradiction|].
  reflexivity.
Qed.

Lemma frameRejected_ext w w' grp :
  _natoms w' = _natoms w -> _has_box w' = _has_box w ->
  frameRejected w' grp = frameRejected w grp.
Proof. intros Hn Hb. unfold frameRejected. now rewrite Hn, Hb. Qed.

Lemma writeFrame_keeps_step w frames grp st :
  inStep float_bytes w frames ->
  _natoms w <> 0 ->
  frameRejected w grp = false ->
  _current w + 1 < 2 ^ 32 ->
  exists w',
    writeFrame float_bytes double_bytes w grp st = (Ok tt, w') /\
    inStep float_bytes w' (frames ++ [frameBytes float_bytes double_bytes w grp st]) /\
    _natoms w' = _natoms w /\ _has_box w' = _has_box w /\
    _nsteps w' = Z.max (_nsteps w) (_current w + 1).
Proof.
  intros (F & P & D & C & Clo & Chi) Hn Hacc Hroom.
  rewrite writeFrame_steps, Hacc. cbv zeta. rewrite (established_shaped _ _ Hn).
  assert (C0 : 0 <= _current w) by lia.
  destruct (Z.leb_spec (_nsteps w) (_current w)) as [Hfull|Hfree].
  - (* the declared count is reached: rewrite, then append *)
    destruct (rewriteHeader_data w F) as (F1 & D1' & P1 & N1 & _ & T1' & _ & Ti1' & _).
    assert (D1 : data (_ofs (rewriteHeader float_bytes w))
                 = headerBytes float_bytes (rewriteHeader float_bytes w) ++ concat frames).
    { rewrite D1', D. apply overwrite_start.
      rewrite !length_headerBytes, T1', Ti1'. reflexivity. }
    clear D1' T1' Ti1'.
    destruct (rewriteHeader_data w F) as (_ & _ & _ & _ & A1 & T1 & B1 & Ti1 & C1).
    set (w1 := rewriteHeader float_bytes w) in *.
    rewrite F1.
    destruct (appendRecords_puts float_bytes double_bytes w1 grp st F1)
      as (F2 & P2 & D2); [lia|].
    destruct (appendRecords_fields float_bytes double_bytes w1 grp st)
      as (A2 & N2 & T2 & B2 & Ti2 & C2).
    set (w2 := appendRecords float_bytes double_bytes w1 grp st) in *.
    exists w2. split; [reflexivity|].
    assert (Hu : uint (_nsteps w + 1) = _nsteps w + 1)
      by (unfold uint; apply Z.mod_small; lia).
    assert (Hc : uint (_current w + 1) = _current w + 1)
      by (unfold uint; apply Z.mod_small; lia).
    split; [|split; [congruence | split; [congruence | lia]]].
    unfold inStep. split; [exact F2|].
    rewrite D2, P1, overwrite_end, P2, P1, length_app.
    split; [reflexivity|].
    rewrite (frameBytes_ext float_bytes double_bytes w w1) by assumption.
    split.
    { rewrite D1, concat_app. cbn [concat]. rewrite app_nil_r, <- app_assoc.
      f_equal. apply headerBytes_ext; congruence. }
    rewrite C2, C1, Hc, N2, N1, Hu, length_app. cbn [List.length]. lia.
  - (* room is left in the declared count: append *)
    destruct (appendRecords_puts float_bytes double_bytes w grp st F)
      as (F2 & P2 & D2); [lia|].
    destruct (appendRecords_fields float_bytes double_bytes w grp st)
      as (A2 & N2 & T2 & B2 & Ti2 & C2).
    set (w2 := appendRecords float_bytes double_bytes w grp st) in *.
    exists w2. split; [reflexivity|].
    assert (Hc : uint (_current w + 1) = _current w + 1)
      by (unfold uint; apply Z.mod_small; lia).
    split; [|split; [congruence | split; [congruence | lia]]].
    unfold inStep. split; [exact F2|].
    rewrite D2, P, overwrite_end, P2, P, length_app.
    split; [reflexivity|]. split.
    { rewrite D, concat_app. cbn [concat]. rewrite app_nil_r, <- app_assoc.
      f_equal. symmetry. apply headerBytes_ext; congruence. }
    rewrite C2, Hc, N2, length_app. cbn [List.length]. lia.
Qed.

(** X5: a writer in step with its stream stays in step through an
    accepted frame: the frame's bytes are added after the frames already
    there, the header is the one of the new frame count, and the frames
    written before are unchanged. *)
Theorem writeFrame_in_step w frames grp st :
  inStep float_bytes w frames ->
  _natoms w <> 0 ->
  frameRejected w grp = false ->
  _current w + 1 < 2 ^ 32 ->
  exists w',
    writeFrame float_bytes double_bytes w grp st = (Ok tt, w') /\
    inStep float_bytes w' (frames ++ [frameBytes float_bytes double_bytes w grp st]) /\
    _natoms w' = _natoms w /\ _has_box w' = _has_box w /\
    _nsteps w' = Z.max (_nsteps w) (_current w + 1).
Proof. exact (writeFrame_keeps_step w frames grp st). Qed.

Lemma established_fields w grp :
  _ofs (established w grp) = _ofs w /\ _nsteps (established w grp) = _nsteps w /\
  _current (established w grp) = _current w /\
  _natoms (established w grp)
  = (if _natoms w =? 0 then Z.of_nat (size grp) else _natoms w).
Proof. unfold established. destruct (_natoms w =? 0); repeat split. Qed.

(** X6: the first frame given to a writer with nothing declared and an
    empty stream writes the header and then the frame: the writer is in
    step with its stream, with one frame declared and counted. *)
Theorem writeFrame_first w grp st :
  failbit (_ofs w) = false -> data (_ofs w) = [] ->
  _nsteps w = 0 -> _current w = 0 ->
  frameRejected w grp = false ->
  exists w',
    writeFrame float_bytes double_bytes w grp st = (Ok tt, w') /\
    inStep float_bytes w' [frameBytes float_bytes double_bytes w' grp st] /\
    _nsteps w' = 1 /\
    _natoms w' = (if _natoms w =? 0 then Z.of_nat (size grp) else _natoms w).
Proof.
  intros F D N C Hacc.
  rewrite writeFrame_steps, Hacc. cbv zeta.
  destruct (established_fields w grp) as (O0 & N0 & C0 & A0).
  remember (established w grp) as w0 eqn:E0.
  rewrite N0, C0, N, C. cbn [Z.leb Z.compare].
  assert (F0 : failbit (_ofs w0) = false) by (rewrite O0; exact F).
  destruct (rewriteHeader_data w0 F0)
    as (F1 & D1 & P1 & N1 & A1 & T1 & B1 & Ti1 & C1).
  remember (rewriteHeader float_bytes w0) as w1 eqn:E1.
  rewrite F1.
  destruct (appendRecords_puts float_bytes double_bytes w1 grp st F1)
    as (F2 & P2 & D2); [lia|].
  destruct (appendRecords_fields float_bytes double_bytes w1 grp st)
    as (A2 & N2 & T2 & B2 & Ti2 & C2).
  remember (appendRecords float_bytes double_bytes w1 grp st) as w2 eqn:E2.
  exists w2. split; [reflexivity|].
  assert (Hn : _nsteps w2 = 1) by (rewrite N2, N1, N0, N; reflexivity).
  assert (Hc : _current w2 = 1) by (rewrite C2, C1, C0, C; reflexivity).
  split; [|split; [exact Hn | congruence]].
  unfold inStep. split; [exact F2|].
  rewrite D2, P1, overwrite_end, P2, P1, length_app.
  split; [reflexivity|]. split.
  - rewrite D1, O0, D, overwrite_empty. cbn [concat]. rewrite app_nil_r.
    f_equal.
    + symmetry. apply headerBytes_ext; assumption.
    + symmetry. apply frameBytes_ext; assumption.
  - rewrite Hc, Hn. cbn. lia.
Qed.

Lemma writeFrames_keep_step grps st : forall w frames,
  inStep float_bytes w frames ->
  _natoms w <> 0 ->
  Forall (fun g => frameRejected w g = false) grps ->
  _current w + Z.of_nat (List.length grps) < 2 ^ 32 ->
  exists w',
    writeFrames float_bytes double_bytes w grps st = (Ok tt, w') /\
    inStep float_bytes w'
      (frames ++ map (fun g => frameBytes float_bytes double_bytes w g st) grps) /\
    _natoms w' = _natoms w /\ _has_box w' = _has_box w /\
    _nsteps w' = Z.max (_nsteps w) (_current w + Z.of_nat (List.length grps)).
Proof.
  induction grps as [|g grps IH]; intros w frames Hstep Hn Hall Hroom.
  - exists w. cbn [writeFrames map List.length]. rewrite app_nil_r.
    destruct Hstep as (F & P & D & C & Clo & Chi).
    repeat split; try assumption. cbn. lia.
  - inversion Hall as [|g' grps' Hg Hrest]; subst.
    cbn [List.length] in Hroom.
    assert (C0 : 0 <= _current w) by (destruct Hstep as (_ & _ & _ & C & _); lia).
    destruct (writeFrame_keeps_step w frames g st Hstep Hn Hg)
      as (w1 & Hrun & Hstep1 & A1 & B1 & N1); [lia|].
    assert (C1 : _current w1 = _current w + 1).
    { destruct Hstep as (_ & _ & _ & C & _). destruct Hstep1 as (_ & _ & _ & C' & _).
      rewrite C', C, length_app. cbn [List.length]. lia. }
    destruct (IH w1 (frames ++ [frameBytes float_bytes double_bytes w g st]) Hstep1)
      as (w2 & Hrun2 & Hstep2 & A2 & B2 & N2).
    { congruence. }
    { eapply Forall_impl; [|exact Hrest]. intros h Hh. cbv beta in *.
      now rewrite (frameRejected_ext w w1). }
    { lia. }
    exists w2. cbn [writeFrames]. rewrite Hrun.
    split; [exact Hrun2|]. split.
    + cbn [map]. rewrite <- app_assoc in Hstep2. cbn [app] in Hstep2.
      rewrite (map_ext _ (fun g0 => frameBytes float_bytes double_bytes w g0 st))
        in Hstep2 by (intros h; now apply frameBytes_ext).
      exact Hstep2.
    + split; [congruence|]. split; [congruence|].
      rewrite N2, N1, C1. cbn [List.length]. lia.
Qed.

(** X7: the frames of a vector are written in order; a writer in step
    with its stream, given frames it accepts, ends in step with all of
    them added, and declares as many frames as it has written or more. *)
Theorem writeFrames_in_step grps st : forall w frames,
  inStep float_bytes w frames ->
  _natoms w <> 0 ->
  Forall (fun g => frameRejected w g = false) grps ->
  _current w + Z.of_nat (List.length grps) < 2 ^ 32 ->
  exists w',
    writeFrames float_bytes double_bytes w grps st = (Ok tt, w') /\
    inStep float_bytes w'
      (frames ++ map (fun g => frameBytes float_bytes double_bytes w g st) grps) /\
    _natoms w' = _natoms w /\ _has_box w' = _has_box w /\
    _nsteps w' = Z.max (_nsteps w) (_current w + Z.of_nat (List.length grps)).
Proof. exact (writeFrames_keep_step grps st). Qed.

(** X8: the vector constructors, on an empty stream and for frames of one
    size (not 0) that have a box if the first has one: every frame is
    written, the stream holds the header followed by the frames in
    order, and the header is never rewritten, the count it was written
    with being the number of frames. *)
Theorem writeAll_layout s titles grps st :
  failbit s = false -> data s = [] -> pos s = 0%nat ->
  grps <> [] ->
  size (nth 0 grps (mkGroup [] None)) <> 0%nat ->
  Forall (fun g => size g = size (nth 0 grps (mkGroup [] None)) /\
                   (isPeriodic (nth 0 grps (mkGroup [] None)) = true ->
                    isPeriodic g = true)) grps ->
  Z.of_nat (List.length grps) < 2 ^ 32 ->
  exists w',
    writeAll float_bytes double_bytes s titles grps st = (Ok tt, w') /\
    data (_ofs w')
    = headerBytes float_bytes w'
      ++ concat (map (fun g => frameBytes float_bytes double_bytes w' g st) grps) /\
    framesWritten w' = Z.of_nat (List.length grps) /\
    _nsteps w' = Z.of_nat (List.length grps) /\
    _natoms w' = Z.of_nat (size (nth 0 grps (mkGroup [] None))).
Proof.
  intros F D P Hne Hsize Hall Hlen. unfold writeAll. cbv zeta.
  remember (nth 0 grps (mkGroup [] None)) as first eqn:Ef.
  remember (mkWriter (Z.of_nat (size first)) (Z.of_nat (List.length grps)) (1 / 1000)%R 0
                     (isPeriodic first) s titles) as w0 eqn:E0.
  assert (F0 : failbit (_ofs w0) = false) by (rewrite E0; exact F).
  destruct (writeHeader_puts float_bytes w0 F0) as (F1 & P1 & D1).
  { rewrite E0. cbn [_ofs]. rewrite P. lia. }
  assert (Hfields : _natoms (writeHeader float_bytes w0) = Z.of_nat (size first) /\
                    _nsteps (writeHeader float_bytes w0) = Z.of_nat (List.length grps) /\
                    _current (writeHeader float_bytes w0) = 0 /\
                    _has_box (writeHeader float_bytes w0) = isPeriodic first /\
                    _timestep (writeHeader float_bytes w0) = _timestep w0 /\
                    _titles (writeHeader float_bytes w0) = _titles w0).
  { rewrite writeHeader_fields, E0. repeat split. }
  destruct Hfields as (A1 & N1 & C1 & B1 & T1 & Ti1).
  remember (writeHeader float_bytes w0) as w1 eqn:E1.
  assert (Hstep : inStep float_bytes w1 []).
  { unfold inStep. split; [exact F1|].
    assert (Hd : data (_ofs w1) = headerBytes float_bytes w0).
    { rewrite D1, E0. cbn [_ofs]. rewrite D, P. apply overwrite_empty. }
    split; [rewrite P1, Hd, E0; cbn [_ofs]; rewrite P; reflexivity|].
    split.
    - rewrite Hd. cbn [concat]. rewrite app_nil_r. symmetry.
      apply headerBytes_ext; rewrite ?A1, ?N1, ?B1, ?T1, ?Ti1, ?E0; reflexivity.
    - rewrite C1, N1. cbn [List.length]. lia. }
  destruct (writeFrames_keep_step grps st w1 [] Hstep) as (w2 & Hrun & Hstep2 & A2 & B2 & N2).
  { rewrite A1. lia. }
  { eapply Forall_impl; [|exact Hall]. intros g [Hg Hb]. cbv beta.
    unfold frameRejected. rewrite A1, B1, Hg, Z.eqb_refl. cbn [negb orb].
    destruct (isPeriodic first); [rewrite (Hb eq_refl)|]; cbn; apply andb_false_r. }
  { rewrite C1. lia. }
  exists w2. split; [exact Hrun|].
  destruct Hstep2 as (F2 & P2 & D2 & C2 & _).
  split.
  { rewrite D2. cbn [app]. f_equal. f_equal. apply map_ext. intros g.
    symmetry. now apply frameBytes_ext. }
  split; [unfold framesWritten; rewrite C2; cbn [app]; now rewrite length_map|].
  split; [rewrite N2, N1, C1; lia | congruence].
Qed.

(** *** A stream that has failed *)

Lemma failed_write s b :
  failbit s = true ->
  failbit (stream_write s b) = true /\ data (stream_write s b) = data s.
Proof.
  intros F. unfold stream_write, logged. cbn [failbit pos data calls]. now rewrite F.
Qed.

Lemma failed_writeF77Line s b len :
  failbit s = true ->
  failbit (writeF77Line s b len) = true /\ data (writeF77Line s b len) = data s.
Proof.
  intros F. unfold writeF77Line. cbv zeta.
  destruct (failed_write s (uint_bytes len) F) as (F1 & D1).
  destruct (failed_write _ (firstn (Z.to_nat len) b) F1) as (F2 & D2).
  destruct (failed_write _ (uint_bytes len) F2) as (F3 & D3).
  split; [exact F3 | congruence].
Qed.

Lemma data_flush s : data (flush s) = data s.
Proof. reflexivity. Qed.

Lemma failed_writeBox w b :
  failbit (_ofs w) = true ->
  failbit (_ofs (writeBox double_bytes w b)) = true /\
  data (_ofs (writeBox double_bytes w b)) = data (_ofs w).
Proof. intros F. unfold writeBox. cbn [_ofs with_ofs]. now apply failed_writeF77Line. Qed.

Lemma failed_writeCoordLine w grp st comp :
  failbit (_ofs w) = true ->
  failbit (_ofs (writeCoordLine float_bytes w grp st comp)) = true /\
  data (_ofs (writeCoordLine float_bytes w grp st comp)) = data (_ofs w).
Proof.
  intros F. unfold writeCoordLine. cbn [_ofs with_ofs]. now apply failed_writeF77Line.
Qed.

Lemma failed_appendRecords w grp st :
  failbit (_ofs w) = true ->
  data (_ofs (appendRecords float_bytes double_bytes w grp st)) = data (_ofs w).
Proof.
  intros F. unfold appendRecords. cbv zeta.
  set (w1 := if _has_box w then writeBox double_bytes w (periodicBox grp) else w).
  assert (H1 : failbit (_ofs w1) = true /\ data (_ofs w1) = data (_ofs w)).
  { unfold w1. destruct (_has_box w); [now apply failed_writeBox | now split]. }
  destruct H1 as (F1 & D1).
  destruct (failed_writeCoordLine w1 grp st cx F1) as (F2 & D2).
  set (w2 := writeCoordLine float_bytes w1 grp st cx) in *.
  destruct (failed_writeCoordLine w2 grp st cy F2) as (F3 & D3).
  set (w3 := writeCoordLine float_bytes w2 grp st cy) in *.
  destruct (failed_writeCoordLine w3 grp st cz F3) as (F4 & D4).
  set (w4 := writeCoordLine float_bytes w3 grp st cz) in *.
  change (data (flush (_ofs w4)) = data (_ofs w)).
  rewrite data_flush. congruence.
Qed.

(** X9: writeFrame does not look at the stream after writing a frame: on
    a stream that has failed, with room left in the declared frame
    count, an accepted frame is reported as written and counted while
    the bytes of the stream stay as they were. *)
Theorem writeFrame_failed_stream w grp st :
  failbit (_ofs w) = true ->
  frameRejected w grp = false ->
  _current w < _nsteps w ->
  exists w',
    writeFrame float_bytes double_bytes w grp st = (Ok tt, w') /\
    data (_ofs w') = data (_ofs w) /\
    framesWritten w' = uint (_current w + 1).
Proof.
  intros F Hacc Hroom. rewrite writeFrame_steps, Hacc. cbv zeta.
  destruct (established_fields w grp) as (O0 & N0 & C0 & _).
  remember (established w grp) as w0 eqn:E0.
  rewrite N0, C0. replace (_nsteps w <=? _current w) with false
    by (symmetry; apply Z.leb_gt; lia).
  eexists. split; [reflexivity|]. split.
  - rewrite failed_appendRecords by (rewrite O0; exact F). now rewrite O0.
  - unfold framesWritten.
    destruct (appendRecords_fields float_bytes double_bytes w0 grp st)
      as (_ & _ & _ & _ & _ & C2).
    now rewrite C2, C0.
Qed.

Lemma failed_seekp s off :
  failbit s = true -> failbit (seekp s off) = true /\ data (seekp s off) = data s.
Proof. intros F. unfold seekp, logged. cbn [failbit pos data calls]. now rewrite F. Qed.

Lemma failed_seekp_end s :
  failbit s = true -> failbit (seekp_end s) = true /\ data (seekp_end s) = data s.
Proof. intros F. unfold seekp_end, logged. cbn [failbit pos data calls]. now rewrite F. Qed.

Lemma failed_writeHeader w :
  failbit (_ofs w) = true ->
  failbit (_ofs (writeHeader float_bytes w)) = true /\
  data (_ofs (writeHeader float_bytes w)) = data (_ofs w).
Proof.
  intros F. unfold writeHeader. cbv zeta. cbn [_ofs with_ofs].
  match goal with
  | |- failbit (writeF77Line (writeF77Line (writeF77Line ?s ?b1 ?l1) ?b2 ?l2) ?b3 ?l3)
       = true /\ _ =>
      destruct (failed_writeF77Line s b1 l1 F) as (F1 & D1);
      destruct (failed_writeF77Line _ b2 l2 F1) as (F2 & D2);
      destruct (failed_writeF77Line _ b3 l3 F2) as (F3 & D3)
  end.
  split; [exact F3 | congruence].
Qed.

(** X10: when the header has to be rewritten and the stream has failed,
    writeFrame throws, and the writer it leaves behind has its declared
    frame count incremented all the same; no frame is counted and the
    bytes of the stream stay as they were. *)
Theorem writeFrame_failed_rewrite w grp st :
  failbit (_ofs w) = true ->
  frameRejected w grp = false ->
  _nsteps w <= _current w ->
  exists w',
    writeFrame float_bytes double_bytes w grp st
    = (Throw (RuntimeError "Error while re-writing DCD header"), w') /\
    _nsteps w' = uint (_nsteps w + 1) /\
    framesWritten w' = _current w /\
    data (_ofs w') = data (_ofs w).
Proof.
  intros F Hacc Hfull. rewrite writeFrame_steps, Hacc. cbv zeta.
  destruct (established_fields w grp) as (O0 & N0 & C0 & _).
  remember (established w grp) as w0 eqn:E0.
  rewrite N0, C0. replace (_nsteps w <=? _current w) with true
    by (symmetry; apply Z.leb_le; lia).
  rewrite rewriteHeader_eq. cbv zeta.
  remember (with_nsteps (with_ofs w0 (seekp (_ofs w0) 0)) (uint (_nsteps w0 + 1)))
    as w1 eqn:E1.
  assert (S1 : failbit (_ofs w1) = true /\ data (_ofs w1) = data (_ofs w)
               /\ _nsteps w1 = uint (_nsteps w + 1) /\ _current w1 = _current w).
  { rewrite E1. cbn [_ofs with_ofs with_nsteps _nsteps _current].
    destruct (failed_seekp (_ofs w0) 0) as (Fs & Ds); [rewrite O0; exact F|].
    rewrite Fs, Ds, O0, N0, C0. repeat split. }
  destruct S1 as (F1 & D1 & N1 & C1).
  destruct (failed_writeHeader w1 F1) as (F2 & D2).
  destruct (failed_seekp_end _ F2) as (F3 & D3).
  change (_ofs (with_ofs w1 (seekp_end (_ofs (writeHeader float_bytes w1)))))
    with (seekp_end (_ofs (writeHeader float_bytes w1))).
  rewrite F3. eexists. split; [reflexivity|].
  change (_ofs (with_ofs w1 (seekp_end (_ofs (writeHeader float_bytes w1)))))
    with (seekp_end (_ofs (writeHeader float_bytes w1))).
  unfold framesWritten.
  change (_nsteps (with_ofs w1 (seekp_end (_ofs (writeHeader float_bytes w1)))))
    with (_nsteps w1).
  change (_current (with_ofs w1 (seekp_end (_ofs (writeHeader float_bytes w1)))))
    with (_current w1).
  split; [exact N1|]. split; [exact C1 | congruence].
Qed.

(** writeHeader on an empty stream puts a writer that has written no
    frame in step with its stream. *)
Lemma writeHeader_in_step w :
  failbit (_ofs w) = false -> data (_ofs w) = [] -> pos (_ofs w) = 0%nat ->
  _current w = 0 -> 0 <= _nsteps w < 2 ^ 32 ->
  inStep float_bytes (writeHeader float_bytes w) [].
Proof.
  intros F D P C N.
  destruct (writeHeader_puts float_bytes w F) as (F1 & P1 & D1); [lia|].
  rewrite writeHeader_fields.
  remember (_ofs (writeHeader float_bytes w)) as s1 eqn:E1.
  unfold inStep. rewrite headerBytes_with_ofs.
  change (_ofs (with_ofs w s1)) with s1.
  change (_current (with_ofs w s1)) with (_current w).
  change (_nsteps (with_ofs w s1)) with (_nsteps w).
  rewrite D1, P1, D, P, overwrite_empty.
  cbn [concat List.length Nat.add]. rewrite app_nil_r, C.
  split; [exact F1|]. split; [reflexivity|]. split; [reflexivity|].
  split; [reflexivity|]. change (Z.of_nat 0) with 0. lia.
Qed.

End Encodings.

Import Examples.

Lemma zero_bytes_length n x : List.length (zero_bytes n x) = n.
Proof. apply repeat_length. Qed.

(** The header of the sample writer, with its one title: 196 bytes. *)
Lemma header_size_witness :
  List.length (headerBytes (zero_bytes 4) fresh_writer) = (116 + 80 * 1)%nat.
Proof.
  apply (header_size (zero_bytes 4) fresh_writer).
  - intros x. apply zero_bytes_length.
  - cbn. lia.
Defined.

(** A frame of 4 atoms without a box: 72 bytes. *)
Lemma frame_size_witness :
  List.length (frameBytes (zero_bytes 4) (zero_bytes 8) shaped_writer moving st0)
  = Z.to_nat (0 + 3 * (8 + 4 * 4)).
Proof.
  apply (frame_size (zero_bytes 4) (zero_bytes 8) shaped_writer moving st0).
  - intros x. apply zero_bytes_length.
  - intros x. apply zero_bytes_length.
  - cbn. lia.
  - cbn. lia.
Defined.

Lemma rewriteHeader_keeps_frames_witness :
  let w' := rewriteHeader (zero_bytes 4) headed_writer in
  failbit (_ofs w') = false /\
  data (_ofs w') = headerBytes (zero_bytes 4) w' ++ [Byte.x01] /\
  pos (_ofs w') = List.length (data (_ofs w')) /\
  _nsteps w' = uint (_nsteps headed_writer + 1).
Proof.
  apply (rewriteHeader_keeps_frames (zero_bytes 4) headed_writer [Byte.x01]).
  - reflexivity.
  - unfold headed_writer. rewrite headerBytes_with_ofs. reflexivity.
Defined.

Lemma shaped_header_in_step :
  inStep (zero_bytes 4) (writeHeader (zero_bytes 4) shaped_writer) [].
Proof. apply writeHeader_in_step; try reflexivity. cbn. lia. Qed.

Lemma shaped_header_fields :
  _natoms (writeHeader (zero_bytes 4) shaped_writer) = 4 /\
  _has_box (writeHeader (zero_bytes 4) shaped_writer) = false /\
  _current (writeHeader (zero_bytes 4) shaped_writer) = 0.
Proof. rewrite writeHeader_fields. repeat split. Qed.

Lemma shaped_accepts g :
  size g = 4%nat ->
  frameRejected (writeHeader (zero_bytes 4) shaped_writer) g = false.
Proof.
  intros H. unfold frameRejected.
  destruct shaped_header_fields as (A & B & _). rewrite A, B, H. reflexivity.
Qed.

Lemma writeFrame_in_step_witness :
  let w := writeHeader (zero_bytes 4) shaped_writer in
  exists w',
    writeFrame (zero_bytes 4) (zero_bytes 8) w moving st0 = (Ok tt, w') /\
    inStep (zero_bytes 4) w' ([] ++ [frameBytes (zero_bytes 4) (zero_bytes 8) w moving st0]) /\
    _natoms w' = _natoms w /\ _has_box w' = _has_box w /\
    _nsteps w' = Z.max (_nsteps w) (_current w + 1).
Proof.
  apply (writeFrame_in_step (zero_bytes 4) (zero_bytes 8)
           (writeHeader (zero_bytes 4) shaped_writer) [] moving st0).
  - apply shaped_header_in_step.
  - destruct shaped_header_fields as (A & _). rewrite A. lia.
  - now apply shaped_accepts.
  - destruct shaped_header_fields as (_ & _ & C). rewrite C. lia.
Defined.

Lemma writeFrame_first_witness :
  exists w',
    writeFrame (zero_bytes 4) (zero_bytes 8) fresh_writer moving st0 = (Ok tt, w') /\
    inStep (zero_bytes 4) w' [frameBytes (zero_bytes 4) (zero_bytes 8) w' moving st0] /\
    _nsteps w' = 1 /\
    _natoms w' = (if _natoms fresh_writer =? 0 then Z.of_nat (size moving)
                  else _natoms fresh_writer).
Proof.
  apply (writeFrame_first (zero_bytes 4) (zero_bytes 8) fresh_writer moving st0);
    reflexivity.
Defined.

Lemma writeFrames_in_step_witness :
  let w := writeHeader (zero_bytes 4) shaped_writer in
  exists w',
    writeFrames (zero_bytes 4) (zero_bytes 8) w [moving; copied] st0 = (Ok tt, w') /\
    inStep (zero_bytes 4) w'
      ([] ++ map (fun g => frameBytes (zero_bytes 4) (zero_bytes 8) w g st0)
                 [moving; copied]) /\
    _natoms w' = _natoms w /\ _has_box w' = _has_box w /\
    _nsteps w' = Z.max (_nsteps w) (_current w + Z.of_nat 2).
Proof.
  apply (writeFrames_in_step (zero_bytes 4) (zero_bytes 8) [moving; copied] st0
           (writeHeader (zero_bytes 4) shaped_writer) []).
  - apply shaped_header_in_step.
  - destruct shaped_header_fields as (A & _). rewrite A. lia.
  - repeat constructor; now apply shaped_accepts.
  - destruct shaped_header_fields as (_ & _ & C). rewrite C. cbn. lia.
Defined.

Lemma writeAll_layout_witness :
  exists w',
    writeAll (zero_bytes 4) (zero_bytes 8) empty_stream ["TWO FRAMES"%string]
             [moving; copied] st0 = (Ok tt, w') /\
    data (_ofs w')
    = headerBytes (zero_bytes 4) w'
      ++ concat (map (fun g => frameBytes (zero_bytes 4) (zero_bytes 8) w' g st0)
                     [moving; copied]) /\
    framesWritten w' = Z.of_nat 2 /\
    _nsteps w' = Z.of_nat 2 /\
    _natoms w' = Z.of_nat 4.
Proof.
  apply (writeAll_layout (zero_bytes 4) (zero_bytes 8) empty_stream ["TWO FRAMES"%string]
           [moving; copied] st0);
    first [ reflexivity | discriminate | (cbn; lia)
          | (repeat constructor; intros H; exact H) ].
Defined.

Lemma writeFrame_failed_stream_witness :
  exists w',
    writeFrame (zero_bytes 4) (zero_bytes 8) failed_writer moving st0 = (Ok tt, w') /\
    data (_ofs w') = data (_ofs failed_writer) /\
    framesWritten w' = uint (_current failed_writer + 1).
Proof.
  apply (writeFrame_failed_stream (zero_bytes 4) (zero_bytes 8) failed_writer moving st0).
  - reflexivity.
  - reflexivity.
  - cbn. lia.
Defined.

Lemma writeFrame_failed_rewrite_witness :
  exists w',
    writeFrame (zero_bytes 4) (zero_bytes 8) failed_full_writer moving st0
    = (Throw (RuntimeError "Error while re-writing DCD header"), w') /\
    _nsteps w' = uint (_nsteps failed_full_writer + 1) /\
    framesWritten w' = _current failed_full_writer /\
    data (_ofs w') = data (_ofs failed_full_writer).
Proof.
  apply (writeFrame_failed_rewrite (zero_bytes 4) (zero_bytes 8) failed_full_writer
           moving st0).
  - reflexivity.
  - reflexivity.
  - cbn. lia.
Defined.

End DCDFile.

(* ================================================================= *)
(** ** More on superposition and alignOnto *)

Lemma mulv3_zero A : mulv3 A (mkCoord 0 0 0) = mkCoord 0 0 0.
Proof. mnorm. f_equal; ring. Qed.

(** An orthogonal matrix keeps lengths. *)
Lemma orthogonal3_norm A v :
  orthogonal3 A -> cdot (mulv3 A v) (mulv3 A v) = cdot v v.
Proof.
  intros [H _]. mnorm_in H. injection H as E0 E1 E2 E3 E4 E5 E6 E7 E8.
  destruct v as [x y z]. unfold cdot. mnorm.
  pose proof (f_equal (fun t => x * x * t) E0) as F0.
  pose proof (f_equal (fun t => x * y * t) E1) as F1.
  pose proof (f_equal (fun t => x * z * t) E2) as F2.
  pose proof (f_equal (fun t => y * x * t) E3) as F3.
  pose proof (f_equal (fun t => y * y * t) E4) as F4.
  pose proof (f_equal (fun t => y * z * t) E5) as F5.
  pose proof (f_equal (fun t => z * x * t) E6) as F6.
  pose proof (f_equal (fun t => z * y * t) E7) as F7.
  pose proof (f_equal (fun t => z * z * t) E8) as F8.
  cbv beta in *. lra.
Qed.

Lemma mulv3_csub A u v : mulv3 A (csub u v) = csub (mulv3 A u) (mulv3 A v).
Proof. unfold csub. mnorm. f_equal; ring. Qed.

Lemma mulv3_buffer A v : mulv3 (buffer 9 A) v = mulv3 A v.
Proof. reflexivity. Qed.

Section Rigid.

Variable dgesvd_ : ascii -> ascii -> nat -> nat -> arr -> nat -> nat -> nat -> dgesvd_out.

(** X11: whatever the SVD returns, a transform returned by superposition
    takes the centroid of the moving group to the centroid of the
    reference. *)
Theorem superposition_maps_centroid self grp st W :
  fst (superposition dgesvd_ self grp st) = Ok W ->
  gapply W (centroid self st) = centroid grp st.
Proof.
  rewrite superposition_run. cbv zeta. cbn [fst].
  destruct (svd_info _ =? 0)%Z; [|discriminate].
  intros [= <-]. rewrite gapply_compose.
  unfold csub, cadd. mnorm. destruct (centroid grp st) as [a b c]. cbn [cx cy cz].
  f_equal; ring.
Qed.


(** X13: alignOnto moves the group rigidly: when the SVD succeeds with a
    decomposition of the cross-covariance matrix, the squared distance of
    any two atoms of the moving group (listed once) is after the call what
    it was before. *)
Theorem alignOnto_keeps_distances self grp st p q :
  let Rm := correlationMatrix self grp st in
  let out := dgesvd_ "A"%char "A"%char 3 3 Rm 3 3 3 in
  svd_info out = 0%Z -> svd_of Rm out ->
  NoDup (atoms self) -> In p (atoms self) -> In q (atoms self) ->
  exists M st',
    alignOnto dgesvd_ self grp st = (Ok M, st') /\
    dist2 (coords (st' p)) (coords (st' q)) = dist2 (coords (st p)) (coords (st q)).
Proof.
  intros Rm out Hinfo Hsvd Hnd Hp Hq.
  destruct (superposition_rotation dgesvd_ self grp st Hinfo Hsvd)
    as (W & HW & HWc & _ & HO & _).
  destruct (alignOnto dgesvd_ self grp st) as [r st'] eqn:Hrun.
  assert (Hr : r = Ok W).
  { rewrite alignOnto_run, HW in Hrun. now injection Hrun as <- _. }
  subst r. exists W, st'. split; [reflexivity|].
  destruct (alignOnto_moves dgesvd_ self grp st W st' Hnd Hrun) as (_ & Hin & _).
  rewrite (Hin p Hp), (Hin q Hq). cbn [coords].
  rewrite HWc, !gapply_compose. unfold dist2.
  set (A := rotationPart W) in *.
  replace (csub (cadd (centroid grp st) (mulv3 A (csub (coords (st p)) (centroid self st))))
                (cadd (centroid grp st) (mulv3 A (csub (coords (st q)) (centroid self st)))))
    with (mulv3 A (csub (coords (st p)) (coords (st q)))).
  - now apply orthogonal3_norm.
  - unfold csub, cadd. mnorm. f_equal; ring.
Qed.

Lemma fold_cadd_shift l : forall a,
  fold_left cadd l a = cadd a (fold_left cadd l czero).
Proof.
  induction l as [|c l IH]; intros a; cbn [fold_left].
  - unfold cadd, czero. destruct a. cbn. f_equal; ring.
  - rewrite (IH (cadd a c)), (IH (cadd czero c)).
    unfold cadd, czero. cbn [cx cy cz]. f_equal; ring.
Qed.

Lemma fold_cadd_affine y A x l :
  fold_left cadd (map (fun c => cadd y (mulv3 A (csub c x))) l) czero
  = cadd (cscale (INR (List.length l)) y)
         (mulv3 A (csub (fold_left cadd l czero) (cscale (INR (List.length l)) x))).
Proof.
  induction l as [|c l IH].
  - cbn. unfold cadd, csub, cscale, czero. mnorm. f_equal; ring.
  - cbn [map fold_left List.length].
    rewrite fold_cadd_shift, IH, (fold_cadd_shift l (cadd czero c)), S_INR.
    unfold cadd, csub, cscale, czero. mnorm. f_equal; ring.
Qed.

(** X14: after alignOnto has returned, for a moving group with at least one
    atom, each listed once, the centroid of the moving group is the
    centroid the reference had before the call, whatever the SVD
    returned. *)
Theorem alignOnto_centroid self grp st M st' :
  NoDup (atoms self) -> (0 < size self)%nat ->
  alignOnto dgesvd_ self grp st = (Ok M, st') ->
  centroid self st' = centroid grp st.
Proof.
  intros Hnd Hn Hrun.
  destruct (alignOnto_moves dgesvd_ self grp st M st' Hnd Hrun) as (HM & Hin & _).
  assert (Hc : coordsOf st' self = map (gapply M) (coordsOf st self)).
  { unfold coordsOf. rewrite map_map. apply map_ext_in. intros p Hp.
    now rewrite (Hin p Hp). }
  rewrite superposition_run in HM. cbv zeta in HM. cbn [fst] in HM.
  destruct (svd_info _ =? 0)%Z; [|discriminate]. injection HM as HM.
  set (A := tr3 _) in HM.
  rewrite (centroid_coords self st'), Hc, length_map, <- (coordsOf_size st self).
  rewrite <- HM.
  rewrite (map_ext _ (fun c => cadd (centroid grp st)
                                    (mulv3 A (csub c (centroid self st)))))
    by (intros c; apply gapply_compose).
  rewrite fold_cadd_affine, <- (coordsOf_size st self).
  assert (Hnz : INR (size self) <> 0) by (apply not_0_INR; lia).
  unfold centroid at 2. 
  set (S := fold_left cadd (coordsOf st self) czero).
  destruct (centroid grp st) as [a b c].
  unfold cdiv, cadd, csub, cscale. mnorm. f_equal; field; exact Hnz.
Qed.


End Rigid.

Import Examples.

Lemma superposition_maps_centroid_witness :
  exists W,
    fst (superposition svd_rotated moving rotated st0) = Ok W /\
    gapply W (centroid moving st0) = centroid rotated st0.
Proof.
  destruct superposition_recovers_rotation as (W & HW & _).
  exists W. assert (H : fst (superposition svd_rotated moving rotated st0) = Ok W)
    by now rewrite HW.
  split; [exact H|].
  exact (superposition_maps_centroid svd_rotated moving rotated st0 W H).
Defined.


Lemma moving_NoDup : NoDup (atoms moving).
Proof. unfold moving, atoms. repeat constructor; cbn; intuition lia. Qed.

Lemma alignOnto_keeps_distances_witness :
  exists M st',
    alignOnto svd_rotated moving rotated st0 = (Ok M, st') /\
    dist2 (coords (st' 0%nat)) (coords (st' 3%nat))
    = dist2 (coords (st0 0%nat)) (coords (st0 3%nat)).
Proof.
  apply (alignOnto_keeps_distances svd_rotated moving rotated st0 0%nat 3%nat).
  - reflexivity.
  - apply svd_rotated_ok.
  - apply moving_NoDup.
  - cbn. tauto.
  - cbn. tauto.
Defined.

Lemma alignOnto_centroid_witness :
  exists M st',
    alignOnto svd_rotated moving rotated st0 = (Ok M, st') /\
    centroid moving st' = centroid rotated st0.
Proof.
  destruct (alignOnto svd_rotated moving rotated st0) as [r st'] eqn:Hrun.
  assert (Hr : exists M, r = Ok M).
  { rewrite alignOnto_run in Hrun.
    destruct superposition_recovers_rotation as (W & HW & _). rewrite HW in Hrun.
    exists W. now injection Hrun as <- _. }
  destruct Hr as (M & ->).
  exists M, st'. split; [reflexivity|].
  apply (alignOnto_centroid svd_rotated moving rotated st0 M st').
  - apply moving_NoDup.
  - cbn. lia.
  - exact Hrun.
Defined.


(* ================================================================= *)
(** ** The matrices handed to the eigensolver *)

Lemma length_set {A : Type} (a : list A) : forall i v,
  List.length (set a i v) = List.length a.
Proof.
  induction a as [|h t IH]; intros i v; [reflexivity|].
  destruct i; cbn; [reflexivity | now rewrite IH].
Qed.

Lemma length_accum I r c v : List.length (accum I r c v) = List.length I.
Proof. apply length_set. Qed.

(** Cells of an array at and after a known offset. *)
Lemma get_at (pre : arr) a b c rest :
  (pre ++ a :: b :: c :: rest).[List.length pre] = a /\
  (pre ++ a :: b :: c :: rest).[List.length pre + 1] = b /\
  (pre ++ a :: b :: c :: rest).[List.length pre + 2] = c.
Proof.
  unfold get. induction pre as [|h pre IH]; [repeat split|]. exact IH.
Qed.

Lemma set_at (pre : arr) a b c rest v :
  set (pre ++ a :: b :: c :: rest) (List.length pre) v = pre ++ v :: b :: c :: rest /\
  set (pre ++ a :: b :: c :: rest) (List.length pre + 1) v = pre ++ a :: v :: c :: rest /\
  set (pre ++ a :: b :: c :: rest) (List.length pre + 2) v = pre ++ a :: b :: v :: rest.
Proof.
  induction pre as [|h pre IH]; [repeat split|].
  destruct IH as (E0 & E1 & E2). cbn [List.length app Nat.add set].
  now rewrite E0, E1, E2.
Qed.

(** The first loop of principalAxes: the sums of the three components. *)
Lemma sums_loop (cs : list GCoord) : forall (pre : arr) (l : list nat) a b c,
  List.length l = List.length cs ->
  fold_left (fun '(M, k) (_ : nat) =>
               let A := pre ++ flat_map (fun c => [cx c; cy c; cz c]) cs in
               let M := set M 0 (M.[0] + A.[k]) in
               let M := set M 1 (M.[1] + A.[k + 1]) in
               let M := set M 2 (M.[2] + A.[k + 2]) in
               (M, (k + 3)%nat)) l ([a; b; c], List.length pre)
  = (let S := fold_left cadd cs czero in [a + cx S; b + cy S; c + cz S],
     (List.length pre + 3 * List.length cs)%nat).
Proof.
  induction cs as [|p cs IH]; intros pre l a b c Hl.
  - destruct l; [|discriminate]. cbn. f_equal; [repeat f_equal; ring | lia].
  - destruct l as [|i l]; [discriminate|]. injection Hl as Hl.
    cbn [fold_left flat_map]. cbv zeta.
    destruct (get_at pre (cx p) (cy p) (cz p)
                (flat_map (fun c => [cx c; cy c; cz c]) cs)) as (G0 & G1 & G2).
    cbn [app] in *. rewrite G0.
    replace ((set [a; b; c] 0 ([a; b; c].[0] + cx p)).[1]) with b by reflexivity.
    rewrite G1.
    cbn [set]. unfold get at 1 2. cbn [nth]. rewrite G2.
    specialize (IH (pre ++ [cx p; cy p; cz p]) l (a + cx p) (b + cy p) (c + cz p) Hl).
    rewrite length_app in IH. cbn [List.length] in IH.
    rewrite <- app_assoc in IH. cbn [app] in IH.
    etransitivity; [exact IH|]. cbv zeta.
    rewrite (fold_cadd_shift cs (cadd czero p)).
    unfold cadd, czero. cbn [cx cy cz List.length].
    f_equal; [|lia]. f_equal; [ring|]. f_equal; [ring|]. f_equal; ring.
Qed.

(** The second loop: the means subtracted in place. *)
Lemma centre_loop (M : arr) (cs : list GCoord) : forall (pre : arr) (l : list nat),
  List.length l = List.length cs ->
  fold_left (fun '(A, k) (_ : nat) =>
               let A := set A k (A.[k] - M.[0]) in
               let A := set A (k + 1) (A.[k + 1] - M.[1]) in
               let A := set A (k + 2) (A.[k + 2] - M.[2]) in
               (A, (k + 3)%nat)) l
            (pre ++ flat_map (fun c => [cx c; cy c; cz c]) cs, List.length pre)
  = (pre ++ flat_map (fun c => [cx c - M.[0]; cy c - M.[1]; cz c - M.[2]]) cs,
     (List.length pre + 3 * List.length cs)%nat).
Proof.
  induction cs as [|p cs IH]; intros pre l Hl.
  - destruct l; [|discriminate]. cbn. f_equal. lia.
  - destruct l as [|i l]; [discriminate|]. injection Hl as Hl.
    cbn [fold_left flat_map app]. cbv zeta.
    set (rest := flat_map (fun c => [cx c; cy c; cz c]) cs).
    destruct (get_at pre (cx p) (cy p) (cz p) rest) as (G0 & _).
    destruct (set_at pre (cx p) (cy p) (cz p) rest (cx p - M.[0])) as (S0 & _).
    rewrite G0, S0.
    destruct (get_at pre (cx p - M.[0]) (cy p) (cz p) rest) as (_ & G1 & _).
    destruct (set_at pre (cx p - M.[0]) (cy p) (cz p) rest (cy p - M.[1])) as (_ & S1 & _).
    rewrite G1, S1.
    destruct (get_at pre (cx p - M.[0]) (cy p - M.[1]) (cz p) rest) as (_ & _ & G2).
    destruct (set_at pre (cx p - M.[0]) (cy p - M.[1]) (cz p) rest (cz p - M.[2]))
      as (_ & _ & S2).
    rewrite G2, S2.
    specialize (IH (pre ++ [cx p - M.[0]; cy p - M.[1]; cz p - M.[2]]) l Hl).
    rewrite length_app in IH. cbn [List.length] in IH.
    rewrite <- app_assoc in IH. cbn [app] in IH. fold rest in IH.
    etransitivity; [exact IH|].
    rewrite <- app_assoc. cbn [app List.length]. f_equal. lia.
Qed.

(** X16: the matrix principalAxes hands to the eigensolver is the matrix
    superposition computes for the group against itself: the two loops
    that sum and subtract the means centre the coordinates on the centroid,
    as the translation of superposition does. *)
Theorem scatterMatrix_is_self_correlation self st :
  scatterMatrix self st = correlationMatrix self self st.
Proof.
  unfold correlationMatrix. rewrite centredCoords_coords.
  unfold scatterMatrix, coordsAsArray, centredArray. cbv zeta.
  set (cs := coordsOf st self).
  assert (Hn : size self = List.length cs) by apply coordsOf_size.
  assert (Hl : List.length (seq 0 (size self)) = List.length cs)
    by (rewrite length_seq; exact Hn).
  pose proof (sums_loop cs [] (seq 0 (size self)) 0 0 0 Hl) as E1.
  cbv zeta in E1. cbn [app List.length] in E1. rewrite E1. clear E1. cbv beta iota zeta.
  set (S := fold_left cadd cs czero).
  set (M := set _ 2 _).
  pose proof (centre_loop M cs [] (seq 0 (size self)) Hl) as E2.
  cbn [app List.length] in E2.
  match goal with
  | |- (let '(A, _) := ?x in _) = _ =>
      match type of E2 with _ = ?y => replace x with y by (symmetry; exact E2) end
  end.
  clear E2. cbv beta iota.
  assert (HM : M.[0] = cx (cdiv S (INR (List.length cs))) /\
               M.[1] = cy (cdiv S (INR (List.length cs))) /\
               M.[2] = cz (cdiv S (INR (List.length cs)))).
  { unfold M. rewrite Hn. cbv [set get nth cdiv cx cy cz]. repeat split; f_equal; ring. }
  destruct HM as (-> & -> & ->). reflexivity.
Qed.
